(** * kordesii: function_tracing/flowchart.py

    A shallow embedding of the control-flow-graph traversals, of the
    memoised lazy path enumeration ([_build_path], [get_paths]) and of the
    incremental replay of emulation state ([PathBlock.cpu_context]),
    together with the properties the specification states about them.

    Python generators are modelled as explicit resumable machines: a
    suspended generator is a value recording the [yield] at which the body
    stopped, and [next] is a function from that value and the shared store
    to an outcome.  Dictionaries are [gmap]s, sets are [gset]s. *)

From stdpp Require Import gmap list.
From Stdlib Require Import ZArith Lia.

Open Scope Z_scope.
Set Warnings "-clear-no-such-hyp".

(** ** Exceptions raised by the modelled code *)

Inductive exn :=
| KeyError | ValueError | AttributeError | TypeError.

(** ** Blocks and flow charts *)

(** [idaapi.BasicBlock]: an address range; [pred_ids] and [succ_ids] are the
    indices, into the owning chart, of the blocks the host reports as
    predecessors and successors, in the order the host reports them. *)
Record BasicBlock := mkBlock {
  start_ea : Z;
  end_ea : Z;
  pred_ids : list nat;
  succ_ids : list nat
}.

(** [FlowChart]: [self.f.start_ea], [self.f.end_ea] and the blocks
    [self[0]], [self[1]], ...; the two caches are mutable and live in
    [fc_state] below. *)
Record FlowChart := mkChart {
  f_start_ea : Z;
  f_end_ea : Z;
  blocks : list BasicBlock
}.

Definition getitem (fc : FlowChart) (i : nat) : option BasicBlock :=
  blocks fc !! i.

(** [cur_block.preds()] / [cur_block.succs()]: the host yields
    [self._fc[i]] for each reported index. *)
Definition preds (fc : FlowChart) (b : BasicBlock) : list BasicBlock :=
  omap (getitem fc) (pred_ids b).

Definition succs (fc : FlowChart) (b : BasicBlock) : list BasicBlock :=
  omap (getitem fc) (succ_ids b).

(** [CustomBasicBlock.__contains__]: [start_ea <= ea < end_ea]. *)
Definition contains (b : BasicBlock) (ea : Z) : bool :=
  (start_ea b <=? ea) && (ea <? end_ea b).
Arguments contains : simpl never.

(** [FlowChart.find_block]: first block, in chart order, containing [ea];
    [None] when the loop falls through. *)
Definition find_block (fc : FlowChart) (ea : Z) : option BasicBlock :=
  find (fun b => contains b ea) (blocks fc).

(** ** [sorted(..., key=attrgetter("start_ea"))]

    Python's sort is stable, also with [reverse=True]. *)

Fixpoint insert_asc (x : BasicBlock) (l : list BasicBlock) : list BasicBlock :=
  match l with
  | [] => [x]
  | y :: l' => if start_ea x <=? start_ea y then x :: l
               else y :: insert_asc x l'
  end.

Definition sorted_asc (l : list BasicBlock) : list BasicBlock :=
  foldr insert_asc [] l.

Fixpoint insert_desc (x : BasicBlock) (l : list BasicBlock) : list BasicBlock :=
  match l with
  | [] => [x]
  | y :: l' => if start_ea y <=? start_ea x then x :: l
               else y :: insert_desc x l'
  end.

Definition sorted_desc (l : list BasicBlock) : list BasicBlock :=
  foldr insert_desc [] l.

(** [l[-1:]]: the last element as a list, or the empty list. *)
Definition last_slice {A} (l : list A) : list A :=
  match last l with
  | Some x => [x]
  | None => []
  end.

(** Python truthiness of an optional integer argument ([if start_ea:]):
    [None] and [0] are false. *)
Definition truthy (o : option Z) : bool :=
  match o with
  | Some z => negb (z =? 0)
  | None => false
  end.

(** ** Forward traversal: [_dfs] and [_bfs]

    The state of the [while] loop; one call of the step function is one
    iteration of the loop, which yields at most one block. *)

Record fwd_state := mkFwd {
  fwd_non_visited : list BasicBlock;
  fwd_visited : gset Z;
  fwd_block_found : bool
}.

(** Entering the generator body: [block_found = start_ea is None],
    [non_visited = [self[0]]] (the host's [__getitem__] raises [KeyError]
    on an empty chart), [visited = set()]. *)
Definition fwd_init (fc : FlowChart) (start : option Z) : exn + fwd_state :=
  match getitem fc 0%nat with
  | None => inl KeyError
  | Some b0 =>
      inr (mkFwd [b0] ∅ (match start with None => true | Some _ => false end))
  end.

Definition fwd_step (dfs : bool) (fc : FlowChart) (start : option Z)
    (s : fwd_state) : option (option BasicBlock * fwd_state) :=
  match fwd_non_visited s with
  | [] => None
  | cur_block :: rest =>
      if bool_decide (start_ea cur_block ∈ fwd_visited s) then
        Some (None, mkFwd rest (fwd_visited s) (fwd_block_found s))
      else
        let visited := {[start_ea cur_block]} ∪ fwd_visited s in
        let children := sorted_asc (succs fc cur_block) in
        let non_visited := if dfs then children ++ rest else rest ++ children in
        let block_found :=
          if fwd_block_found s then true
          else match start with
               | Some ea => contains cur_block ea
               | None => false
               end in
        Some (if block_found then Some cur_block else None,
              mkFwd non_visited visited block_found)
  end.

(** The blocks yielded during the first [n] iterations of the loop. *)
Fixpoint fwd_run (dfs : bool) (fc : FlowChart) (start : option Z) (n : nat)
    (s : fwd_state) : list BasicBlock :=
  match n with
  | O => []
  | S n' =>
      match fwd_step dfs fc start s with
      | None => []
      | Some (Some b, s') => b :: fwd_run dfs fc start n' s'
      | Some (None, s') => fwd_run dfs fc start n' s'
      end
  end.

Definition _dfs (fc : FlowChart) (start : option Z) (n : nat)
    : exn + list BasicBlock :=
  match fwd_init fc start with
  | inl e => inl e
  | inr s => inr (fwd_run true fc start n s)
  end.

Definition _bfs (fc : FlowChart) (start : option Z) (n : nat)
    : exn + list BasicBlock :=
  match fwd_init fc start with
  | inl e => inl e
  | inr s => inr (fwd_run false fc start n s)
  end.

(** ** Reverse traversal: [_dfs_reverse] and [_bfs_reverse] *)

(** The seed of the work list.  With a truthy [start_ea] it is
    [[self.find_block(start_ea)]]; a [None] found there makes the first
    iteration fail on [cur_block.preds()] before anything is yielded.
    Otherwise it is [list(sorted(self, key=start_ea, reverse=True))[-1:]]. *)
Definition rev_seed (fc : FlowChart) (start : option Z)
    : exn + list BasicBlock :=
  if truthy start then
    match find_block fc (default 0 start) with
    | Some b => inr [b]
    | None => inl AttributeError
    end
  else inr (last_slice (sorted_desc (blocks fc))).

(** The list comprehension of both loops: predecessors sorted by
    descending [start_ea], kept when strictly below the current block. *)
Definition followed_preds (fc : FlowChart) (cur_block : BasicBlock)
    : list BasicBlock :=
  filter (fun pred => start_ea pred < start_ea cur_block)
         (sorted_desc (preds fc cur_block)).

(** One iteration: pop the head, push the followed predecessors (in front
    for DFS, at the back for BFS), yield the popped block. *)
Definition rev_step (dfs : bool) (fc : FlowChart) (non_visited : list BasicBlock)
    : option (BasicBlock * list BasicBlock) :=
  match non_visited with
  | [] => None
  | cur_block :: rest =>
      let new := followed_preds fc cur_block in
      Some (cur_block, if dfs then new ++ rest else rest ++ new)
  end.

(** The blocks yielded during the first [n] iterations, and the work list
    left after them. *)
Fixpoint rev_run (dfs : bool) (fc : FlowChart) (n : nat)
    (non_visited : list BasicBlock) : list BasicBlock * list BasicBlock :=
  match n with
  | O => ([], non_visited)
  | S n' =>
      match rev_step dfs fc non_visited with
      | None => ([], [])
      | Some (b, nv') =>
          let '(out, nv_end) := rev_run dfs fc n' nv' in (b :: out, nv_end)
      end
  end.

Definition _dfs_reverse (fc : FlowChart) (start : option Z) (n : nat)
    : exn + (list BasicBlock * list BasicBlock) :=
  match rev_seed fc start with
  | inl e => inl e
  | inr nv => inr (rev_run true fc n nv)
  end.

Definition _bfs_reverse (fc : FlowChart) (start : option Z) (n : nat)
    : exn + (list BasicBlock * list BasicBlock) :=
  match rev_seed fc start with
  | inl e => inl e
  | inr nv => inr (rev_run false fc n nv)
  end.

(** ** Path blocks *)

(** [PathBlock]: one block occurrence on one path, linked to the previous
    occurrence.  [_context] is a reference into the store of processor
    contexts (see [emu_state]); [_context_ea] is the address the context
    has been filled to (exclusive). *)
#[warnings="-register-all"]
Inductive PathBlock := mkPath {
  bb : BasicBlock;
  prev : option PathBlock;
  _context : option nat;
  _context_ea : option Z
}.

(** [PathBlock(bb, prev)] *)
Definition new_PathBlock (b : BasicBlock) (p : option PathBlock) : PathBlock :=
  mkPath b p None None.

(** The chain of block start addresses from the root to this block. *)
Fixpoint chain (p : PathBlock) : list Z :=
  match prev p with
  | Some q => chain q ++ [start_ea (bb p)]
  | None => [start_ea (bb p)]
  end.

(** The block at the root of the chain (following [prev] to the end). *)
Fixpoint root (p : PathBlock) : BasicBlock :=
  match prev p with
  | Some q => root q
  | None => bb p
  end.

(** ** The generator [_build_path]

    A suspended activation of [_build_path] is stopped at one of its three
    [yield]s.  The [visited] set is one object shared by all activations
    below one top-level call, so it is kept beside the outermost frame. *)

Inductive frame :=
| FrEntry (cur_block : BasicBlock)
    (* at [yield p_block] of the no-parent branch *)
| FrParent (cur_block : BasicBlock) (rest : list BasicBlock) (inner : frame)
    (* at [yield p_block] inside [for _p_block in self._build_path(block, visited)];
       [rest] are the parents the outer [for] has not reached, [inner] the
       suspended recursive generator *)
| FrCache (cur_block : BasicBlock) (i : nat).
    (* at [yield blk] of the cache-hit branch; [i] is the list iterator's
       next index *)

Inductive outcome :=
| Yield (p : PathBlock) (fr : frame)
| Return
| Raise (e : exn)
| Diverge.   (* recursion budget of the model exhausted; see [depth_bound] *)

Abbreviation path_cache_t := (gmap Z (list PathBlock)).

(** [self._path_cache.get(k, [])] *)
Definition cache_get (cache : path_cache_t) (k : Z) : list PathBlock :=
  default [] (cache !! k).

Section BuildPath.
Variable fc : FlowChart.
(** The path cache does not change while one [next] runs. *)
Variable cache : path_cache_t.

(** [visited.remove(cb_start_ea)], then the generator returns. *)
Definition finish (cur_block : BasicBlock) (visited : gset Z)
    : gset Z * outcome :=
  if bool_decide (start_ea cur_block ∈ visited)
  then (visited ∖ {[start_ea cur_block]}, Return)
  else (visited, Raise KeyError).

(** [for blk in path_cache: yield blk], from index [i] of the live list. *)
Definition iter_cache (cur_block : BasicBlock) (i : nat) (visited : gset Z)
    : gset Z * outcome :=
  match cache_get cache (start_ea cur_block) !! i with
  | Some blk => (visited, Yield blk (FrCache cur_block (S i)))
  | None => finish cur_block visited
  end.

(** [for block in cb_parents: ...] from the parents still to visit;
    [start] runs a fresh recursive generator up to its first yield. *)
Fixpoint loop_parents (start : BasicBlock -> gset Z -> gset Z * outcome)
    (cur_block : BasicBlock) (rest : list BasicBlock) (visited : gset Z)
    : gset Z * outcome :=
  match rest with
  | [] => finish cur_block visited
  | block :: rest' =>
      if bool_decide (start_ea block ∈ visited)
         || (start_ea block >? start_ea cur_block)
      then loop_parents start cur_block rest' visited
      else
        match start block visited with
        | (visited', Yield _p_block fr) =>
            (visited',
             Yield (new_PathBlock cur_block (Some _p_block))
                   (FrParent cur_block rest' fr))
        | (visited', Return) => loop_parents start cur_block rest' visited'
        | r => r
        end
  end.

(** Running the body of [_build_path(cur_block, visited)] from its
    beginning to the first yield or to its end. *)
Fixpoint start_build (fuel : nat) (cur_block : BasicBlock) (visited : gset Z)
    : gset Z * outcome :=
  match fuel with
  | O => (visited, Diverge)
  | S fuel' =>
      let visited := {[start_ea cur_block]} ∪ visited in
      let path_cache := cache_get cache (start_ea cur_block) in
      if (length path_cache =? 0)%nat then
        let cb_parents := preds fc cur_block in
        if (length cb_parents =? 0)%nat then
          (visited, Yield (new_PathBlock cur_block None) (FrEntry cur_block))
        else loop_parents (start_build fuel') cur_block cb_parents visited
      else iter_cache cur_block 0 visited
  end.

(** A recursive activation always has a strictly smaller [start_ea] than
    its caller (the guard of the loop, with the caller's own start in
    [visited]), so the recursion is never deeper than the number of blocks;
    lemmas [start_build_post] and [gen_next_ok] show that [Diverge] never
    comes out. *)
Definition depth_bound : nat := S (length (blocks fc)).

(** Resuming a suspended activation. *)
Fixpoint resume (fr : frame) (visited : gset Z) : gset Z * outcome :=
  match fr with
  | FrEntry cur_block => finish cur_block visited
  | FrParent cur_block rest inner =>
      match resume inner visited with
      | (visited', Yield _p_block inner') =>
          (visited',
           Yield (new_PathBlock cur_block (Some _p_block))
                 (FrParent cur_block rest inner'))
      | (visited', Return) =>
          loop_parents (start_build depth_bound) cur_block rest visited'
      | r => r
      end
  | FrCache cur_block i => iter_cache cur_block i visited
  end.
End BuildPath.

(** A generator object made by a top-level call [self._build_path(block)]:
    not started, suspended with its [visited] set, or finished. *)
Inductive generator :=
| GenCreated (block : BasicBlock)
| GenSuspended (visited : gset Z) (fr : frame)
| GenFinished.

(** [self._build_path(block)]: calling a generator function runs none of
    its body. *)
Definition _build_path (block : BasicBlock) : generator := GenCreated block.

Inductive gen_result :=
| GYield (p : PathBlock)
| GStop
| GRaise (e : exn)
| GDiverge.

(** [next(path_generator)] *)
Definition gen_next (fc : FlowChart) (cache : path_cache_t) (g : generator)
    : generator * gen_result :=
  let run :=
    match g with
    | GenCreated block => Some (start_build fc cache (depth_bound fc) block ∅)
    | GenSuspended visited fr => Some (resume fc cache fr visited)
    | GenFinished => None
    end in
  match run with
  | None => (GenFinished, GStop)
  | Some (visited', Yield p fr') => (GenSuspended visited' fr', GYield p)
  | Some (_, Return) => (GenFinished, GStop)
  | Some (_, Raise e) => (GenFinished, GRaise e)
  | Some (_, Diverge) => (GenFinished, GDiverge)
  end.

(** ** [get_paths] *)

(** The mutable attributes of a [FlowChart]. *)
Record fc_state := mkState {
  _path_cache : path_cache_t;
  _gen_cache : gmap Z generator
}.

Definition fresh_state : fc_state := mkState ∅ ∅.

(** A [get_paths(ea)] generator object: not started, inside
    [for path in cached_paths] at list index [i], inside
    [for path in path_generator], or finished. *)
Inductive gp_gen :=
| GpCreated (ea : Z)
| GpCached (block : BasicBlock) (i : nat)
| GpDrawing (block : BasicBlock)
| GpFinished.

Inductive gp_result :=
| GpYield (p : PathBlock)
| GpStop
| GpRaise (e : exn)
| GpDiverge.

(** [self._path_cache[k]] on a [defaultdict(list)]: creates the entry. *)
Definition cache_touch (cache : path_cache_t) (k : Z) : path_cache_t :=
  match cache !! k with
  | Some _ => cache
  | None => <[k := []]> cache
  end.

(** [self._path_cache[k].append(path)] *)
Definition cache_append (cache : path_cache_t) (k : Z) (path : PathBlock)
    : path_cache_t :=
  <[k := cache_get cache k ++ [path]]> cache.

Section GetPaths.
Variable fc : FlowChart.

(** One iteration of [for path in path_generator]; the local variable
    [path_generator] is the object stored under the block's key. *)
Definition gp_draw (st : fc_state) (block : BasicBlock)
    : fc_state * gp_gen * gp_result :=
  let k := start_ea block in
  match _gen_cache st !! k with
  | None => (st, GpFinished, GpStop)  (* entries are never deleted *)
  | Some g =>
      let '(g', r) := gen_next fc (_path_cache st) g in
      let gens := <[k := g']> (_gen_cache st) in
      match r with
      | GYield path =>
          (mkState (cache_append (_path_cache st) (start_ea (bb path)) path) gens,
           GpDrawing block, GpYield path)
      | GStop => (mkState (_path_cache st) gens, GpFinished, GpStop)
      | GRaise e => (mkState (_path_cache st) gens, GpFinished, GpRaise e)
      | GDiverge => (mkState (_path_cache st) gens, GpFinished, GpDiverge)
      end
  end.

(** Lines 514-517: fetch the block's generator or create and store it,
    then start drawing. *)
Definition gp_enter_draw (st : fc_state) (block : BasicBlock)
    : fc_state * gp_gen * gp_result :=
  let k := start_ea block in
  let st' :=
    match _gen_cache st !! k with
    | Some _ => st
    | None => mkState (_path_cache st) (<[k := _build_path block]> (_gen_cache st))
    end in
  gp_draw st' block.

(** [for path in cached_paths: yield path] over the live list. *)
Definition gp_cached (st : fc_state) (block : BasicBlock) (i : nat)
    : fc_state * gp_gen * gp_result :=
  match cache_get (_path_cache st) (start_ea block) !! i with
  | Some path => (st, GpCached block (S i), GpYield path)
  | None => gp_enter_draw st block
  end.

(** [next] on a [get_paths] generator. *)
Definition gp_next (st : fc_state) (g : gp_gen)
    : fc_state * gp_gen * gp_result :=
  match g with
  | GpCreated ea =>
      match find_block fc ea with
      | None => (st, GpFinished, GpRaise AttributeError)
          (* [block.start_ea] on [None] *)
      | Some block =>
          let st' := mkState (cache_touch (_path_cache st) (start_ea block))
                             (_gen_cache st) in
          gp_cached st' block 0
      end
  | GpCached block i => gp_cached st block i
  | GpDrawing block => gp_draw st block
  | GpFinished => (st, GpFinished, GpStop)
  end.

(** Pulling at most [n] paths from a [get_paths] generator: the paths
    obtained, how the generator ended if it did within these pulls, and
    the chart state and generator afterwards. *)
Fixpoint gp_take (n : nat) (st : fc_state) (g : gp_gen)
    : list PathBlock * option gp_result * fc_state * gp_gen :=
  match n with
  | O => ([], None, st, g)
  | S n' =>
      match gp_next st g with
      | (st', g', GpYield p) =>
          let '(ps, e, st'', g'') := gp_take n' st' g' in
          (p :: ps, e, st'', g'')
      | (st', g', r) => ([], Some r, st', g')
      end
  end.

(** [get_paths(ea)] called on state [st] and pulled [n] times. *)
Definition get_paths (st : fc_state) (ea : Z) (n : nat) :=
  gp_take n st (GpCreated ea).
End GetPaths.

(** ** Replay of emulation state: [PathBlock.cpu_context] *)

(** A path block as this code leaves it: context and fill address are set
    together, a context refers to an object of the store ([n] objects), and
    the same holds along [prev]. *)
Fixpoint wf_path (n : nat) (p : PathBlock) : Prop :=
  match _context p, _context_ea p with
  | Some c, Some _ => (c < n)%nat
  | None, None => True
  | _, _ => False
  end
  /\ match prev p with
     | Some q => wf_path n q
     | None => True
     end.

Section Emulation.
(** The value of a [ProcessorContext] (registers, memory), the value a
    fresh [ProcessorContext()] has, and the effect of
    [processor.execute(context, ip)] on the value of the context it is
    given.  The emulator is taken to return: an exception raised inside
    [processor.execute], which [cpu_context] lets through, is not
    modelled. *)
Variable context : Type.
Variable new_context : context.
Variable execute : context -> Z -> context.

(** The instruction heads of the database and the host's [BADADDR]. *)
Variable heads : list Z.
Variable BADADDR : Z.

(** Modelled from the spec: the host's instruction stream ("given an
    address, returns the ordered sequence of instruction addresses within
    a range").  [idc.next_head(ea)] is the least head above [ea], or
    [BADADDR]; [idautils.Heads(s, e)] are the heads in [[s, e)]. *)
Definition next_head (ea : Z) : Z :=
  foldr (fun h acc => if (ea <? h) && (h <? acc) then h else acc) BADADDR heads.

Definition Heads (s e : Z) : list Z :=
  filter (fun h => s <= h < e) heads.

(** Context objects live in a store and are named by their index;
    [applied] logs every [processor.execute] call (the instruction
    address it was given), oldest first. *)
Record emu_state := mkEmu {
  objects : list context;
  applied : list Z
}.

Definition deref (σ : emu_state) (c : nat) : context :=
  default new_context (objects σ !! c).

Definition alloc (v : context) (σ : emu_state) : nat * emu_state :=
  (length (objects σ), mkEmu (objects σ ++ [v]) (applied σ)).

(** [deepcopy(self._context)]: a new object with an equal value;
    [deepcopy(None)] is [None]. *)
Definition deepcopy (c : option nat) (σ : emu_state) : option nat * emu_state :=
  match c with
  | Some c => let '(r, σ') := alloc (deref σ c) σ in (Some r, σ')
  | None => (None, σ)
  end.

(** [processor.execute(context, ip)] mutates the object in place. *)
Definition processor_execute (c : nat) (ip : Z) (σ : emu_state) : emu_state :=
  mkEmu (<[c := execute (deref σ c) ip]> (objects σ)) (applied σ ++ [ip]).

(** [for ip in idautils.Heads(...): processor.execute(self._context, ip)];
    executing on [None] fails. *)
Fixpoint fill (c : option nat) (ips : list Z) (σ : emu_state)
    : exn + emu_state :=
  match ips with
  | [] => inr σ
  | ip :: ips' =>
      match c with
      | Some c' => fill c ips' (processor_execute c' ip σ)
      | None => inl AttributeError
      end
  end.

(** [PathBlock.cpu_context(ea)].  The call returns a reference (or
    [None], when [self._context] is [None]), leaves [self] and the blocks
    along [prev] with new attribute values, and changes the store; all
    three are returned.  Objects count as true in [not self._context] and
    [if self.prev], so only [None] is false.  A context without a fill
    address is never left behind by this code; comparing that [None] with
    [end] is modelled as a [TypeError]. *)
Fixpoint cpu_context (self : PathBlock) (ea : option Z) (σ : emu_state)
    : exn + (option nat * PathBlock * emu_state) :=
  if match ea with
     | Some a => negb (contains (bb self) a)
     | None => false
     end
  then inl KeyError
  else
    let end_ := match ea with
                | None => end_ea (bb self)
                | Some a => next_head a
                end in
    if bool_decide (_context_ea self = Some end_) then
      let '(r, σ') := deepcopy (_context self) σ in inr (r, self, σ')
    else
      (* [not self._context or self._context_ea > end] *)
      match
        match _context self, _context_ea self with
        | None, _ => inr true
        | Some _, Some filled => inr (filled >? end_)
        | Some _, None => inl TypeError
        end
      with
      | inl e => inl e
      | inr reinit =>
          match
            if reinit then
              match prev self with
              | Some p =>
                  match cpu_context p None σ with
                  | inl e => inl e
                  | inr (c, p', σ') =>
                      inr (c, Some p', Some (start_ea (bb self)), σ')
                  end
              | None =>
                  let '(c, σ') := alloc new_context σ in
                  inr (Some c, None, Some (start_ea (bb self)), σ')
              end
            else inr (_context self, prev self, _context_ea self, σ)
          with
          | inl e => inl e
          | inr (c, prev', Some filled, σ1) =>
              match fill c (Heads filled end_) σ1 with
              | inl e => inl e
              | inr σ2 =>
                  let '(r, σ3) := deepcopy c σ2 in
                  inr (r, mkPath (bb self) prev' c (Some end_), σ3)
              end
          | inr (_, _, None, _) => inl TypeError
          end
      end.

(** The address is acceptable for the block ([None]: the whole block). *)
Definition valid_ea (p : PathBlock) (ea : option Z) : Prop :=
  match ea with
  | Some a => start_ea (bb p) <= a < end_ea (bb p)
  | None => True
  end.

(** The exclusive end the request is filled to. *)
Definition end_of (p : PathBlock) (ea : option Z) : Z :=
  match ea with
  | None => end_ea (bb p)
  | Some a => next_head a
  end.

(** The context a block starts from: a copy of its predecessor's final
    context, or a new one. *)
Definition base (p : PathBlock) (σ : emu_state)
    : exn + (option nat * option PathBlock * emu_state) :=
  match prev p with
  | Some q =>
      match cpu_context q None σ with
      | inl e => inl e
      | inr (c, q', σ') => inr (c, Some q', σ')
      end
  | None =>
      let '(c, σ') := alloc new_context σ in inr (Some c, None, σ')
  end.

(** A call returns a fresh copy of the cached context: the store just
    before the copy is [σm], the cached context is object [c] of it, the
    result is the new object, and [l] are the instructions applied. *)
Definition returns_copy (p : PathBlock) (ea : option Z) (σ : emu_state)
    (c : nat) (prev' : option PathBlock) (σm : emu_state) (l : list Z) : Prop :=
  cpu_context p ea σ
  = inr (Some (length (objects σm)),
         mkPath (bb p) prev' (Some c) (Some (end_of p ea)),
         (alloc (deref σm c) σm).2)
  /\ (c < length (objects σm))%nat
  /\ (length (objects σ) <= length (objects σm))%nat
  /\ applied σm = applied σ ++ l
  /\ wf_path (length (objects σm))
             (mkPath (bb p) prev' (Some c) (Some (end_of p ea))).
End Emulation.

(** ** [paths_to_ea]

    [_paths_to_ea] restores [visited] and [cur_path] before it returns, and
    nothing else is shared, so the whole sequence of paths it yields is a
    function of its arguments.  [None] means the recursion budget [fuel] of
    the model was too small. *)
Fixpoint _paths_to_ea (fuel : nat) (fc : FlowChart) (ea : Z)
    (cur_block : BasicBlock) (visited : gset Z) (cur_path : list BasicBlock)
    : option (list (list BasicBlock)) :=
  match fuel with
  | O => None
  | S fuel' =>
      let visited := {[start_ea cur_block]} ∪ visited in
      let cur_path := cur_path ++ [cur_block] in
      let found := if contains cur_block ea then [cur_path] else [] in
      let fix traverse (next : list BasicBlock) :=
        match next with
        | [] => Some []
        | block :: next' =>
            if bool_decide (start_ea block ∈ visited) then traverse next'
            else
              match _paths_to_ea fuel' fc ea block visited cur_path,
                    traverse next' with
              | Some here, Some later => Some (here ++ later)
              | _, _ => None
              end
        end in
      match traverse (succs fc cur_block) with
      | Some below => Some (found ++ below)
      | None => None
      end
  end.

(** [paths_to_ea(ea)]: the bounds check, then every path from [self[0]]. *)
Definition paths_to_ea (fc : FlowChart) (ea : Z)
    : exn + option (list (list BasicBlock)) :=
  if negb ((f_start_ea fc <=? ea) && (ea <? f_end_ea fc)) then inl ValueError
  else
    match getitem fc 0%nat with
    | None => inl KeyError
    | Some b0 => inr (_paths_to_ea (S (length (blocks fc))) fc ea b0 ∅ [])
    end.

(** Pulling at most [n] paths from a [_build_path] generator while the
    path cache stays as it is. *)
Fixpoint gen_take (fc : FlowChart) (cache : path_cache_t) (n : nat)
    (g : generator) : list PathBlock * option gen_result * generator :=
  match n with
  | O => ([], None, g)
  | S n' =>
      match gen_next fc cache g with
      | (g', GYield p) =>
          let '(ps, e, g'') := gen_take fc cache n' g' in (p :: ps, e, g'')
      | (g', r) => ([], Some r, g')
      end
  end.

(** ** Clients of [get_paths]

    A client owns some [get_paths] generators, each made for an address;
    it may call [get_paths] again or advance any generator it owns, in any
    order. *)

Definition config : Type := fc_state * list (Z * gp_gen).

Inductive action :=
| Call (ea : Z)      (* [g = fc.get_paths(ea)] *)
| Next (i : nat).    (* [next(g_i)] *)

(** One action and what it reports: the address of the advanced generator
    and the result of the [next]. *)
Definition act (fc : FlowChart) (c : config) (a : action)
    : config * option (Z * gp_result) :=
  match a with
  | Call ea => ((c.1, c.2 ++ [(ea, GpCreated ea)]), None)
  | Next i =>
      match c.2 !! i with
      | None => (c, None)
      | Some (ea, g) =>
          let '(st', g', r) := gp_next fc c.1 g in
          ((st', <[i := (ea, g')]> c.2), Some (ea, r))
      end
  end.

Fixpoint run (fc : FlowChart) (c : config) (l : list action)
    : config * list (Z * gp_result) :=
  match l with
  | [] => (c, [])
  | a :: l' =>
      let '(c', o) := act fc c a in
      let '(c'', out) := run fc c' l' in
      (c'', option_list o ++ out)
  end.

(** The chart state after a client ran [l] on a new chart. *)
Definition state_after (fc : FlowChart) (l : list action) : fc_state :=
  (run fc (fresh_state, []) l).1.1.

(** The components of the result of [gp_take] / [get_paths]. *)
Definition paths_of (r : list PathBlock * option gp_result * fc_state * gp_gen) :=
  r.1.1.1.
Definition ended_of (r : list PathBlock * option gp_result * fc_state * gp_gen) :=
  r.1.1.2.
Definition state_of (r : list PathBlock * option gp_result * fc_state * gp_gen) :=
  r.1.2.

(** Every block of the chart lies inside [[f.start_ea, f.end_ea)]. *)
Definition blocks_in_bounds (fc : FlowChart) : Prop :=
  Forall (fun b => f_start_ea fc <= start_ea b /\ end_ea b <= f_end_ea fc)
         (blocks fc).

(** ** Sample charts *)

Module Samples.
(** Two blocks in a row: [A -> B]. *)
Definition lineA := mkBlock 0x1000 0x1010 [] [1%nat].
Definition lineB := mkBlock 0x1010 0x1020 [0%nat] [].
Definition line := mkChart 0x1000 0x1020 [lineA; lineB].

(** The diamond [A -> B], [A -> C], [B -> D], [C -> D], with the start
    and end address of each block left open; [b_first] tells whether the
    host reports [B] before [C] as predecessor of [D]. *)
Definition dA (sA eA : Z) := mkBlock sA eA [] [1%nat; 2%nat].
Definition dB (sB eB : Z) := mkBlock sB eB [0%nat] [3%nat].
Definition dC (sC eC : Z) := mkBlock sC eC [0%nat] [3%nat].
Definition dD (b_first : bool) (sD eD : Z) :=
  mkBlock sD eD (if b_first then [1%nat; 2%nat] else [2%nat; 1%nat]) [].
Definition diamond (b_first : bool) (sA eA sB eB sC eC sD eD : Z) :=
  mkChart sA (Z.max (Z.max eA eB) (Z.max eC eD))
          [dA sA eA; dB sB eB; dC sC eC; dD b_first sD eD].

(** The diamond laid out in address order. *)
Definition diamond0 :=
  diamond true 0x1000 0x1010 0x1010 0x1020 0x1020 0x1030 0x1030 0x1040.

(** The same diamond with the join block [D] placed right after [A]. *)
Definition diamond_join_first :=
  diamond true 0x1000 0x1010 0x1020 0x1030 0x1030 0x1040 0x1010 0x1020.

(** A loop: [A -> B], [B -> C], [C -> B]; the back edge comes from the
    higher address. *)
Definition loopA := mkBlock 0x1000 0x1010 [] [1%nat].
Definition loopB := mkBlock 0x1010 0x1020 [0%nat; 2%nat] [2%nat].
Definition loopC := mkBlock 0x1020 0x1030 [1%nat] [1%nat].
Definition loop := mkChart 0x1000 0x1030 [loopA; loopB; loopC].

(** A function whose second block lies in a tail chunk, outside
    [[f.start_ea, f.end_ea)]: [A -> T]. *)
Definition tailA := mkBlock 0x1000 0x1010 [] [1%nat].
Definition tailT := mkBlock 0x2000 0x2010 [0%nat] [].
Definition tail := mkChart 0x1000 0x1010 [tailA; tailT].

(** An entry block and a second block without predecessors (say, a
    handler the host found no edge to), both leading to [C]:
    [A -> C], [H -> C]. *)
Definition orphanA := mkBlock 0x1000 0x1010 [] [2%nat].
Definition orphanH := mkBlock 0x1010 0x1020 [] [2%nat].
Definition orphanC := mkBlock 0x1020 0x1030 [0%nat; 1%nat] [].
Definition orphan := mkChart 0x1000 0x1030 [orphanA; orphanH; orphanC].

(** The diamond in address order followed by a block [E]: [D -> E]. *)
Definition tA := mkBlock 0x1000 0x1010 [] [1%nat; 2%nat].
Definition tB := mkBlock 0x1010 0x1020 [0%nat] [3%nat].
Definition tC := mkBlock 0x1020 0x1030 [0%nat] [3%nat].
Definition tD := mkBlock 0x1030 0x1040 [1%nat; 2%nat] [4%nat].
Definition tE := mkBlock 0x1040 0x1050 [3%nat] [].
Definition diamond_tail := mkChart 0x1000 0x1050 [tA; tB; tC; tD; tE].

(** A test emulator: its context is the list of the instruction
    addresses applied to it, latest first; and the instruction heads of
    the chart [line], four bytes apart. *)
Definition trace (c : list Z) (ip : Z) : list Z := ip :: c.
Definition heads : list Z :=
  [0x1000; 0x1004; 0x1008; 0x100c; 0x1010; 0x1014; 0x1018; 0x101c].
(** The path [A, B] through [line], as [get_paths] makes it. *)
Definition path_line : PathBlock :=
  new_PathBlock lineB (Some (new_PathBlock lineA None)).

(** Two blocks jumping to each other: [X -> Y], [Y -> X]. *)
Definition spinX := mkBlock 0x1000 0x1010 [1%nat] [1%nat].
Definition spinY := mkBlock 0x1010 0x1020 [0%nat] [0%nat].
Definition spin := mkChart 0x1000 0x1020 [spinX; spinY].

(** A fan: [A -> B], [A -> C], [A -> E], and [B], [C], [E] all lead to
    [D], whose predecessors the host reports in this order. *)
Definition fanA := mkBlock 0x1000 0x1010 [] [1%nat; 2%nat; 3%nat].
Definition fanB := mkBlock 0x1010 0x1020 [0%nat] [4%nat].
Definition fanC := mkBlock 0x1020 0x1030 [0%nat] [4%nat].
Definition fanE := mkBlock 0x1030 0x1040 [0%nat] [4%nat].
Definition fanD := mkBlock 0x1040 0x1050 [1%nat; 2%nat; 3%nat] [].
Definition fan := mkChart 0x1000 0x1050 [fanA; fanB; fanC; fanE; fanD].
(** The chain [A, M, D] through a middle block [M] of the fan. *)
Definition fan_via (M : BasicBlock) : PathBlock :=
  new_PathBlock fanD (Some (new_PathBlock M (Some (new_PathBlock fanA None)))).
End Samples.

(** * Definitions used in the proofs *)

(** ** Termination of the reverse traversals *)

(** The number of blocks of the chart that start below an address. *)
Definition rank (fc : FlowChart) (s : Z) : nat :=
  length (filter (fun b => start_ea b < s) (blocks fc)).

(** The number of blocks a reverse traversal seeded with [b] yields,
    computed to depth [n]. *)
Fixpoint weight (fc : FlowChart) (n : nat) (b : BasicBlock) : nat :=
  match n with
  | O => 1
  | S n' => S (sum_list_with (weight fc n') (followed_preds fc b))
  end.

Definition total_weight (fc : FlowChart) (nv : list BasicBlock) : nat :=
  sum_list_with (weight fc (S (length (blocks fc)))) nv.

(** The generator has ended after the iterations run: the first [next]
    raised, or the work list is empty and the [while] loop is left. *)
Definition rev_done (r : exn + (list BasicBlock * list BasicBlock)) : Prop :=
  match r with
  | inl _ => True
  | inr (_, non_visited) => non_visited = []
  end.

(** ** Invariants of the path enumeration *)

(** The block a suspended activation was called for. *)
Definition frame_block (fr : frame) : BasicBlock :=
  match fr with
  | FrEntry cur_block => cur_block
  | FrParent cur_block _ _ => cur_block
  | FrCache cur_block _ => cur_block
  end.

(** The start addresses of the blocks of the activations on the stack,
    outermost first. *)
Fixpoint frame_starts (fr : frame) : list Z :=
  match fr with
  | FrEntry cur_block => [start_ea cur_block]
  | FrParent cur_block _ inner => start_ea cur_block :: frame_starts inner
  | FrCache cur_block _ => [start_ea cur_block]
  end.

(** The parents still to be visited are blocks of the chart. *)
Fixpoint frame_rest_ok (fc : FlowChart) (fr : frame) : Prop :=
  match fr with
  | FrParent _ rest inner =>
      Forall (fun b => b ∈ blocks fc) rest /\ frame_rest_ok fc inner
  | _ => True
  end.

(** The stack discipline of [visited]: it is the set [v0] the outermost
    activation was given plus the starts of the activations on the stack,
    which are pairwise different and not in [v0]. *)
Definition stack_inv (fc : FlowChart) (v0 v : gset Z) (fr : frame) : Prop :=
  (v = v0 ∪ list_to_set (frame_starts fr))
  /\ NoDup (frame_starts fr)
  /\ (forall s, s ∈ frame_starts fr -> s ∉ v0)
  /\ frame_rest_ok fc fr.

(** A path for the block keyed [k]: it ends at a block starting at [k] and
    its root is a block of the chart without predecessors. *)
Definition path_ok (fc : FlowChart) (k : Z) (p : PathBlock) : Prop :=
  start_ea (bb p) = k /\ preds fc (root p) = [] /\ root p ∈ blocks fc.

Definition cache_ok (fc : FlowChart) (cache : path_cache_t) : Prop :=
  forall k p, p ∈ cache_get cache k -> path_ok fc k p.

Definition gen_ok (fc : FlowChart) (k : Z) (g : generator) : Prop :=
  match g with
  | GenCreated block => start_ea block = k /\ block ∈ blocks fc
  | GenSuspended visited fr =>
      start_ea (frame_block fr) = k /\ stack_inv fc ∅ visited fr
  | GenFinished => True
  end.

Definition state_ok (fc : FlowChart) (st : fc_state) : Prop :=
  cache_ok fc (_path_cache st)
  /\ forall k g, _gen_cache st !! k = Some g -> gen_ok fc k g.

(** What an activation for block [b], entered with visited set [v0], may
    hand back. *)
Definition post (fc : FlowChart) (v0 : gset Z) (b : BasicBlock)
    (r : gset Z * outcome) : Prop :=
  match r with
  | (v', Yield p fr) =>
      path_ok fc (start_ea b) p /\ frame_block fr = b /\ stack_inv fc v0 v' fr
  | (v', Return) => v' = v0
  | (_, Raise _) => False
  | (_, Diverge) => False
  end.

(** The generator [g] belongs to a call [get_paths(ea)]. *)
Definition gp_for (fc : FlowChart) (ea : Z) (g : gp_gen) : Prop :=
  match g with
  | GpCreated ea' => ea' = ea
  | GpCached block _ => find_block fc ea = Some block
  | GpDrawing block => find_block fc ea = Some block
  | GpFinished => True
  end.

(** What a [next] on a generator for [ea] may report. *)
Definition result_ok (fc : FlowChart) (ea : Z) (r : gp_result) : Prop :=
  match r with
  | GpYield p =>
      exists block, find_block fc ea = Some block
                    /\ path_ok fc (start_ea block) p
  | GpStop => True
  | GpRaise e => e = AttributeError /\ find_block fc ea = None
  | GpDiverge => False
  end.

(** The invariant of a client configuration. *)
Definition config_ok (fc : FlowChart) (c : config) : Prop :=
  state_ok fc c.1 /\ Forall (fun eg => gp_for fc eg.1 eg.2) c.2.

(** What a [get_paths] generator has yielded so far when nothing else
    advanced the block's generator in between. *)
Definition yielded_so_far (st : fc_state) (g : gp_gen) : list PathBlock :=
  match g with
  | GpCached b i => take i (cache_get (_path_cache st) (start_ea b))
  | GpDrawing b => cache_get (_path_cache st) (start_ea b)
  | _ => []
  end.

(** ** The states of the enumeration on a diamond *)

(** In the diamond with entry [A], join [D] and middle blocks [X] (listed
    first among the predecessors of [D]) and [Y]: the chain through a
    middle block [M]. *)
Definition diamond_via (A D M : BasicBlock) : PathBlock :=
  new_PathBlock D (Some (new_PathBlock M (Some (new_PathBlock A None)))).

(** The generator for [D] after its first and after its second path. *)
Definition diamond_gen1 (A X Y D : BasicBlock) : generator :=
  GenSuspended ({[start_ea A]} ∪ ({[start_ea X]} ∪ ({[start_ea D]} ∪ ∅)))
               (FrParent D [Y] (FrParent X [] (FrEntry A))).
Definition diamond_gen2 (A Y D : BasicBlock) : generator :=
  GenSuspended ({[start_ea A]} ∪ ({[start_ea Y]} ∪ ({[start_ea D]} ∪ ∅)))
               (FrParent D [] (FrParent Y [] (FrEntry A))).

(** No path is cached for [A], [X] or [Y]. *)
Definition diamond_below_empty (A X Y : BasicBlock) (cache : path_cache_t)
    : Prop :=
  cache_get cache (start_ea A) = []
  /\ cache_get cache (start_ea X) = []
  /\ cache_get cache (start_ea Y) = [].

(** How far the enumeration for [D] has got: [j] paths are cached (both
    when [j] is [2] or more) and the generator is, in turn, absent, after
    its first path, after its second path, finished. *)
Definition diamond_phase (A X Y D : BasicBlock) (j : nat) (st : fc_state)
    : Prop :=
  diamond_below_empty A X Y (_path_cache st)
  /\ match j with
     | 0%nat => cache_get (_path_cache st) (start_ea D) = []
                /\ _gen_cache st !! start_ea D = None
     | 1%nat => cache_get (_path_cache st) (start_ea D) = [diamond_via A D X]
                /\ _gen_cache st !! start_ea D = Some (diamond_gen1 A X Y D)
     | 2%nat => cache_get (_path_cache st) (start_ea D)
                = [diamond_via A D X; diamond_via A D Y]
                /\ _gen_cache st !! start_ea D = Some (diamond_gen2 A Y D)
     | _ => cache_get (_path_cache st) (start_ea D)
            = [diamond_via A D X; diamond_via A D Y]
            /\ _gen_cache st !! start_ea D = Some GenFinished
     end.

(** * Further definitions: the rest of the module *)

(** ** [dfs_iter_blocks], [bfs_iter_blocks]

    The blocks yielded during the first [n] iterations of the loop the
    [reverse] flag selects. *)
Definition dfs_iter_blocks (fc : FlowChart) (start : option Z) (reverse : bool)
    (n : nat) : exn + list BasicBlock :=
  if reverse then
    match _dfs_reverse fc start n with
    | inl e => inl e
    | inr (out, _) => inr out
    end
  else _dfs fc start n.

Definition bfs_iter_blocks (fc : FlowChart) (start : option Z) (reverse : bool)
    (n : nat) : exn + list BasicBlock :=
  if reverse then
    match _bfs_reverse fc start n with
    | inl e => inl e
    | inr (out, _) => inr out
    end
  else _bfs fc start n.

(** ** [dfs_iter_heads], [bfs_iter_heads]

    The addresses one block contributes: [first] is [_first_block].  In
    reverse the heads of [[start_ea, ea)] are reversed, [ea] being the
    requested address on the first block and the end of the block
    otherwise; forward they are the heads of [[ea, end_ea)], [ea] being the
    requested address on the first block and the start of the block
    otherwise. *)
Definition block_heads (heads : list Z) (reverse : bool) (start : option Z)
    (first : bool) (cur_block : BasicBlock) : list Z :=
  if reverse then
    let ea := if truthy start && first then default 0 start
              else end_ea cur_block in
    rev (Heads heads (start_ea cur_block) ea)
  else
    let ea := if truthy start && first then default 0 start
              else start_ea cur_block in
    Heads heads ea (end_ea cur_block).

(** The body of the outer [for] over the yielded blocks. *)
Fixpoint iter_heads (heads : list Z) (reverse : bool) (start : option Z)
    (first : bool) (bs : list BasicBlock) : list Z :=
  match bs with
  | [] => []
  | cur_block :: bs' =>
      block_heads heads reverse start first cur_block
      ++ iter_heads heads reverse start false bs'
  end.

Definition dfs_iter_heads (heads : list Z) (fc : FlowChart) (start : option Z)
    (reverse : bool) (n : nat) : exn + list Z :=
  match dfs_iter_blocks fc start reverse n with
  | inl e => inl e
  | inr bs => inr (iter_heads heads reverse start true bs)
  end.

Definition bfs_iter_heads (heads : list Z) (fc : FlowChart) (start : option Z)
    (reverse : bool) (n : nat) : exn + list Z :=
  match bfs_iter_blocks fc start reverse n with
  | inl e => inl e
  | inr bs => inr (iter_heads heads reverse start true bs)
  end.

(** * Further definitions used in the proofs *)

(** ** The traversals *)

(** The blocks a reverse traversal seeded with [b] is to yield, computed
    to depth [n]: [b], then the same for each followed predecessor in
    turn. *)
Fixpoint rev_tree (fc : FlowChart) (n : nat) (b : BasicBlock)
    : list BasicBlock :=
  match n with
  | O => [b]
  | S n' => b :: (followed_preds fc b ≫= rev_tree fc n')
  end.

Definition rev_all (fc : FlowChart) (nv : list BasicBlock)
    : list BasicBlock :=
  nv ≫= rev_tree fc (S (length (blocks fc))).

(** The state of the forward loop after [n] iterations (or when the loop
    was left before). *)
Fixpoint fwd_iter (dfs : bool) (fc : FlowChart) (start : option Z) (n : nat)
    (s : fwd_state) : fwd_state :=
  match n with
  | O => s
  | S n' =>
      match fwd_step dfs fc start s with
      | None => s
      | Some (_, s') => fwd_iter dfs fc start n' s'
      end
  end.

(** The blocks that can be reached from the entry block [self[0]] along
    successor edges. *)
Inductive reach (fc : FlowChart) : BasicBlock -> Prop :=
| reach_entry b0 : getitem fc 0 = Some b0 -> reach fc b0
| reach_succ a b : reach fc a -> b ∈ succs fc a -> reach fc b.

(** The greatest number of successors the host reports for a block. *)
Definition max_succs (fc : FlowChart) : nat :=
  foldr (fun b m => Nat.max (length (succ_ids b)) m) 0%nat (blocks fc).

(** The start addresses of the chart. *)
Definition starts (fc : FlowChart) : gset Z :=
  list_to_set (start_ea <$> blocks fc).

(** A bound on the iterations the forward loop still makes: each one
    either drops an entry of the work list or marks a new start address
    and adds at most [max_succs] entries. *)
Definition fwd_measure (fc : FlowChart) (s : fwd_state) : nat :=
  (length (fwd_non_visited s)
   + (max_succs fc + 2) * size (starts fc ∖ fwd_visited s))%nat.

(** What holds of the loop state once the blocks [P] have been taken off
    the work list and marked: the work list holds reachable blocks only,
    and every successor of a marked block, like the entry block, is marked
    or waits on the work list. *)
Definition fwd_inv (fc : FlowChart) (P : list BasicBlock) (s : fwd_state)
    : Prop :=
  fwd_visited s = list_to_set (start_ea <$> P)
  /\ Forall (reach fc) P
  /\ Forall (reach fc) (fwd_non_visited s)
  /\ (forall p c, p ∈ P -> c ∈ succs fc p ->
        start_ea c ∈ fwd_visited s \/ c ∈ fwd_non_visited s)
  /\ (forall b0, getitem fc 0 = Some b0 ->
        start_ea b0 ∈ fwd_visited s \/ b0 ∈ fwd_non_visited s).

(** A number of iterations after which the forward loop has been left. *)
Definition fwd_bound (fc : FlowChart) : nat :=
  (1 + (max_succs fc + 2) * size (starts fc))%nat.

(** The part of a list of blocks from the first block that contains [ea]
    on. *)
Fixpoint from_first (ea : Z) (l : list BasicBlock) : list BasicBlock :=
  match l with
  | [] => []
  | b :: l' => if contains b ea then b :: l' else from_first ea l'
  end.

(** Blocks of the chart do not overlap: a block that starts below another
    one ends where that one starts, or before. *)
Definition no_overlap (fc : FlowChart) : Prop :=
  forall a b, a ∈ blocks fc -> b ∈ blocks fc ->
    start_ea a < start_ea b -> end_ea a <= start_ea b.

(** Blocks of the chart are told apart by their start address, as
    [CustomBasicBlock.__eq__] and [__hash__] assume. *)
Definition distinct_starts (fc : FlowChart) : Prop :=
  NoDup (start_ea <$> blocks fc).

(** ** [paths_to_ea] *)

(** The loop [for block in cur_block.succs()] of [_paths_to_ea], with the
    recursive call as a parameter. *)
Fixpoint traverse_with (rec : BasicBlock -> option (list (list BasicBlock)))
    (visited : gset Z) (next : list BasicBlock)
    : option (list (list BasicBlock)) :=
  match next with
  | [] => Some []
  | block :: next' =>
      if bool_decide (start_ea block ∈ visited)
      then traverse_with rec visited next'
      else
        match rec block, traverse_with rec visited next' with
        | Some here, Some later => Some (here ++ later)
        | _, _ => None
        end
  end.

(** Each block of the list is a successor of the one before it. *)
Fixpoint linked (fc : FlowChart) (p : list BasicBlock) : Prop :=
  match p with
  | a :: (b :: _) as t => b ∈ succs fc a /\ linked fc t
  | _ => True
  end.

(** A path from [b0] along successor edges to a block that contains [ea],
    on which no start address occurs twice. *)
Definition simple_path_to (fc : FlowChart) (b0 : BasicBlock) (ea : Z)
    (p : list BasicBlock) : Prop :=
  head p = Some b0
  /\ linked fc p
  /\ (exists b, last p = Some b /\ contains b ea = true)
  /\ NoDup (start_ea <$> p).

(** ** The chains [get_paths] yields *)

(** A chain of path blocks that is a path of the graph read backwards:
    every block is a block of the chart, every [prev] link leads to (a block
    that starts where) one of the block's predecessors (starts), at a
    strictly lower address, and the last block has no predecessors. *)
Fixpoint path_chain (fc : FlowChart) (p : PathBlock) : Prop :=
  bb p ∈ blocks fc
  /\ match prev p with
     | None => preds fc (bb p) = []
     | Some q =>
         (exists b', b' ∈ preds fc (bb p) /\ start_ea b' = start_ea (bb q))
         /\ start_ea (bb q) < start_ea (bb p)
         /\ path_chain fc q
     end.

(** The same for the suspended activations of [_build_path]: each inner
    activation works on a predecessor of the block of its caller, at a
    strictly lower address, and the parents still to visit are
    predecessors. *)
Fixpoint frame_chain (fc : FlowChart) (fr : frame) : Prop :=
  match fr with
  | FrParent cur rest inner =>
      cur ∈ blocks fc
      /\ Forall (fun b => b ∈ preds fc cur) rest
      /\ (exists b', b' ∈ preds fc cur
                     /\ start_ea b' = start_ea (frame_block inner))
      /\ start_ea (frame_block inner) < start_ea cur
      /\ frame_chain fc inner
  | _ => True
  end.

Definition chain_post (fc : FlowChart) (r : gset Z * outcome) : Prop :=
  match r with
  | (_, Yield p fr) => path_chain fc p /\ frame_chain fc fr
  | _ => True
  end.

Definition cache_chain (fc : FlowChart) (cache : path_cache_t) : Prop :=
  forall k p, p ∈ cache_get cache k -> path_chain fc p.

Definition gen_chain (fc : FlowChart) (g : generator) : Prop :=
  match g with
  | GenSuspended _ fr => frame_chain fc fr
  | _ => True
  end.

Definition state_chain (fc : FlowChart) (st : fc_state) : Prop :=
  cache_chain fc (_path_cache st)
  /\ forall k g, _gen_cache st !! k = Some g -> gen_chain fc g.

(** ** What [get_paths] enumerates *)

(** [PathBlock(cur_block, _p_block)] *)
Definition wrap (cur_block : BasicBlock) (q : PathBlock) : PathBlock :=
  new_PathBlock cur_block (Some q).

(** The paths through the parents [rest] of [cur], in order: the parents
    that start below [cur] are followed, the others skipped. *)
Fixpoint via_parents (rec : BasicBlock -> list PathBlock) (cur : BasicBlock)
    (rest : list BasicBlock) : list PathBlock :=
  match rest with
  | [] => []
  | block :: rest' =>
      if bool_decide (start_ea block < start_ea cur)
      then (wrap cur <$> rec block) ++ via_parents rec cur rest'
      else via_parents rec cur rest'
  end.

(** All paths to [b], computed to depth [fuel]: the chains that lead from
    [b] over predecessors at strictly lower addresses to a block without
    predecessors, depth first in the order of the predecessors. *)
Fixpoint all_paths (fc : FlowChart) (fuel : nat) (b : BasicBlock)
    : list PathBlock :=
  match fuel with
  | O => []
  | S fuel' =>
      if (length (preds fc b) =? 0)%nat then [new_PathBlock b None]
      else via_parents (all_paths fc fuel') b (preds fc b)
  end.
Arguments all_paths : simpl never.

(** The paths a suspended activation has still to yield. *)
Fixpoint remaining (fc : FlowChart) (fr : frame) : list PathBlock :=
  match fr with
  | FrEntry _ => []
  | FrParent cur rest inner =>
      (wrap cur <$> remaining fc inner)
      ++ via_parents (all_paths fc (depth_bound fc)) cur rest
  | FrCache _ _ => []
  end.

(** The activations on the stack work on blocks at ever lower addresses,
    below everything in the visited set [v0] they were entered with; none
    of them iterates over a cached list. *)
Fixpoint frame_low (fc : FlowChart) (v0 : gset Z) (fr : frame) : Prop :=
  match fr with
  | FrEntry cur => forall s, s ∈ v0 -> start_ea cur < s
  | FrParent cur rest inner =>
      (forall s, s ∈ v0 -> start_ea cur < s)
      /\ Forall (fun b => b ∈ blocks fc) rest
      /\ frame_low fc ({[start_ea cur]} ∪ v0) inner
  | FrCache _ _ => False
  end.

(** What running an activation for [b] gives when [v0] is the visited set
    it was entered with and [ps] are the paths it has still to yield: it
    returns, with [v0] restored, when [ps] is empty, and yields the first
    of [ps] otherwise, suspended with the rest to yield. *)
Definition enumerates (fc : FlowChart) (v0 : gset Z) (b : BasicBlock)
    (ps : list PathBlock) (r : gset Z * outcome) : Prop :=
  match ps with
  | [] => r = (v0, Return)
  | p :: ps' =>
      exists fr,
        r = (v0 ∪ list_to_set (frame_starts fr), Yield p fr)
        /\ remaining fc fr = ps' /\ frame_low fc v0 fr /\ frame_block fr = b
  end.

(** A chain as [_build_path] makes it on a new chart: no context is
    attached, every [prev] link leads to a predecessor at a strictly lower
    address, and the last block has no predecessors. *)
Fixpoint descending_chain (fc : FlowChart) (p : PathBlock) : Prop :=
  _context p = None /\ _context_ea p = None
  /\ match prev p with
     | None => preds fc (bb p) = []
     | Some q =>
         bb q ∈ preds fc (bb p)
         /\ start_ea (bb q) < start_ea (bb p)
         /\ descending_chain fc q
     end.

(** The state of the chart while the paths of [b] are drawn on a chart
    that was new: [got] are the paths yielded and cached, [rem] the ones
    the block's generator has still to yield, and nothing else is cached. *)
Definition drawing (fc : FlowChart) (b : BasicBlock)
    (got rem : list PathBlock) (st : fc_state) : Prop :=
  cache_get (_path_cache st) (start_ea b) = got
  /\ (forall key, key <> start_ea b -> cache_get (_path_cache st) key = [])
  /\ ((_gen_cache st !! start_ea b = Some (GenCreated b)
       /\ got = [] /\ rem = all_paths fc (depth_bound fc) b)
      \/ (exists fr,
            _gen_cache st !! start_ea b
            = Some (GenSuspended (list_to_set (frame_starts fr)) fr)
            /\ remaining fc fr = rem /\ frame_low fc ∅ fr
            /\ frame_block fr = b)
      \/ (_gen_cache st !! start_ea b = Some GenFinished /\ rem = [])).

(** ** What [cpu_context] computes *)

(** The instruction heads are listed by ascending address, as the host
    yields them. *)
Fixpoint ascending (l : list Z) : Prop :=
  match l with
  | [] => True
  | h :: l' => Forall (fun x => h < x) l' /\ ascending l'
  end.

(** The blocks of a path, from its root to the block itself, and the ones
    before the block. *)
Fixpoint path_blocks (p : PathBlock) : list BasicBlock :=
  match prev p with
  | Some q => path_blocks q ++ [bb p]
  | None => [bb p]
  end.

Definition ancestors (p : PathBlock) : list BasicBlock :=
  match prev p with
  | Some q => path_blocks q
  | None => []
  end.

(** The context objects the blocks of a path hold. *)
Fixpoint refs (p : PathBlock) : list nat :=
  match _context p with Some c => [c] | None => [] end
  ++ match prev p with Some q => refs q | None => [] end.

Section Replay.
Variable context : Type.
Variable new_context : context.
Variable execute : context -> Z -> context.
Variable heads : list Z.
Variable BADADDR : Z.

(** All instructions of the given blocks, block after block. *)
Definition all_heads (bs : list BasicBlock) : list Z :=
  concat ((fun b => Heads heads (start_ea b) (end_ea b)) <$> bs).

(** A new context on which the instructions have been executed in turn. *)
Definition replay (ips : list Z) : context := foldl execute new_context ips.

(** The context of a path block filled to [e]: every instruction of the
    blocks before it on the path, then the block's own instructions below
    [e]. *)
Definition expected (p : PathBlock) (e : Z) : context :=
  replay (all_heads (ancestors p) ++ Heads heads (start_ea (bb p)) e).

(** The contexts held along a path are what they should be: a block
    either holds nothing, or an object of the store whose value is the
    expected one for the address it is filled to, which is not below the
    start of the block. *)
Fixpoint coherent (σ : emu_state context) (p : PathBlock) : Prop :=
  match _context p, _context_ea p with
  | Some c, Some e0 =>
      (c < length (objects context σ))%nat
      /\ start_ea (bb p) <= e0
      /\ deref context new_context σ c = expected p e0
  | None, None => True
  | _, _ => False
  end
  /\ match prev p with
     | Some q => coherent σ q
     | None => True
     end.

(** Every block of the path ends at or after its start, and starts at or
    below [BADADDR]. *)
Definition path_bounds (p : PathBlock) : Prop :=
  Forall (fun b => start_ea b <= end_ea b /\ start_ea b <= BADADDR)
         (path_blocks p).

(** What a call returns: a new object holding the expected value, with
    the path, over the same blocks, left coherent. *)
Definition replays (p : PathBlock) (ea : option Z) (σ : emu_state context)
    : Prop :=
  exists r p' σ',
    cpu_context context new_context execute heads BADADDR p ea σ
    = inr (Some r, p', σ')
    /\ deref context new_context σ' r
       = expected p (end_of heads BADADDR p ea)
    /\ path_blocks p' = path_blocks p
    /\ coherent σ' p' /\ NoDup (refs p')
    /\ (r < length (objects context σ'))%nat /\ (r ∉ refs p').
End Replay.

(** ** Charts laid out in address order *)

(** The host reports every edge at both of its ends; every edge leads to
    a higher address; and [b0] is the one block without predecessors. *)
Definition edges_agree (fc : FlowChart) : Prop :=
  forall a c, a ∈ blocks fc -> c ∈ blocks fc ->
    (c ∈ succs fc a <-> a ∈ preds fc c).

Definition edges_ascend (fc : FlowChart) : Prop :=
  forall a c, c ∈ blocks fc -> a ∈ preds fc c -> start_ea a < start_ea c.

Definition only_entry (fc : FlowChart) (b0 : BasicBlock) : Prop :=
  forall c, c ∈ blocks fc -> (preds fc c = [] <-> c = b0).

(** * Properties *)

(** ** Sorting keeps the elements *)

Lemma elem_of_insert_desc x y l : y ∈ insert_desc x l <-> y = x \/ y ∈ l.
Proof.
  induction l as [|z l IH]; simpl.
  - set_solver.
  - destruct (start_ea z <=? start_ea x); set_solver.
Qed.

Lemma elem_of_sorted_desc y l : y ∈ sorted_desc l <-> y ∈ l.
Proof.
  induction l as [|x l IH]; simpl; [done|].
  rewrite elem_of_insert_desc. set_solver.
Qed.

Lemma elem_of_insert_asc x y l : y ∈ insert_asc x l <-> y = x \/ y ∈ l.
Proof.
  induction l as [|z l IH]; simpl.
  - set_solver.
  - destruct (start_ea x <=? start_ea z); set_solver.
Qed.

Lemma elem_of_sorted_asc y l : y ∈ sorted_asc l <-> y ∈ l.
Proof.
  induction l as [|x l IH]; simpl; [done|].
  rewrite elem_of_insert_asc. set_solver.
Qed.

(** The last element of a descending sort has the least key. *)
Lemma insert_desc_last x l b :
  last (insert_desc x l) = Some b ->
  (forall m, last l = Some m -> forall y, y ∈ l -> start_ea m <= start_ea y) ->
  forall y, y ∈ insert_desc x l -> start_ea b <= start_ea y.
Proof.
  revert b. induction l as [|z l IH]; intros b Hlast Hl y Hy; simpl in *.
  - apply list_elem_of_singleton in Hy. by simplify_eq.
  - destruct (start_ea z <=? start_ea x) eqn:E.
    + apply Z.leb_le in E.
      assert (last (z :: l) = Some b) as Hb by (by destruct l).
      specialize (Hl b Hb).
      apply elem_of_cons in Hy as [->|Hy]; [|by apply Hl].
      trans (start_ea z); [apply Hl; left|done].
    + apply Z.leb_gt in E.
      destruct l as [|w l].
      * simpl in *. simplify_eq. set_solver by lia.
      * assert (last (insert_desc x (w :: l)) = Some b) as Hb.
        { simpl in Hlast. simpl. destruct (start_ea w <=? start_ea x); done. }
        assert (forall m, last (w :: l) = Some m ->
                  forall y, y ∈ w :: l -> start_ea m <= start_ea y) as Hl'.
        { intros m Hm y' Hy'. apply Hl; [done|by right]. }
        specialize (IH b Hb Hl').
        apply elem_of_cons in Hy as [->|Hy]; [|by apply IH].
        assert (exists m, last (w :: l) = Some m) as [m Hm].
        { apply last_is_Some. done. }
        trans (start_ea m).
        -- apply IH. apply elem_of_insert_desc. right.
           apply last_Some_elem_of in Hm. done.
        -- apply Hl; [done|left].
Qed.

Lemma sorted_desc_last l b :
  last (sorted_desc l) = Some b ->
  forall y, y ∈ l -> start_ea b <= start_ea y.
Proof.
  revert b. induction l as [|x l IH]; intros b Hb y Hy; [by inversion Hy|].
  simpl in Hb. apply elem_of_sorted_desc in Hy.
  eapply insert_desc_last; [exact Hb| |exact Hy].
  intros m Hm y' Hy'. apply (IH m Hm). by apply elem_of_sorted_desc.
Qed.

(** Without a start address the reverse traversals are seeded with a block
    of least start address. *)
Lemma rev_seed_least fc b :
  rev_seed fc None = inr [b] ->
  b ∈ blocks fc /\ forall y, y ∈ blocks fc -> start_ea b <= start_ea y.
Proof.
  unfold rev_seed, last_slice. simpl.
  destruct (last (sorted_desc (blocks fc))) as [m|] eqn:E; [|done].
  intros [= ->]. split.
  - apply elem_of_sorted_desc. by apply last_Some_elem_of.
  - by apply sorted_desc_last.
Qed.

(** ** Reverse traversal *)

(** Every predecessor the host yields is a block of the chart. *)
Lemma preds_in_chart fc b p : p ∈ preds fc b -> p ∈ blocks fc.
Proof.
  unfold preds, getitem. intros H.
  apply list_elem_of_omap in H as (i & _ & Hi).
  by apply list_elem_of_lookup_2 in Hi.
Qed.

Lemma followed_preds_spec fc cur p :
  p ∈ followed_preds fc cur <-> p ∈ preds fc cur /\ start_ea p < start_ea cur.
Proof.
  unfold followed_preds. rewrite list_elem_of_filter, elem_of_sorted_desc. tauto.
Qed.

Lemma rank_le fc s : (rank fc s <= length (blocks fc))%nat.
Proof. apply length_filter. Qed.

Lemma filter_length_lt (l : list BasicBlock) (s t : Z) x :
  x ∈ l -> s <= start_ea x -> start_ea x < t ->
  (length (filter (fun b => (start_ea b < s)%Z) l)
   < length (filter (fun b => (start_ea b < t)%Z) l))%nat.
Proof.
  intros Hx Hs Ht.
  assert (forall l : list BasicBlock,
    (length (filter (fun b => (start_ea b < s)%Z) l)
     <= length (filter (fun b => (start_ea b < t)%Z) l))%nat) as Hle.
  { clear -Hs Ht. induction l as [|y l IH]; simpl; [lia|].
    rewrite !filter_cons. repeat case_decide; simpl; lia. }
  induction l as [|y l IH]; [by inversion Hx|].
  rewrite !filter_cons.
  apply elem_of_cons in Hx as [<-|Hx].
  - specialize (Hle l). repeat case_decide; simpl; lia.
  - specialize (IH Hx). repeat case_decide; simpl; lia.
Qed.

Lemma rank_lt fc p s :
  p ∈ blocks fc -> start_ea p < s -> (rank fc (start_ea p) < rank fc s)%nat.
Proof. intros. unfold rank. eapply filter_length_lt; eauto. lia. Qed.

Lemma sum_list_with_ext_in {A} (f g : A -> nat) l :
  (forall x, x ∈ l -> f x = g x) -> sum_list_with f l = sum_list_with g l.
Proof.
  induction l as [|x l IH]; intros H; simpl; [done|].
  rewrite (H x) by left. rewrite IH; [done|]. intros. apply H. by right.
Qed.

Lemma weight_stable fc n m b :
  (rank fc (start_ea b) < n)%nat -> (rank fc (start_ea b) < m)%nat ->
  weight fc n b = weight fc m b.
Proof.
  revert m b. induction n as [|n IH]; intros [|m] b Hn Hm; try lia.
  simpl. f_equal. apply sum_list_with_ext_in. intros p Hp.
  apply followed_preds_spec in Hp as [Hp Hlt].
  apply preds_in_chart in Hp.
  pose proof (rank_lt fc p _ Hp Hlt). apply IH; lia.
Qed.

Lemma total_weight_app fc l1 l2 :
  total_weight fc (l1 ++ l2) = (total_weight fc l1 + total_weight fc l2)%nat.
Proof. apply sum_list_with_app. Qed.

Lemma total_weight_cons fc cur rest :
  total_weight fc (cur :: rest)
  = S (total_weight fc (followed_preds fc cur) + total_weight fc rest).
Proof.
  unfold total_weight. set (N := length (blocks fc)).
  change (sum_list_with (weight fc (S N)) (cur :: rest))
    with (weight fc (S N) cur + sum_list_with (weight fc (S N)) rest)%nat.
  change (weight fc (S N) cur)
    with (S (sum_list_with (weight fc N) (followed_preds fc cur))).
  rewrite (sum_list_with_ext_in (weight fc N) (weight fc (S N))); [lia|].
  intros p Hp. apply followed_preds_spec in Hp as [Hp Hlt].
  apply preds_in_chart in Hp.
  pose proof (rank_lt fc p _ Hp Hlt).
  pose proof (rank_le fc (start_ea cur)).
  apply weight_stable; lia.
Qed.

(** Each iteration lowers the total weight of the work list by one, so the
    work list is empty after that many iterations. *)
Lemma rev_run_terminates dfs fc n nv :
  (total_weight fc nv <= n)%nat -> (rev_run dfs fc n nv).2 = [].
Proof.
  revert nv. induction n as [|n IH]; intros nv Hw.
  - destruct nv as [|cur rest]; [done|].
    rewrite total_weight_cons in Hw. lia.
  - destruct nv as [|cur rest]; [done|]. simpl.
    rewrite total_weight_cons in Hw.
    set (nv' := if dfs then _ else _).
    assert (total_weight fc nv' <= n)%nat as Hn.
    { subst nv'. destruct dfs; rewrite total_weight_app; lia. }
    specialize (IH nv' Hn). by destruct (rev_run dfs fc n nv').
Qed.

(** A predecessor that starts above the block is not followed. *)
Lemma followed_preds_back_edge fc b p :
  preds fc b = [p] -> start_ea b < start_ea p -> followed_preds fc b = [].
Proof.
  intros Hp Hlt. unfold followed_preds. rewrite Hp. simpl.
  rewrite filter_cons. case_decide; [lia|done].
Qed.

(** C8: reverse traversal (depth-first and breadth-first) from a block
    whose only predecessor starts at a higher address yields that block
    alone and stops; and on every chart, for every start argument, either
    reverse traversal has ended after finitely many iterations of its
    loop, because a predecessor is only followed when it starts strictly
    below the current block. *)
Theorem reverse_traversal_terminates :
  (forall fc start b p n,
     rev_seed fc start = inr [b] ->
     preds fc b = [p] -> start_ea b < start_ea p ->
     _dfs_reverse fc start (S n) = inr ([b], [])
     /\ _bfs_reverse fc start (S n) = inr ([b], []))
  /\ (forall fc start,
        exists n, forall m, (n <= m)%nat ->
          rev_done (_dfs_reverse fc start m)
          /\ rev_done (_bfs_reverse fc start m)).
Proof.
  split.
  - intros fc start b p n Hseed Hp Hlt.
    unfold _dfs_reverse, _bfs_reverse. rewrite Hseed. simpl.
    rewrite (followed_preds_back_edge fc b p Hp Hlt). simpl.
    destruct n; done.
  - intros fc start. unfold _dfs_reverse, _bfs_reverse.
    destruct (rev_seed fc start) as [e|nv]; [by exists 0%nat|].
    exists (total_weight fc nv). intros m Hm.
    pose proof (rev_run_terminates true fc m nv Hm) as Hd.
    pose proof (rev_run_terminates false fc m nv Hm) as Hb.
    split; simpl.
    + by destruct (rev_run true fc m nv).
    + by destruct (rev_run false fc m nv).
Qed.

Lemma reverse_traversal_terminates_witness :
  _dfs_reverse Samples.spin (Some 0x1004) 1 = inr ([Samples.spinX], [])
  /\ _bfs_reverse Samples.spin (Some 0x1004) 1 = inr ([Samples.spinX], []).
Proof.
  apply (proj1 reverse_traversal_terminates Samples.spin (Some 0x1004)
           Samples.spinX Samples.spinY 0%nat); [reflexivity|reflexivity|].
  simpl. lia.
Defined.

(** C3 (the code differs): with no start address both reverse traversals
    sort the blocks by descending start address and then take the LAST
    element, which has the least start address.  On the chart [A -> B] the
    seed is [A], not the block [B] of greatest start address, and the
    traversal yields [A] alone. *)
Theorem reverse_seed_without_start_is_lowest_block :
  start_ea Samples.lineA < start_ea Samples.lineB
  /\ rev_seed Samples.line None = inr [Samples.lineA]
  /\ _dfs_reverse Samples.line None 4 = inr ([Samples.lineA], [])
  /\ _bfs_reverse Samples.line None 4 = inr ([Samples.lineA], []).
Proof. split; [simpl; lia|]. repeat split; reflexivity. Qed.

(** ** Forward traversal *)

Lemma fwd_step_visited dfs fc start s o s' :
  fwd_step dfs fc start s = Some (o, s') ->
  (fwd_visited s ⊆ fwd_visited s')
  /\ forall b, o = Some b ->
       (start_ea b ∉ fwd_visited s) /\ (start_ea b ∈ fwd_visited s').
Proof.
  unfold fwd_step. destruct (fwd_non_visited s) as [|cur rest]; [done|].
  case_bool_decide as Hin.
  - intros [= <- <-]. simpl. split; [done|]. intros b [=].
  - intros [= <- <-]. simpl. split; [set_solver|].
    intros b Hb. repeat case_match; simplify_eq; set_solver.
Qed.

(** Whatever the forward loop yields from a state on was not yet in its
    visited set, and no start address is yielded twice. *)
Lemma fwd_run_nodup dfs fc start n s :
  NoDup (start_ea <$> fwd_run dfs fc start n s)
  /\ forall b, b ∈ fwd_run dfs fc start n s -> start_ea b ∉ fwd_visited s.
Proof.
  revert s. induction n as [|n IH]; intros s; simpl.
  - split; [constructor|]. intros b Hb. by inversion Hb.
  - destruct (fwd_step dfs fc start s) as [[[b|] s']|] eqn:Hstep.
    + destruct (fwd_step_visited _ _ _ _ _ _ Hstep) as [Hsub Hb].
      destruct (Hb b eq_refl) as [Hnew Hold].
      destruct (IH s') as [Hnd Hfresh]. split.
      * rewrite fmap_cons. constructor; [|done].
        intros Hin. apply list_elem_of_fmap in Hin as (b' & Heq & Hb').
        apply Hfresh in Hb'. congruence.
      * intros b' Hb'. apply elem_of_cons in Hb' as [->|Hb']; [done|].
        apply Hfresh in Hb'. set_solver.
    + destruct (fwd_step_visited _ _ _ _ _ _ Hstep) as [Hsub _].
      destruct (IH s') as [Hnd Hfresh]. split; [done|].
      intros b' Hb'. apply Hfresh in Hb'. set_solver.
    + split; [constructor|]. intros b Hb. by inversion Hb.
Qed.

(** C10: the reverse traversals keep no visited set: on the diamond laid
    out in address order, started in [D], the depth-first and the
    breadth-first reverse traversal both run to completion and yield the
    entry block twice; the forward traversals, which keep a visited set,
    never yield two blocks with the same start address, however far they
    are run. *)
Theorem reverse_traversal_repeats_blocks :
  (exists out,
     _dfs_reverse Samples.diamond0 (Some 0x1030) 8 = inr (out, [])
     /\ ~ NoDup (start_ea <$> out))
  /\ (exists out,
        _bfs_reverse Samples.diamond0 (Some 0x1030) 8 = inr (out, [])
        /\ ~ NoDup (start_ea <$> out))
  /\ (forall fc start n out,
        _dfs fc start n = inr out \/ _bfs fc start n = inr out ->
        NoDup (start_ea <$> out)).
Proof.
  split; [|split].
  - eexists. split; [reflexivity|]. simpl. intros H.
    apply NoDup_cons in H as [_ H]. apply NoDup_cons in H as [_ H].
    apply NoDup_cons in H as [H _]. apply H. set_solver.
  - eexists. split; [reflexivity|]. simpl. intros H.
    apply NoDup_cons in H as [_ H]. apply NoDup_cons in H as [_ H].
    apply NoDup_cons in H as [_ H]. apply NoDup_cons in H as [H _].
    apply H. set_solver.
  - intros fc start n out. unfold _dfs, _bfs.
    destruct (fwd_init fc start) as [e|s]; [by intros [[=]|[=]]|].
    intros [[= <-]|[= <-]]; apply fwd_run_nodup.
Qed.

Lemma reverse_traversal_repeats_blocks_witness :
  NoDup (start_ea <$> [Samples.dA 0x1000 0x1010; Samples.dB 0x1010 0x1020;
                       Samples.dD true 0x1030 0x1040; Samples.dC 0x1020 0x1030]).
Proof.
  apply (proj2 (proj2 reverse_traversal_repeats_blocks)
           Samples.diamond0 None 9%nat).
  left. reflexivity.
Defined.

(** ** Addresses outside the function *)

Lemma find_block_None fc ea :
  blocks_in_bounds fc -> ~ (f_start_ea fc <= ea < f_end_ea fc) ->
  find_block fc ea = None.
Proof.
  unfold blocks_in_bounds, find_block. intros Hb Hea.
  induction Hb as [|b l [Hs He] _ IH]; simpl; [done|].
  unfold contains at 1.
  destruct (start_ea b <=? ea) eqn:E1; destruct (ea <? end_ea b) eqn:E2;
    simpl; try apply IH.
  apply Z.leb_le in E1. apply Z.ltb_lt in E2. lia.
Qed.

(** With no block containing the address, the first [next] raises and
    leaves both caches as they were. *)
Lemma get_paths_no_block fc st ea n :
  find_block fc ea = None ->
  get_paths fc st ea (S n) = ([], Some (GpRaise AttributeError), st, GpFinished).
Proof. intros H. unfold get_paths. simpl. by rewrite H. Qed.

(** C2 (what the code does): [paths_to_ea] raises [ValueError] for every
    address outside the bounds of the function, but [get_paths] makes no
    such check.  When every block of the chart lies inside the bounds,
    [get_paths] for an address outside them does fail on its first [next],
    before any path is built and with both caches untouched, yet only by
    accident: [find_block] returns [None] and reading [start_ea] of it
    raises [AttributeError], not an out-of-range error. *)
Theorem get_paths_outside_function fc st ea n :
  blocks_in_bounds fc ->
  ~ (f_start_ea fc <= ea < f_end_ea fc) ->
  get_paths fc st ea (S n) = ([], Some (GpRaise AttributeError), st, GpFinished)
  /\ paths_to_ea fc ea = inl ValueError.
Proof.
  intros Hb Hea. split.
  - apply get_paths_no_block. by apply find_block_None.
  - unfold paths_to_ea.
    destruct (f_start_ea fc <=? ea) eqn:E1; destruct (ea <? f_end_ea fc) eqn:E2;
      simpl; try done.
    apply Z.leb_le in E1. apply Z.ltb_lt in E2. lia.
Qed.

Lemma get_paths_outside_function_witness :
  get_paths Samples.line fresh_state 0x1020 1
  = ([], Some (GpRaise AttributeError), fresh_state, GpFinished)
  /\ paths_to_ea Samples.line 0x1020 = inl ValueError.
Proof.
  apply (get_paths_outside_function Samples.line fresh_state 0x1020 0%nat).
  - repeat constructor; simpl; lia.
  - simpl. lia.
Defined.

(** C2, the failing input: [get_paths] makes no bounds check.  For an
    address in a block that lies outside [[f.start_ea, f.end_ea)] (a tail
    chunk) it raises nothing and yields a path, while [paths_to_ea] raises
    [ValueError] for the same address. *)
Lemma get_paths_outside_function_counterexample :
  ~ (f_start_ea Samples.tail <= 0x2004 < f_end_ea Samples.tail)
  /\ paths_to_ea Samples.tail 0x2004 = inl ValueError
  /\ exists p st g,
       get_paths Samples.tail fresh_state 0x2004 1 = ([p], None, st, g)
       /\ chain p = [0x1000; 0x2000].
Proof.
  split; [simpl; lia|]. split; [reflexivity|].
  eexists _, _, _. split; reflexivity.
Qed.

(** ** Replay of emulation state *)

Lemma PathBlock_induction (P : PathBlock -> Prop) :
  (forall b c e, P (mkPath b None c e)) ->
  (forall b q c e, P q -> P (mkPath b (Some q) c e)) ->
  forall p, P p.
Proof.
  intros H0 H1. fix IH 1. intros [b [q|] c e].
  - apply H1, IH.
  - apply H0.
Qed.

Lemma wf_path_mono n m p : (n <= m)%nat -> wf_path n p -> wf_path m p.
Proof.
  intros Hnm. induction p as [b c e|b q c e IH] using PathBlock_induction;
    simpl; intros [H1 H2]; (split; [destruct c, e; try done; lia|]); auto.
Qed.

Section EmulationFacts.
Context {context : Type} (new_context : context)
        (execute : context -> Z -> context)
        (heads : list Z) (BADADDR : Z).

Local Abbreviation nh := (next_head heads BADADDR).
Local Abbreviation Hds := (Heads heads).
Local Abbreviation drf := (deref context new_context).
Local Abbreviation fil := (fill context new_context execute).
Local Abbreviation cpu :=
  (cpu_context context new_context execute heads BADADDR).
Local Abbreviation emu := (emu_state context).
Local Abbreviation objs := (objects context).
Local Abbreviation log := (applied context).
Local Abbreviation eof := (end_of heads BADADDR).
Local Abbreviation base0 := (base context new_context execute heads BADADDR).
Local Abbreviation returns :=
  (returns_copy context new_context execute heads BADADDR).

Lemma next_head_le ea : nh ea <= BADADDR.
Proof.
  unfold next_head. induction heads as [|h l IH]; simpl; [lia|].
  destruct (ea <? h) eqn:E1; simpl; [|done].
  destruct (h <? foldr _ BADADDR l) eqn:E2; [|done].
  apply Z.ltb_lt in E2. lia.
Qed.

Lemma next_head_above ea : nh ea = BADADDR \/ ea < nh ea.
Proof.
  unfold next_head. induction heads as [|h l IH]; simpl; [by left|].
  destruct (ea <? h) eqn:E1; simpl; [|done].
  destruct (h <? foldr _ BADADDR l) eqn:E2; [|done].
  apply Z.ltb_lt in E1. by right.
Qed.

Lemma next_head_mono a1 a2 : a1 <= a2 -> nh a1 <= nh a2.
Proof.
  intros Ha. unfold next_head.
  induction heads as [|h l IH]; simpl; [lia|].
  repeat match goal with
  | |- context [(?x <? ?y)] => destruct (Z.ltb_spec x y); simpl
  end; lia.
Qed.

Lemma Heads_empty e : Hds e e = [].
Proof.
  unfold Heads. induction heads as [|h l IH]; [done|].
  rewrite filter_cons. case_decide; [lia|done].
Qed.

Lemma Heads_length_split s m e :
  s <= m <= e ->
  (length (Hds s m) + length (Hds m e))%nat = length (Hds s e).
Proof.
  intros H. unfold Heads. induction heads as [|h l IH]; [done|].
  rewrite !filter_cons. repeat case_decide; simpl; lia.
Qed.

Lemma deref_alloc_old (σ : emu) v c :
  (c < length (objs σ))%nat ->
  drf (alloc context v σ).2 c = drf σ c.
Proof. intros H. unfold deref. simpl. by rewrite lookup_app_l. Qed.

Lemma deref_alloc_new (σ : emu) v :
  drf (alloc context v σ).2 (length (objs σ)) = v.
Proof.
  unfold deref. simpl. rewrite lookup_app_r by lia.
  by rewrite Nat.sub_diag.
Qed.

Lemma fill_Some c ips (σ : emu) :
  exists σ', fil (Some c) ips σ = inr σ'
    /\ log σ' = log σ ++ ips
    /\ length (objs σ') = length (objs σ)
    /\ forall c', c' <> c -> drf σ' c' = drf σ c'.
Proof.
  revert σ. induction ips as [|ip ips IH]; intros σ; simpl.
  - exists σ. rewrite app_nil_r. done.
  - destruct (IH (processor_execute context new_context execute c ip σ))
      as (σ' & -> & Ha & Hl & Hd).
    exists σ'. split; [done|]. rewrite Ha, Hl. simpl.
    rewrite <- app_assoc, length_insert. split; [done|]. split; [done|].
    intros c' Hc'. rewrite Hd by done. unfold deref. simpl.
    by rewrite list_lookup_insert_ne.
Qed.

Lemma contains_true b a :
  start_ea b <= a < end_ea b -> contains b a = true.
Proof.
  intros [H1 H2]. unfold contains.
  apply andb_true_iff. split; [by apply Z.leb_le|by apply Z.ltb_lt].
Qed.

(** The three ways through [cpu_context]. *)

Lemma cpu_hit p ea σ :
  valid_ea p ea -> _context_ea p = Some (eof p ea) ->
  cpu p ea σ
  = let '(r, σ') := deepcopy context new_context (_context p) σ in
    inr (r, p, σ').
Proof.
  intros Hv He. destruct p as [b pv c e].
  destruct ea as [a|]; unfold end_of in *; simpl in He; subst e; simpl.
  - rewrite (contains_true b a Hv). simpl.
    by rewrite bool_decide_true.
  - by rewrite bool_decide_true.
Qed.

Lemma cpu_extend p ea σ c e0 :
  valid_ea p ea -> _context p = Some c -> _context_ea p = Some e0 ->
  e0 < eof p ea ->
  cpu p ea σ
  = match fil (Some c) (Hds e0 (eof p ea)) σ with
    | inl e => inl e
    | inr σ2 =>
        let '(r, σ3) := deepcopy context new_context (Some c) σ2 in
        inr (r, mkPath (bb p) (prev p) (Some c) (Some (eof p ea)), σ3)
    end.
Proof.
  intros Hv Hc He Hlt. destruct p as [b pv c' e]. simpl in Hc, He. subst c' e.
  assert ((e0 >? eof (mkPath b pv (Some c) (Some e0)) ea) = false) as Hgt.
  { rewrite Z.gtb_ltb. apply Z.ltb_ge. lia. }
  destruct ea as [a|]; unfold end_of in *; simpl in *.
  - rewrite (contains_true b a Hv). simpl.
    rewrite bool_decide_false by (intros [=]; lia). by rewrite Hgt.
  - rewrite bool_decide_false by (intros [=]; lia). by rewrite Hgt.
Qed.

Lemma cpu_reinit p ea σ :
  valid_ea p ea ->
  (_context p = None /\ _context_ea p = None)
  \/ (exists c e0, _context p = Some c /\ _context_ea p = Some e0
                  /\ eof p ea < e0) ->
  cpu p ea σ
  = match base0 p σ with
    | inl e => inl e
    | inr (c, prev', σ1) =>
        match fil c (Hds (start_ea (bb p)) (eof p ea)) σ1 with
        | inl e => inl e
        | inr σ2 =>
            let '(r, σ3) := deepcopy context new_context c σ2 in
            inr (r, mkPath (bb p) prev' c (Some (eof p ea)), σ3)
        end
    end.
Proof.
  intros Hv Hst. destruct p as [b pv c e]. unfold base. simpl in Hst.
  assert (bool_decide (e = Some (eof (mkPath b pv c e) ea)) = false
          /\ match c, e with
             | None, _ => inr true
             | Some _, Some filled =>
                 inr (filled >? eof (mkPath b pv c e) ea)
             | Some _, None => inl TypeError
             end = (inr true : exn + bool)) as [Hd Hr].
  { destruct Hst as [[-> ->]|(c' & e0 & -> & -> & Hlt)].
    - split; [by apply bool_decide_false|done].
    - split; [apply bool_decide_false; intros [=]; lia|].
      f_equal. rewrite Z.gtb_ltb. by apply Z.ltb_lt. }
  destruct ea as [a|]; unfold end_of in *; simpl in *.
  - rewrite (contains_true b a Hv). simpl.
    rewrite Hd, Hr. destruct pv as [q|].
    + destruct (cpu q None σ) as [?|[[? ?] ?]]; done.
    + done.
  - rewrite Hd, Hr. destruct pv as [q|].
    + destruct (cpu q None σ) as [?|[[? ?] ?]]; done.
    + done.
Qed.

Lemma base_total p σ :
  (forall q, prev p = Some q -> forall σ,
     wf_path (length (objs σ)) q ->
     exists c prev' σm l, returns q None σ c prev' σm l) ->
  wf_path (length (objs σ)) p ->
  exists c prev' σ1 l,
    base0 p σ = inr (Some c, prev', σ1)
    /\ (c < length (objs σ1))%nat
    /\ (length (objs σ) <= length (objs σ1))%nat
    /\ log σ1 = log σ ++ l
    /\ match prev' with
       | Some q' => wf_path (length (objs σ1)) q'
       | None => True
       end.
Proof.
  intros IH Hwf. destruct p as [b [q|] c e]; unfold base; simpl in *.
  - destruct Hwf as [_ Hq].
    destruct (IH q eq_refl σ Hq) as (cq & pq & σm & l & Hrun & Hc & Hlen & Hlog & Hwf').
    rewrite Hrun. eexists _, _, _, l. split; [reflexivity|].
    assert (length (objs (alloc context (drf σm cq) σm).2)
            = S (length (objs σm))) as ->.
    { simpl. rewrite length_app. simpl. lia. }
    split; [lia|]. split; [lia|]. split; [done|].
    eapply wf_path_mono; [|exact Hwf']. lia.
  - eexists _, _, _, []. split; [reflexivity|]. simpl.
    rewrite length_app, app_nil_r. simpl. repeat split; lia.
Qed.

Lemma step_total p ea σ :
  (forall q, prev p = Some q -> forall σ,
     wf_path (length (objs σ)) q ->
     exists c prev' σm l, returns q None σ c prev' σm l) ->
  wf_path (length (objs σ)) p -> valid_ea p ea ->
  exists c prev' σm l, returns p ea σ c prev' σm l.
Proof.
  intros IH Hwf Hv.
  assert ((_context p = None /\ _context_ea p = None)
          \/ (exists c e0, _context p = Some c /\ _context_ea p = Some e0
                          /\ eof p ea < e0) ->
          exists c prev' σm l, returns p ea σ c prev' σm l) as Hre.
  { intros Hst.
    destruct (base_total p σ IH Hwf) as (c & pv' & σ1 & l & Hb & Hc & Hlen & Hlog & Hpv).
    destruct (fill_Some c (Hds (start_ea (bb p)) (eof p ea)) σ1)
      as (σ2 & Hf & Hlog2 & Hlen2 & _).
    exists c, pv', σ2, (l ++ Hds (start_ea (bb p)) (eof p ea)).
    unfold returns_copy. rewrite (cpu_reinit p ea σ Hv Hst), Hb, Hf.
    split; [reflexivity|]. rewrite Hlen2, Hlog2, Hlog, app_assoc.
    split; [done|]. split; [done|]. split; [done|].
    simpl. split; [done|]. done. }
  destruct p as [b pv [c|] [e0|]]; simpl in Hwf; destruct Hwf as [Hc Hpv];
    try done.
  - destruct (Z.lt_trichotomy e0 (eof (mkPath b pv (Some c) (Some e0)) ea))
      as [Hlt|[Heq|Hgt]].
    + destruct (fill_Some c
                  (Hds e0 (eof (mkPath b pv (Some c) (Some e0)) ea)) σ)
        as (σ2 & Hf & Hlog2 & Hlen2 & _).
      exists c, pv, σ2, (Hds e0 (eof (mkPath b pv (Some c) (Some e0)) ea)).
      unfold returns_copy.
      rewrite (cpu_extend _ ea σ c e0 Hv eq_refl eq_refl Hlt), Hf.
      split; [reflexivity|]. rewrite Hlen2.
      split; [done|]. split; [done|]. split; [done|].
      simpl. split; done.
    + exists c, pv, σ, []. unfold returns_copy.
      rewrite (cpu_hit _ ea σ Hv) by (simpl; by f_equal).
      simpl. rewrite <- Heq, app_nil_r.
      split; [done|]. split; [done|]. split; [done|]. split; [done|].
      split; done.
    + apply Hre. right. exists c, e0. simpl. done.
  - apply Hre. left. done.
Qed.

(** On a well-formed path block every acceptable request returns. *)
Lemma cpu_total p : forall ea σ,
  wf_path (length (objs σ)) p -> valid_ea p ea ->
  exists c prev' σm l, returns p ea σ c prev' σm l.
Proof.
  induction p as [b c e|b q c e IH] using PathBlock_induction;
    intros ea σ Hwf Hv; apply step_total; try done.
  intros q0 Hq σ' Hq'. simpl in Hq. simplify_eq. by apply IH.
Qed.


(** A request at or beyond the fill address, on a block that has a context:
    the heads from the fill address to the new end are applied (none when
    the two are equal) and a copy is returned. *)
Lemma cpu_advance p ea σ c e0 :
  valid_ea p ea -> _context p = Some c -> _context_ea p = Some e0 ->
  e0 <= eof p ea ->
  cpu p ea σ
  = match fil (Some c) (Hds e0 (eof p ea)) σ with
    | inl e => inl e
    | inr σ2 =>
        let '(r, σ3) := deepcopy context new_context (Some c) σ2 in
        inr (r, mkPath (bb p) (prev p) (Some c) (Some (eof p ea)), σ3)
    end.
Proof.
  intros Hv Hc He Hle. destruct (Z.eq_dec e0 (eof p ea)) as [Heq|Hne].
  - rewrite (cpu_hit p ea σ Hv) by congruence.
    rewrite <- Heq, Heads_empty, Hc. simpl.
    destruct p as [b pv c' e']. simpl in *. by subst.
  - apply cpu_extend; [done|done|done|lia].
Qed.

(** C6 (as amended): take a well-formed path block that holds no context
    yet, or one filled to an address that is not inside
    [(next_head(addr1), next_head(addr2)]].  A request for [addr1] followed
    by a request for a later [addr2] of the same block both return; the
    second request applies exactly the heads in
    [[next_head(addr1), next_head(addr2))], so nothing below
    [next_head(addr1)] is applied again; and the two requests together make
    as many emulator calls as the single request for [addr2] made on the
    same initial path block. *)
Theorem cpu_context_reuses_work p a1 a2 σ :
  wf_path (length (objs σ)) p ->
  valid_ea p (Some a1) -> valid_ea p (Some a2) -> a1 < a2 ->
  match _context_ea p with
  | Some filled => filled <= nh a1 \/ nh a2 < filled
  | None => True
  end ->
  exists r1 p1 σ1 r2 p2 σ2 r p' σ' two one,
    cpu p (Some a1) σ = inr (Some r1, p1, σ1)
    /\ cpu p1 (Some a2) σ1 = inr (Some r2, p2, σ2)
    /\ cpu p (Some a2) σ = inr (Some r, p', σ')
    /\ log σ2 = log σ1 ++ Hds (nh a1) (nh a2)
    /\ log σ2 = log σ ++ two
    /\ log σ' = log σ ++ one
    /\ length two = length one.
Proof.
  intros Hwf Hv1 Hv2 Hlt Hwin.
  set (e1 := nh a1). set (e2 := nh a2).
  assert (e1 <= e2) as Hmono by (apply next_head_mono; lia).
  (* both requests start from the same context [c] in the same store [σb],
     filled to the same address [s] *)
  assert (exists c pv' σb lb s,
    (forall a, a = a1 \/ a = a2 -> valid_ea p (Some a) ->
       cpu p (Some a) σ
       = match fil (Some c) (Hds s (nh a)) σb with
         | inl e => inl e
         | inr σ2 =>
             let '(r, σ3) := deepcopy context new_context (Some c) σ2 in
             inr (r, mkPath (bb p) pv' (Some c) (Some (nh a)), σ3)
         end)
    /\ log σb = log σ ++ lb
    /\ (e1 <> e2 -> s <= e1)) as (c & pv' & σb & lb & s & Hrun & Hlog & Hs).
  { assert ((_context p = None /\ _context_ea p = None)
            \/ (exists c e0, _context p = Some c /\ _context_ea p = Some e0
                            /\ e2 < e0) ->
            exists c pv' σb lb s,
              (forall a, a = a1 \/ a = a2 -> valid_ea p (Some a) ->
                 cpu p (Some a) σ
                 = match fil (Some c) (Hds s (nh a)) σb with
                   | inl e => inl e
                   | inr σ2 =>
                       let '(r, σ3) := deepcopy context new_context (Some c) σ2 in
                       inr (r, mkPath (bb p) pv' (Some c) (Some (nh a)), σ3)
                   end)
              /\ log σb = log σ ++ lb
              /\ (e1 <> e2 -> s <= e1)) as Hre.
    { intros Hst.
      destruct (base_total p σ (fun q _ σ0 Hq => cpu_total q None σ0 Hq I) Hwf)
        as (c & pv' & σb & lb & Hb & _ & _ & Hlog & _).
      exists c, pv', σb, lb, (start_ea (bb p)). split; [|split; [done|]].
      - intros a Ha Hva. rewrite (cpu_reinit p (Some a) σ Hva), Hb; [done|].
        destruct Hst as [Hnone|(c0 & e0 & Hc0 & He0 & Hgt)]; [by left|].
        right. exists c0, e0. split; [done|]. split; [done|]. simpl.
        destruct Ha as [-> | ->]; fold e1 e2; lia.
      - intros Hne. destruct (next_head_above a1) as [Hbad|Habove].
        + pose proof (next_head_le a2) as Hle. fold e1 in Hbad.
          fold e2 in Hle. lia.
        + simpl in Hv1. fold e1 in Habove. lia. }
    destruct p as [b pv [c0|] [e0|]]; simpl in Hwf; destruct Hwf as [Hc0 Hpv];
      try done; simpl in Hwin.
    - destruct Hwin as [Hbelow|Habove].
      + exists c0, pv, σ, [], e0. rewrite app_nil_r.
        split; [|split; [done|by fold e1 in Hbelow]].
        intros a Ha Hva.
        apply (cpu_advance _ (Some a) σ c0 e0 Hva eq_refl eq_refl).
        simpl. destruct Ha as [-> | ->]; fold e1 e2; fold e1 in Hbelow; lia.
      + apply Hre. right. exists c0, e0. by fold e2 in Habove.
    - apply Hre. by left. }
  destruct (fill_Some c (Hds s e1) σb) as (σf1 & Hf1 & Hlog1 & _).
  destruct (fill_Some c (Hds s e2) σb) as (σf2 & Hf2 & Hlog2 & _).
  set (p1 := mkPath (bb p) pv' (Some c) (Some e1)).
  set (σ1 := (alloc context (drf σf1 c) σf1).2).
  destruct (fill_Some c (Hds e1 e2) σ1) as (σx & Hfx & Hlogx & _).
  assert (valid_ea p1 (Some a2)) as Hv2' by done.
  eexists _, p1, σ1, _, _, _, _, _, _,
          (lb ++ Hds s e1 ++ Hds e1 e2), (lb ++ Hds s e2).
  split.
  { rewrite (Hrun a1 (or_introl eq_refl) Hv1). fold e1. rewrite Hf1. done. }
  split.
  { rewrite (cpu_advance p1 (Some a2) σ1 c e1 Hv2' eq_refl eq_refl)
      by (simpl; by fold e2).
    simpl. fold e2. rewrite Hfx. reflexivity. }
  split.
  { rewrite (Hrun a2 (or_intror eq_refl) Hv2). fold e2. rewrite Hf2. done. }
  simpl. rewrite Hlogx. simpl. rewrite Hlog1, Hlog2, Hlog, !app_assoc.
  split; [done|]. split; [done|]. split; [done|].
  rewrite !length_app. destruct (Z.eq_dec e1 e2) as [Heq|Hne].
  - rewrite <- Heq, Heads_empty. simpl. lia.
  - rewrite <- (Heads_length_split s e1 e2) by (specialize (Hs Hne); lia). lia.
Qed.
End EmulationFacts.

(** ** The path enumeration machine *)

Lemma finish_post v0 cur :
  start_ea cur ∉ v0 ->
  finish cur ({[start_ea cur]} ∪ v0) = (v0, Return).
Proof.
  intros Hnew. unfold finish. rewrite bool_decide_true by set_solver.
  f_equal. set_solver.
Qed.

Section BuildPathFacts.
Variable fc : FlowChart.
Variable cache : path_cache_t.
Hypothesis Hcache : cache_ok fc cache.

Lemma iter_cache_post v0 cur i :
  start_ea cur ∉ v0 ->
  post fc v0 cur (iter_cache cache cur i ({[start_ea cur]} ∪ v0)).
Proof.
  intros Hnew. unfold iter_cache.
  destruct (cache_get cache (start_ea cur) !! i) as [p|] eqn:E.
  - simpl. split; [|split; [done|]].
    + apply Hcache. by eapply list_elem_of_lookup_2.
    + split; [simpl; set_solver|]. split; [apply NoDup_singleton|].
      split; [|done]. simpl. intros s Hs.
      apply list_elem_of_singleton in Hs. by subst.
  - rewrite finish_post by done. done.
Qed.

Lemma path_ok_extend cur q :
  path_ok fc (start_ea (bb q)) q ->
  path_ok fc (start_ea cur) (new_PathBlock cur (Some q)).
Proof. intros (_ & H1 & H2). split; [done|]. simpl. done. Qed.

(** The loop over the parents, given that the recursive activations it
    starts behave. *)
Lemma loop_parents_post start v0 cur rest :
  (forall block v,
     block ∈ blocks fc -> start_ea block < start_ea cur ->
     start_ea block ∉ v -> post fc v block (start block v)) ->
  start_ea cur ∉ v0 ->
  Forall (fun b => b ∈ blocks fc) rest ->
  post fc v0 cur (loop_parents start cur rest ({[start_ea cur]} ∪ v0)).
Proof.
  intros Hstart Hnew. induction rest as [|block rest IH]; intros Hrest; simpl.
  - rewrite finish_post by done. done.
  - apply Forall_cons in Hrest as [Hblock Hrest].
    case_bool_decide as Hin; simpl; [by apply IH|].
    destruct (Z.gtb_spec (start_ea block) (start_ea cur)) as [Hgt|Hle];
      [by apply IH|].
    assert (start_ea block < start_ea cur) as Hlt by set_solver by lia.
    specialize (Hstart block _ Hblock Hlt Hin).
    destruct (start block ({[start_ea cur]} ∪ v0)) as [v' [p fr| |e|]];
      simpl in Hstart; try done.
    + destruct Hstart as (Hp & Hfr & Hv & Hnd & Hdis & Hok).
      split; [|split; [done|]].
      * apply path_ok_extend. by rewrite (proj1 Hp).
      * split; [simpl; set_solver|]. split.
        { simpl. constructor; [|done]. intros Hs. apply Hdis in Hs. set_solver. }
        split; [|done].
        simpl. intros s Hs. apply elem_of_cons in Hs as [->|Hs]; [done|].
        apply Hdis in Hs. set_solver.
    + subst v'. by apply IH.
Qed.

Lemma start_build_post fuel : forall b v0,
  (rank fc (start_ea b) < fuel)%nat ->
  b ∈ blocks fc -> start_ea b ∉ v0 ->
  post fc v0 b (start_build fc cache fuel b v0).
Proof.
  induction fuel as [|fuel IH]; intros b v0 Hrank Hb Hnew; [lia|]. simpl.
  destruct (length (cache_get cache (start_ea b)) =? 0)%nat;
    [|by apply iter_cache_post].
  destruct (length (preds fc b) =? 0)%nat eqn:Hp.
  - apply Nat.eqb_eq, length_zero_iff_nil in Hp.
    split; [done|]. split; [done|].
    split; [simpl; set_solver|]. split; [apply NoDup_singleton|].
    split; [|done]. simpl. intros s Hs.
    apply list_elem_of_singleton in Hs. by subst.
  - apply loop_parents_post; [|done|].
    + intros block v Hblock Hlt Hv. apply IH; [|done|done].
      pose proof (rank_lt fc block _ Hblock Hlt). lia.
    + apply Forall_forall. intros p. apply preds_in_chart.
Qed.

Lemma stack_inv_inner v0 v cur rest inner :
  stack_inv fc v0 v (FrParent cur rest inner) ->
  (start_ea cur ∉ v0)
  /\ Forall (fun b => b ∈ blocks fc) rest
  /\ stack_inv fc ({[start_ea cur]} ∪ v0) v inner.
Proof.
  intros (Hv & Hnd & Hdis & Hrest & Hok). simpl in *.
  apply NoDup_cons in Hnd as [Hcur Hnd].
  split; [apply Hdis; left|]. split; [done|].
  split; [set_solver|]. split; [done|]. split; [|done].
  intros s Hs. pose proof (Hdis s). set_solver.
Qed.

Lemma stack_inv_outer v0 v cur rest inner :
  start_ea cur ∉ v0 ->
  Forall (fun b => b ∈ blocks fc) rest ->
  stack_inv fc ({[start_ea cur]} ∪ v0) v inner ->
  stack_inv fc v0 v (FrParent cur rest inner).
Proof.
  intros Hcur Hrest (Hv & Hnd & Hdis & Hok).
  split; [simpl; set_solver|]. split.
  { simpl. constructor; [|done]. intros Hs. apply Hdis in Hs. set_solver. }
  split; [|done].
  simpl. intros s Hs. apply elem_of_cons in Hs as [->|Hs]; [done|].
  apply Hdis in Hs. set_solver.
Qed.

Lemma resume_post fr : forall v0 v,
  stack_inv fc v0 v fr ->
  post fc v0 (frame_block fr) (resume fc cache fr v).
Proof.
  induction fr as [cur|cur rest inner IH|cur i]; intros v0 v Hinv.
  - destruct Hinv as (-> & _ & Hdis & _). simpl in *.
    replace (v0 ∪ ({[start_ea cur]} ∪ ∅)) with ({[start_ea cur]} ∪ v0)
      by set_solver.
    rewrite finish_post; [done|]. apply Hdis. left.
  - apply stack_inv_inner in Hinv as (Hcur & Hrest & Hinner). simpl.
    specialize (IH _ _ Hinner).
    destruct (resume fc cache inner v) as [v' [p fr'| |e|]]; simpl in IH;
      try done.
    + destruct IH as (Hp & Hfr & Hinv').
      split; [|split; [done|]].
      * apply path_ok_extend. by rewrite (proj1 Hp).
      * by apply stack_inv_outer.
    + subst v'. apply loop_parents_post; [|done|done].
      intros block v1 Hblock Hlt Hv1.
      apply (start_build_post (depth_bound fc) block v1); [|done|done].
      pose proof (rank_le fc (start_ea block)). unfold depth_bound. lia.
  - destruct Hinv as (-> & _ & Hdis & _). simpl in *.
    replace (v0 ∪ ({[start_ea cur]} ∪ ∅)) with ({[start_ea cur]} ∪ v0)
      by set_solver.
    apply iter_cache_post. apply Hdis. left.
Qed.

(** [next] on a generator of the chart: it yields a path for its block or
    stops; it neither raises nor exceeds the recursion budget. *)
Lemma gen_next_ok k g :
  gen_ok fc k g ->
  gen_ok fc k (gen_next fc cache g).1
  /\ match (gen_next fc cache g).2 with
     | GYield p => path_ok fc k p
     | GStop => True
     | GRaise _ => False
     | GDiverge => False
     end.
Proof.
  unfold gen_next. destruct g as [b|v fr|]; [| |done].
  - intros [<- Hb].
    assert (rank fc (start_ea b) < depth_bound fc)%nat as Hrank.
    { pose proof (rank_le fc (start_ea b)). unfold depth_bound. lia. }
    pose proof (start_build_post (depth_bound fc) b ∅ Hrank Hb
                  (not_elem_of_empty _)) as H.
    destruct (start_build fc cache (depth_bound fc) b ∅) as [v' [p fr| |e|]];
      simpl in *; try done.
    destruct H as (Hp & Hfr & Hinv). subst b. done.
  - intros [<- Hinv]. pose proof (resume_post fr ∅ v Hinv) as H.
    destruct (resume fc cache fr v) as [v' [p fr'| |e|]]; simpl in *; try done.
    destruct H as (Hp & Hfr & Hinv'). by rewrite Hfr.
Qed.
End BuildPathFacts.

Section GetPathsFacts.
Variable fc : FlowChart.

Lemma find_block_in ea b : find_block fc ea = Some b -> b ∈ blocks fc.
Proof.
  unfold find_block. intros H. apply find_some in H as [H _].
  by apply list_elem_of_In.
Qed.

Lemma cache_get_touch cache k k' :
  cache_get (cache_touch cache k) k' = cache_get cache k'.
Proof.
  unfold cache_touch, cache_get. destruct (cache !! k) eqn:E; [done|].
  destruct (decide (k = k')) as [<-|Hne].
  - by rewrite lookup_insert_eq, E.
  - by rewrite lookup_insert_ne.
Qed.

Lemma cache_get_append_eq cache k p :
  cache_get (cache_append cache k p) k = cache_get cache k ++ [p].
Proof. unfold cache_append, cache_get at 1. by rewrite lookup_insert_eq. Qed.

Lemma cache_get_append_ne cache k k' p :
  k <> k' -> cache_get (cache_append cache k p) k' = cache_get cache k'.
Proof.
  intros. unfold cache_append, cache_get at 1 3. by rewrite lookup_insert_ne.
Qed.

Lemma cache_ok_append cache k p :
  cache_ok fc cache -> path_ok fc k p -> cache_ok fc (cache_append cache k p).
Proof.
  intros Hc Hp k' q. destruct (decide (k = k')) as [<-|Hne].
  - rewrite cache_get_append_eq. intros Hq.
    apply elem_of_app in Hq as [Hq|Hq]; [by apply Hc|].
    apply list_elem_of_singleton in Hq. by subst.
  - rewrite cache_get_append_ne by done. apply Hc.
Qed.

Lemma state_ok_fresh : state_ok fc fresh_state.
Proof.
  split.
  - intros k p. unfold cache_get. simpl. rewrite lookup_empty. simpl.
    intros H. by inversion H.
  - intros k g. simpl. by rewrite lookup_empty.
Qed.

(** One draw from the block's generator. *)
Lemma gp_draw_ok st b :
  state_ok fc st ->
  let '(st', g', r) := gp_draw fc st b in
  state_ok fc st'
  /\ match r with
     | GpYield p =>
         path_ok fc (start_ea b) p /\ g' = GpDrawing b
         /\ cache_get (_path_cache st') (start_ea b)
            = cache_get (_path_cache st) (start_ea b) ++ [p]
     | GpStop => g' = GpFinished /\ _path_cache st' = _path_cache st
     | GpRaise _ => False
     | GpDiverge => False
     end.
Proof.
  intros [Hc Hg]. unfold gp_draw.
  destruct (_gen_cache st !! start_ea b) as [g|] eqn:E; [|done].
  pose proof (gen_next_ok fc (_path_cache st) Hc (start_ea b) g (Hg _ _ E))
    as [Hg' Hr].
  destruct (gen_next fc (_path_cache st) g) as [g' r]. simpl in *.
  assert (forall k g0, <[start_ea b := g']> (_gen_cache st) !! k = Some g0 ->
            gen_ok fc k g0) as Hgens.
  { intros k g0. destruct (decide (start_ea b = k)) as [<-|Hne].
    - rewrite lookup_insert_eq. by intros [= <-].
    - rewrite lookup_insert_ne by done. apply Hg. }
  destruct r as [p| | |]; try done.
  destruct Hr as (Hk & Hroot). split; [split; [|done]|].
  - simpl. apply cache_ok_append; [done|]. split; [done|]. done.
  - split; [done|]. split; [done|]. simpl. rewrite Hk.
    apply cache_get_append_eq.
Qed.

Lemma gp_enter_draw_ok st b :
  state_ok fc st -> b ∈ blocks fc ->
  let '(st', g', r) := gp_enter_draw fc st b in
  state_ok fc st'
  /\ match r with
     | GpYield p =>
         path_ok fc (start_ea b) p /\ g' = GpDrawing b
         /\ cache_get (_path_cache st') (start_ea b)
            = cache_get (_path_cache st) (start_ea b) ++ [p]
     | GpStop => g' = GpFinished /\ _path_cache st' = _path_cache st
     | GpRaise _ => False
     | GpDiverge => False
     end.
Proof.
  intros Hst Hb. unfold gp_enter_draw.
  destruct (_gen_cache st !! start_ea b) as [g|] eqn:E.
  - by apply gp_draw_ok.
  - set (st0 := mkState _ _).
    assert (state_ok fc st0) as Hst0.
    { destruct Hst as [Hc Hg]. split; [done|]. intros k g. simpl.
      destruct (decide (start_ea b = k)) as [<-|Hne].
      - rewrite lookup_insert_eq. by intros [= <-].
      - rewrite lookup_insert_ne by done. apply Hg. }
    apply (gp_draw_ok st0 b Hst0).
Qed.

Lemma gp_next_ok st ea g :
  state_ok fc st -> gp_for fc ea g ->
  let '(st', g', r) := gp_next fc st g in
  state_ok fc st' /\ gp_for fc ea g' /\ result_ok fc ea r.
Proof.
  intros Hst Hfor.
  assert (forall st b i, state_ok fc st -> find_block fc ea = Some b ->
            let '(st', g', r) := gp_cached fc st b i in
            state_ok fc st' /\ gp_for fc ea g' /\ result_ok fc ea r) as Hcached.
  { clear. intros st b i Hst Hb. unfold gp_cached.
    destruct (cache_get (_path_cache st) (start_ea b) !! i) as [p|] eqn:E.
    - split; [done|]. split; [done|]. exists b. split; [done|].
      apply (proj1 Hst). by eapply list_elem_of_lookup_2.
    - pose proof (gp_enter_draw_ok st b Hst (find_block_in _ _ Hb)) as H.
      destruct (gp_enter_draw fc st b) as [[st' g'] r].
      destruct H as [Hst' Hr]. split; [done|].
      destruct r as [p| | |]; try done.
      + destruct Hr as (Hp & -> & _). split; [done|]. by exists b.
      + destruct Hr as [-> _]. done. }
  destruct g as [ea'|b i|b|]; simpl in *.
  - subst ea'. destruct (find_block fc ea) as [b|] eqn:Hb; [|done].
    apply Hcached; [|done]. destruct Hst as [Hc Hg]. split; [|done].
    intros k p. simpl. rewrite cache_get_touch. apply Hc.
  - by apply Hcached.
  - pose proof (gp_draw_ok st b Hst) as H.
    destruct (gp_draw fc st b) as [[st' g'] r].
    destruct H as [Hst' Hr]. split; [done|].
    destruct r as [p| | |]; try done.
    + destruct Hr as (Hp & -> & _). split; [done|]. by exists b.
    + destruct Hr as [-> _]. done.
  - done.
Qed.

Lemma act_ok c a :
  config_ok fc c ->
  config_ok fc (act fc c a).1
  /\ forall ea r, (act fc c a).2 = Some (ea, r) -> result_ok fc ea r.
Proof.
  intros [Hst Hgs]. destruct a as [ea|i]; simpl.
  - split; [|done]. split; [done|]. apply Forall_app. split; [done|].
    by constructor.
  - destruct (c.2 !! i) as [[ea g]|] eqn:E; [|done].
    pose proof (gp_next_ok c.1 ea g Hst) as H.
    destruct (gp_next fc c.1 g) as [[st' g'] r]. simpl.
    destruct H as (Hst' & Hfor' & Hr).
    { eapply Forall_lookup_1 in Hgs; [|exact E]. done. }
    split.
    + split; [done|]. simpl. apply Forall_insert; done.
    + by intros ea0 r0 [= <- <-].
Qed.

Lemma run_ok l : forall c,
  config_ok fc c ->
  config_ok fc (run fc c l).1
  /\ forall ea r, (ea, r) ∈ (run fc c l).2 -> result_ok fc ea r.
Proof.
  induction l as [|a l IH]; intros c Hc; simpl.
  - split; [done|]. intros ea r H. by inversion H.
  - pose proof (act_ok c a Hc) as [Hc' Ho].
    destruct (act fc c a) as [c' o]. simpl in *.
    specialize (IH c' Hc') as [Hc'' Hout].
    destruct (run fc c' l) as [c'' out]. simpl in *.
    split; [done|]. intros ea r Hin.
    apply elem_of_app in Hin as [Hin|Hin]; [|by apply Hout].
    destruct o as [[ea0 r0]|]; simpl in Hin; [|by inversion Hin].
    apply list_elem_of_singleton in Hin as [= -> ->]. by apply Ho.
Qed.

Lemma state_after_ok l : state_ok fc (state_after fc l).
Proof.
  unfold state_after.
  apply (run_ok l (fresh_state, [])). split; [apply state_ok_fresh|done].
Qed.
End GetPathsFacts.

(** ** Repeated calls of [get_paths] *)

Section Prefix.
Variable fc : FlowChart.

(** Everything a run of pulls yields is, in order, in the block's cache
    afterwards, and the cache only grows at its end. *)
Lemma gp_take_prefix n : forall st g b,
  state_ok fc st -> b ∈ blocks fc ->
  (exists i, g = GpCached b i) \/ g = GpDrawing b ->
  (yielded_so_far st g ++ paths_of (gp_take fc n st g))
    `prefix_of` cache_get (_path_cache (state_of (gp_take fc n st g))) (start_ea b)
  /\ cache_get (_path_cache st) (start_ea b)
       `prefix_of` cache_get (_path_cache (state_of (gp_take fc n st g))) (start_ea b)
  /\ state_ok fc (state_of (gp_take fc n st g)).
Proof.
  induction n as [|n IH]; intros st g b Hst Hb Hg.
  { simpl. unfold paths_of, state_of. simpl. rewrite app_nil_r.
    split; [|done]. destruct Hg as [[i ->]| ->]; simpl; [|done].
    apply prefix_take. }
  assert (forall i,
    cache_get (_path_cache st) (start_ea b) !! i = None ->
    let r := gp_take fc (S n) st (GpDrawing b) in
    forall st0 g0 r0,
      (st0, g0, r0) = gp_enter_draw fc st b \/ (st0, g0, r0) = gp_draw fc st b ->
      state_ok fc st0
      /\ match r0 with
         | GpYield p =>
             path_ok fc (start_ea b) p /\ g0 = GpDrawing b
             /\ cache_get (_path_cache st0) (start_ea b)
                = cache_get (_path_cache st) (start_ea b) ++ [p]
         | GpStop => g0 = GpFinished /\ _path_cache st0 = _path_cache st
         | GpRaise _ => False
         | GpDiverge => False
         end ->
      let res := match r0 with
                 | GpYield p =>
                     let '(ps, e, st'', g'') := gp_take fc n st0 g0 in
                     (p :: ps, e, st'', g'')
                 | _ => ([], Some r0, st0, g0)
                 end in
      (cache_get (_path_cache st) (start_ea b) ++ paths_of res)
        `prefix_of` cache_get (_path_cache (state_of res)) (start_ea b)
      /\ cache_get (_path_cache st) (start_ea b)
           `prefix_of` cache_get (_path_cache (state_of res)) (start_ea b)
      /\ state_ok fc (state_of res)) as Hdraw.
  { intros i Hi r st0 g0 r0 _ [Hst0 Hr0]. destruct r0 as [p| | |]; try done.
    - destruct Hr0 as (Hp & -> & Hc0).
      destruct (IH st0 (GpDrawing b) b Hst0 Hb (or_intror eq_refl))
        as (H1 & H2 & H3).
      destruct (gp_take fc n st0 (GpDrawing b)) as [[[ps e] st''] g''].
      unfold paths_of, state_of in *. simpl in *.
      rewrite Hc0 in H1, H2. rewrite <- app_assoc in H1. simpl in H1.
      split; [done|]. split; [|done].
      etrans; [|exact H2]. by apply prefix_app_r.
    - destruct Hr0 as [-> Hc0]. unfold paths_of, state_of. simpl.
      rewrite Hc0, app_nil_r. done. }
  destruct Hg as [[i ->]| ->].
  - simpl. unfold gp_cached.
    destruct (cache_get (_path_cache st) (start_ea b) !! i) as [p|] eqn:E.
    + destruct (IH st (GpCached b (S i)) b Hst Hb (or_introl (ex_intro _ _ eq_refl)))
        as (H1 & H2 & H3).
      destruct (gp_take fc n st (GpCached b (S i))) as [[[ps e] st''] g''].
      unfold paths_of, state_of in *. simpl in *.
      rewrite (take_S_r _ _ _ E), <- app_assoc in H1. done.
    + pose proof (gp_enter_draw_ok fc st b Hst Hb) as Hok.
      specialize (Hdraw i E).
      destruct (gp_enter_draw fc st b) as [[st0 g0] r0] eqn:Hed.
      specialize (Hdraw st0 g0 r0 (or_introl eq_refl) Hok).
      rewrite take_ge by (by apply lookup_ge_None).
      destruct r0; exact Hdraw.
  - simpl.
    pose proof (gp_draw_ok fc st b Hst) as Hok.
    specialize (Hdraw (length (cache_get (_path_cache st) (start_ea b)))
                  (lookup_ge_None_2 _ _ (Nat.le_refl _))).
    destruct (gp_draw fc st b) as [[st0 g0] r0] eqn:Hed.
    specialize (Hdraw st0 g0 r0 (or_intror eq_refl) Hok).
    destruct r0; exact Hdraw.
Qed.

(** The same for a whole call [get_paths(ea)] pulled [n] times. *)
Lemma get_paths_prefix st ea n b :
  state_ok fc st -> find_block fc ea = Some b ->
  paths_of (get_paths fc st ea n)
    `prefix_of` cache_get (_path_cache (state_of (get_paths fc st ea n))) (start_ea b)
  /\ cache_get (_path_cache st) (start_ea b)
       `prefix_of` cache_get (_path_cache (state_of (get_paths fc st ea n))) (start_ea b)
  /\ state_ok fc (state_of (get_paths fc st ea n)).
Proof.
  intros Hst Hb. unfold get_paths. destruct n as [|n].
  { unfold paths_of, state_of. simpl. split; [apply prefix_nil|done]. }
  set (st0 := mkState (cache_touch (_path_cache st) (start_ea b)) (_gen_cache st)).
  assert (gp_take fc (S n) st (GpCreated ea) = gp_take fc (S n) st0 (GpCached b 0))
    as -> by (simpl; by rewrite Hb).
  assert (state_ok fc st0) as Hst0.
  { destruct Hst as [Hc Hg]. split; [|done].
    intros k p. simpl. rewrite cache_get_touch. apply Hc. }
  destruct (gp_take_prefix (S n) st0 (GpCached b 0) b Hst0
              (find_block_in fc _ _ Hb) (or_introl (ex_intro _ _ eq_refl)))
    as (H1 & H2 & H3).
  simpl yielded_so_far in H1. rewrite take_0 in H1. simpl in H1, H2.
  rewrite cache_get_touch in H2. done.
Qed.

Lemma get_paths_no_paths st ea n :
  find_block fc ea = None -> paths_of (get_paths fc st ea n) = [].
Proof.
  intros Hb. destruct n as [|n]; [done|].
  by rewrite get_paths_no_block.
Qed.

(** C4 (as amended): after any client activity on a new chart, call
    [get_paths(ea)] and pull any number of paths, then call [get_paths(ea)]
    again and pull any number of paths: wherever both calls gave an [N]-th
    path, it is the same path.  The two calls are pulled one after the
    other; see [get_paths_prefix_compatible_counterexample] for calls that
    are pulled in turns. *)
Theorem get_paths_prefix_compatible (l : list action) ea n m i x y :
  let first := get_paths fc (state_after fc l) ea n in
  let second := get_paths fc (state_of first) ea m in
  paths_of first !! i = Some x ->
  paths_of second !! i = Some y ->
  x = y.
Proof.
  intros first second Hx Hy.
  destruct (find_block fc ea) as [b|] eqn:Hb.
  - destruct (get_paths_prefix (state_after fc l) ea n b
                (state_after_ok fc l) Hb) as ([k1 H1] & _ & Hst1).
    fold first in H1, Hst1.
    destruct (get_paths_prefix (state_of first) ea m b Hst1 Hb)
      as ([k2 H2] & [k3 H3] & _).
    fold second in H2, H3.
    rewrite H1 in H3. rewrite H3 in H2.
    assert ((paths_of first ++ k1 ++ k3) !! i = Some x) as Hx'.
    { by apply lookup_app_l_Some. }
    assert ((paths_of second ++ k2) !! i = Some y) as Hy'.
    { by apply lookup_app_l_Some. }
    rewrite <- app_assoc in H2. rewrite <- H2 in Hy'. congruence.
  - unfold first in Hx. by rewrite get_paths_no_paths in Hx.
Qed.
End Prefix.

(** ** Where the yielded chains start and end *)

(** C5 (as amended): whatever a client does with [get_paths] on a new
    chart, every path a generator made for address [ea] yields ends at a
    block that starts where the block containing [ea] starts, and its root
    (the end of the [prev] links) is a block of the chart that has no
    predecessors; so the root is the entry block whenever the entry block
    is the only block of the chart without predecessors.  No [next] raises,
    except for the [AttributeError] when no block contains [ea], and the
    recursion budget of the model is never exceeded. *)
Theorem get_paths_chain_ends fc (l : list action) ea r :
  (ea, r) ∈ (run fc (fresh_state, []) l).2 ->
  match r with
  | GpYield p =>
      exists block,
        find_block fc ea = Some block
        /\ start_ea (bb p) = start_ea block
        /\ preds fc (root p) = []
        /\ root p ∈ blocks fc
        /\ ((forall b, b ∈ blocks fc -> preds fc b = [] -> getitem fc 0 = Some b) ->
            getitem fc 0 = Some (root p))
  | GpStop => True
  | GpRaise e => e = AttributeError /\ find_block fc ea = None
  | GpDiverge => False
  end.
Proof.
  intros Hin.
  assert (config_ok fc (fresh_state, [])) as Hc.
  { split; [apply state_ok_fresh|done]. }
  pose proof (proj2 (run_ok fc l _ Hc) ea r Hin) as Hr.
  destruct r as [p| |e|]; try done.
  destruct Hr as (block & Hb & Hend & Hroot & Hin').
  exists block. repeat split; try done. intros Honly. by apply Honly.
Qed.

Lemma get_paths_chain_ends_witness :
  exists block,
    find_block Samples.diamond0 0x1038 = Some block
    /\ start_ea (bb (new_PathBlock (Samples.dD true 0x1030 0x1040)
                      (Some (new_PathBlock (Samples.dC 0x1020 0x1030)
                         (Some (new_PathBlock (Samples.dA 0x1000 0x1010) None))))))
       = start_ea block
    /\ preds Samples.diamond0 (Samples.dA 0x1000 0x1010) = []
    /\ Samples.dA 0x1000 0x1010 ∈ blocks Samples.diamond0
    /\ ((forall b, b ∈ blocks Samples.diamond0 -> preds Samples.diamond0 b = [] ->
           getitem Samples.diamond0 0 = Some b) ->
        getitem Samples.diamond0 0 = Some (Samples.dA 0x1000 0x1010)).
Proof.
  apply (get_paths_chain_ends Samples.diamond0
           [Call 0x1038; Next 0; Call 0x1038; Next 1; Next 1; Next 0] 0x1038
           (GpYield (new_PathBlock (Samples.dD true 0x1030 0x1040)
                      (Some (new_PathBlock (Samples.dC 0x1020 0x1030)
                         (Some (new_PathBlock (Samples.dA 0x1000 0x1010) None))))))).
  vm_compute. do 2 apply list_elem_of_further. apply list_elem_of_here.
Defined.

(** C5 fails as stated: on a chart with a second block without
    predecessors, [get_paths] yields a chain whose root is that block and
    not the entry block. *)
Lemma get_paths_chain_ends_counterexample :
  exists p,
    p ∈ paths_of (get_paths Samples.orphan fresh_state 0x1020 2)
    /\ chain p = [0x1010; 0x1020]
    /\ root p = Samples.orphanH
    /\ getitem Samples.orphan 0 = Some Samples.orphanA
    /\ start_ea (root p) <> start_ea Samples.orphanA.
Proof.
  exists (new_PathBlock Samples.orphanC (Some (new_PathBlock Samples.orphanH None))).
  split; [vm_compute; apply list_elem_of_further, list_elem_of_here|].
  repeat split. simpl. lia.
Qed.

(** ** A cache hit inside [_build_path] *)

Lemma gen_take_cache_iter fc cache b n : forall i v,
  start_ea b ∈ v ->
  (length (cache_get cache (start_ea b)) - i < n)%nat ->
  gen_take fc cache n (GenSuspended v (FrCache b i))
  = (drop i (cache_get cache (start_ea b)), Some GStop, GenFinished).
Proof.
  induction n as [|n IH]; intros i v Hv Hn; [lia|].
  simpl. unfold gen_next. simpl. unfold iter_cache.
  destruct (cache_get cache (start_ea b) !! i) as [p|] eqn:E.
  - rewrite IH; [|done|].
    + by rewrite (drop_S _ _ _ E).
    + apply lookup_lt_Some in E. lia.
  - unfold finish. rewrite bool_decide_true by done.
    rewrite drop_ge; [done|]. by apply lookup_ge_None.
Qed.

(** A generator started for a block whose cache entry is not empty yields
    the cached paths, in order, and then stops: no path is derived. *)
Lemma build_path_cache_hit fc cache b n :
  cache_get cache (start_ea b) <> [] ->
  (length (cache_get cache (start_ea b)) < n)%nat ->
  gen_take fc cache n (GenCreated b)
  = (cache_get cache (start_ea b), Some GStop, GenFinished).
Proof.
  intros Hne Hn. destruct n as [|n]; [lia|].
  destruct (cache_get cache (start_ea b)) as [|p ps] eqn:E; [done|].
  simpl. unfold gen_next. simpl. rewrite E. simpl.
  unfold iter_cache. rewrite E. simpl.
  rewrite (gen_take_cache_iter fc cache b n 1); [|set_solver|].
  - rewrite E. done.
  - rewrite E. simpl in *. lia.
Qed.

(** C9: a [_build_path] generator started for a block whose cache entry
    holds at least one path yields exactly the cached paths and stops,
    whether or not the enumeration that filled the entry had finished.
    Hence, on the diamond followed by [E]: after one path for [D] has been
    pulled, fully enumerating the paths to [E] gives the single chain
    [A,B,D,E]; the chain [A,C,D,E], which the same enumeration gives on a
    new chart, is left out. *)
Theorem build_path_serves_partial_cache :
  (forall fc cache b n,
     cache_get cache (start_ea b) <> [] ->
     (length (cache_get cache (start_ea b)) < n)%nat ->
     gen_take fc cache n (GenCreated b)
     = (cache_get cache (start_ea b), Some GStop, GenFinished))
  /\ (let first := get_paths Samples.diamond_tail fresh_state 0x1030 1 in
      let second := get_paths Samples.diamond_tail (state_of first) 0x1040 4 in
      let alone := get_paths Samples.diamond_tail fresh_state 0x1040 4 in
      map chain (paths_of first) = [[0x1000; 0x1010; 0x1030]]
      /\ ended_of first = None
      /\ map chain (paths_of second) = [[0x1000; 0x1010; 0x1030; 0x1040]]
      /\ ended_of second = Some GpStop
      /\ map chain (paths_of alone)
         = [[0x1000; 0x1010; 0x1030; 0x1040]; [0x1000; 0x1020; 0x1030; 0x1040]]
      /\ ended_of alone = Some GpStop).
Proof.
  split; [apply build_path_cache_hit|]. vm_compute. repeat split.
Qed.

Lemma build_path_serves_partial_cache_witness :
  let cache : path_cache_t :=
    {[ 0x1010 := [new_PathBlock Samples.lineB (Some (new_PathBlock Samples.lineA None))] ]} in
  gen_take Samples.line cache 2 (GenCreated Samples.lineB)
  = (cache_get cache (start_ea Samples.lineB), Some GStop, GenFinished).
Proof.
  apply (proj1 build_path_serves_partial_cache).
  - vm_compute. discriminate.
  - vm_compute. lia.
Defined.

(** ** The diamond *)

Lemma gtb_false x y : x <= y -> (x >? y) = false.
Proof. intros. rewrite Z.gtb_ltb. by apply Z.ltb_ge. Qed.

Lemma cache_get_empty k : cache_get ∅ k = [].
Proof. unfold cache_get. by rewrite lookup_empty. Qed.

(** The steps of [gp_next], one equation each. *)

Lemma gp_next_created fc st ea b :
  find_block fc ea = Some b ->
  gp_next fc st (GpCreated ea)
  = gp_cached fc (mkState (cache_touch (_path_cache st) (start_ea b))
                          (_gen_cache st)) b 0.
Proof. intros H. simpl. by rewrite H. Qed.

Lemma gp_cached_hit fc st b i p :
  cache_get (_path_cache st) (start_ea b) !! i = Some p ->
  gp_cached fc st b i = (st, GpCached b (S i), GpYield p).
Proof. intros H. unfold gp_cached. by rewrite H. Qed.

Lemma gp_cached_miss fc st b i :
  cache_get (_path_cache st) (start_ea b) !! i = None ->
  gp_cached fc st b i = gp_enter_draw fc st b.
Proof. intros H. unfold gp_cached. by rewrite H. Qed.

Lemma gp_enter_draw_new fc st b :
  _gen_cache st !! start_ea b = None ->
  gp_enter_draw fc st b
  = gp_draw fc (mkState (_path_cache st)
                        (<[start_ea b := GenCreated b]> (_gen_cache st))) b.
Proof. intros H. unfold gp_enter_draw. by rewrite H. Qed.

Lemma gp_enter_draw_old fc st b g :
  _gen_cache st !! start_ea b = Some g ->
  gp_enter_draw fc st b = gp_draw fc st b.
Proof. intros H. unfold gp_enter_draw. by rewrite H. Qed.

Lemma gp_draw_yield fc st b g g' p :
  _gen_cache st !! start_ea b = Some g ->
  gen_next fc (_path_cache st) g = (g', GYield p) ->
  gp_draw fc st b
  = (mkState (cache_append (_path_cache st) (start_ea (bb p)) p)
             (<[start_ea b := g']> (_gen_cache st)),
     GpDrawing b, GpYield p).
Proof. intros H1 H2. unfold gp_draw. by rewrite H1, H2. Qed.

Lemma gp_draw_stop fc st b g g' :
  _gen_cache st !! start_ea b = Some g ->
  gen_next fc (_path_cache st) g = (g', GStop) ->
  gp_draw fc st b
  = (mkState (_path_cache st) (<[start_ea b := g']> (_gen_cache st)),
     GpFinished, GpStop).
Proof. intros H1 H2. unfold gp_draw. by rewrite H1, H2. Qed.

Section DiamondMachine.
Variables (fc : FlowChart) (A X Y D : BasicBlock).
Hypothesis HpA : preds fc A = [].
Hypothesis HpX : preds fc X = [A].
Hypothesis HpY : preds fc Y = [A].
Hypothesis HpD : preds fc D = [X; Y].
Hypothesis Hdepth : depth_bound fc = 5%nat.
Hypothesis HAX : start_ea A < start_ea X.
Hypothesis HAY : start_ea A < start_ea Y.
Hypothesis HXD : start_ea X < start_ea D.
Hypothesis HYD : start_ea Y < start_ea D.

Local Abbreviation via := (diamond_via A D).
Local Abbreviation gen1 := (diamond_gen1 A X Y D).
Local Abbreviation gen2 := (diamond_gen2 A Y D).
Local Abbreviation below_empty := (diamond_below_empty A X Y).
Local Abbreviation phase := (diamond_phase A X Y D).

Ltac machine :=
  repeat first
    [ progress cbn [resume loop_parents start_build iter_cache finish
                    length Nat.eqb orb andb fst snd]
    | rewrite HpA | rewrite HpX | rewrite HpY | rewrite HpD | rewrite Hdepth
    | rewrite bool_decide_eq_true_2 by (set_solver by lia)
    | rewrite bool_decide_eq_false_2 by (set_solver by lia)
    | rewrite gtb_false by lia
    | rewrite finish_post by (set_solver by lia) ].

Lemma diamond_gen_first cache :
  below_empty cache -> cache_get cache (start_ea D) = [] ->
  gen_next fc cache (GenCreated D) = (gen1, GYield (via X)).
Proof.
  intros (HcA & HcX & HcY) HcD. unfold gen_next. rewrite Hdepth.
  cbn [start_build]. rewrite HcD. machine. rewrite HcX. machine.
  rewrite HcA. machine. done.
Qed.

Lemma diamond_gen_second cache :
  below_empty cache ->
  gen_next fc cache gen1 = (gen2, GYield (via Y)).
Proof.
  intros (HcA & HcX & HcY). unfold gen_next, diamond_gen1. machine. rewrite HcY. machine. rewrite HcA. machine. done.
Qed.

Lemma diamond_gen_third cache :
  below_empty cache ->
  gen_next fc cache gen2 = (GenFinished, GStop).
Proof.
  intros (HcA & HcX & HcY). unfold gen_next, diamond_gen2. machine. done.
Qed.

Variable ea : Z.
Hypothesis Hfind : find_block fc ea = Some D.

Lemma below_empty_touch cache :
  below_empty cache -> below_empty (cache_touch cache (start_ea D)).
Proof. unfold diamond_below_empty. by rewrite !cache_get_touch. Qed.

Lemma below_empty_append cache p :
  below_empty cache -> below_empty (cache_append cache (start_ea D) p).
Proof.
  unfold diamond_below_empty. intros H. rewrite !cache_get_append_ne by lia. done.
Qed.

Lemma phase_fresh : phase 0 fresh_state.
Proof.
  split; [|split]; simpl; rewrite ?cache_get_empty, ?lookup_empty; done.
Qed.

(** One [next] of a new call, phase by phase. *)

Lemma diamond_first_next_0 st :
  phase 0 st ->
  exists st', gp_next fc st (GpCreated ea) = (st', GpDrawing D, GpYield (via X))
              /\ phase 1 st'.
Proof.
  intros (Hb & Hc & Hg). eexists. split.
  - rewrite (gp_next_created _ _ _ _ Hfind).
    rewrite gp_cached_miss by (simpl; by rewrite cache_get_touch, Hc).
    rewrite gp_enter_draw_new by done.
    erewrite gp_draw_yield;
      [reflexivity|simpl; apply lookup_insert_eq|].
    simpl. apply diamond_gen_first.
    + by apply below_empty_touch.
    + by rewrite cache_get_touch.
  - split; [|split]; simpl.
    + by apply below_empty_append, below_empty_touch.
    + by rewrite cache_get_append_eq, cache_get_touch, Hc.
    + apply lookup_insert_eq.
Qed.

Lemma diamond_draw_1 st :
  phase 1 st ->
  exists st', gp_draw fc st D = (st', GpDrawing D, GpYield (via Y))
              /\ phase 2 st'.
Proof.
  intros (Hb & Hc & Hg). eexists. split.
  - erewrite gp_draw_yield; [reflexivity|exact Hg|].
    by apply diamond_gen_second.
  - split; [|split]; simpl.
    + by apply below_empty_append.
    + by rewrite cache_get_append_eq, Hc.
    + apply lookup_insert_eq.
Qed.

Lemma diamond_draw_2 st :
  phase 2 st ->
  exists st', gp_draw fc st D = (st', GpFinished, GpStop) /\ phase 3 st'.
Proof.
  intros (Hb & Hc & Hg). eexists. split.
  - erewrite gp_draw_stop; [reflexivity|exact Hg|].
    by apply diamond_gen_third.
  - split; [|split]; simpl; [done|done|apply lookup_insert_eq].
Qed.

Lemma diamond_draw_3 st :
  phase 3 st ->
  exists st', gp_draw fc st D = (st', GpFinished, GpStop) /\ phase 3 st'.
Proof.
  intros (Hb & Hc & Hg). eexists. split.
  - erewrite gp_draw_stop; [reflexivity|exact Hg|done].
  - split; [|split]; simpl; [done|done|apply lookup_insert_eq].
Qed.

Lemma phase_touch j st :
  phase j st ->
  phase j (mkState (cache_touch (_path_cache st) (start_ea D)) (_gen_cache st)).
Proof.
  intros [Hb H]. split; [by apply below_empty_touch|].
  simpl. rewrite cache_get_touch. done.
Qed.

(** A call pulled to its end. *)
Lemma diamond_exhaust j st n :
  phase j st -> (3 <= n)%nat ->
  paths_of (get_paths fc st ea n) = [via X; via Y]
  /\ ended_of (get_paths fc st ea n) = Some GpStop.
Proof.
  intros Hph Hn. destruct n as [|[|[|n]]]; try lia.
  unfold get_paths.
  destruct j as [|[|[|j]]].
  - destruct (diamond_first_next_0 st Hph) as (st1 & E1 & H1).
    destruct (diamond_draw_1 st1 H1) as (st2 & E2 & H2).
    destruct (diamond_draw_2 st2 H2) as (st3 & E3 & H3).
    cbn [gp_take]. rewrite E1. cbn [gp_take gp_next]. rewrite E2.
    cbn [gp_take gp_next]. rewrite E3. done.
  - pose proof (phase_touch _ _ Hph) as Hp0.
    set (st0 := mkState _ _) in Hp0.
    destruct Hp0 as (Hb & Hc & Hg).
    destruct (diamond_draw_1 st0 (conj Hb (conj Hc Hg))) as (st2 & E2 & H2).
    destruct (diamond_draw_2 st2 H2) as (st3 & E3 & H3).
    cbn [gp_take]. rewrite (gp_next_created _ _ _ _ Hfind). fold st0.
    rewrite (gp_cached_hit _ _ _ _ (via X)) by (by rewrite Hc).
    cbn [gp_take gp_next].
    rewrite gp_cached_miss by (by rewrite Hc).
    rewrite (gp_enter_draw_old _ _ _ _ Hg), E2.
    cbn [gp_take gp_next]. rewrite E3. done.
  - pose proof (phase_touch _ _ Hph) as Hp0.
    set (st0 := mkState _ _) in Hp0.
    destruct Hp0 as (Hb & Hc & Hg).
    destruct (diamond_draw_2 st0 (conj Hb (conj Hc Hg))) as (st3 & E3 & H3).
    cbn [gp_take]. rewrite (gp_next_created _ _ _ _ Hfind). fold st0.
    rewrite (gp_cached_hit _ _ _ _ (via X)) by (by rewrite Hc).
    cbn [gp_take gp_next].
    rewrite (gp_cached_hit _ _ _ _ (via Y)) by (by rewrite Hc).
    cbn [gp_take gp_next].
    rewrite gp_cached_miss by (by rewrite Hc).
    rewrite (gp_enter_draw_old _ _ _ _ Hg), E3. done.
  - pose proof (phase_touch _ _ Hph) as Hp0.
    set (st0 := mkState _ _) in Hp0.
    destruct Hp0 as (Hb & Hc & Hg).
    destruct (diamond_draw_3 st0 (conj Hb (conj Hc Hg))) as (st3 & E3 & H3).
    cbn [gp_take]. rewrite (gp_next_created _ _ _ _ Hfind). fold st0.
    rewrite (gp_cached_hit _ _ _ _ (via X)) by (by rewrite Hc).
    cbn [gp_take gp_next].
    rewrite (gp_cached_hit _ _ _ _ (via Y)) by (by rewrite Hc).
    cbn [gp_take gp_next].
    rewrite gp_cached_miss by (by rewrite Hc).
    rewrite (gp_enter_draw_old _ _ _ _ Hg), E3. done.
Qed.

(** A first call on a new chart, pulled [k] times, leaves some phase. *)
Lemma diamond_partial k :
  exists j, phase j (state_of (get_paths fc fresh_state ea k)).
Proof.
  unfold get_paths.
  destruct (diamond_first_next_0 _ phase_fresh) as (st1 & E1 & H1).
  destruct (diamond_draw_1 st1 H1) as (st2 & E2 & H2).
  destruct (diamond_draw_2 st2 H2) as (st3 & E3 & H3).
  destruct k as [|[|[|k]]]; cbn [gp_take].
  - exists 0%nat. apply phase_fresh.
  - exists 1%nat. rewrite E1. exact H1.
  - exists 2%nat. rewrite E1. cbn [gp_take gp_next]. rewrite E2. exact H2.
  - exists 3%nat. rewrite E1. cbn [gp_take gp_next]. rewrite E2.
    cbn [gp_take gp_next]. rewrite E3. exact H3.
Qed.
End DiamondMachine.

Lemma contains_false b ea : end_ea b <= ea -> contains b ea = false.
Proof.
  intros H. unfold contains. apply andb_false_iff. right. by apply Z.ltb_ge.
Qed.

Lemma diamond_find_block b_first sA eA sB eB sC eC sD eD ea :
  eA <= sD -> eB <= sD -> eC <= sD -> sD <= ea < eD ->
  find_block (Samples.diamond b_first sA eA sB eB sC eC sD eD) ea
  = Some (Samples.dD b_first sD eD).
Proof.
  intros HA HB HC HD. unfold find_block. simpl.
  rewrite !contains_false by (simpl; lia).
  by rewrite contains_true.
Qed.

(** C1 (as amended): take the diamond [A -> B], [A -> C], [B -> D],
    [C -> D] in which [A] starts below [B] and [C], and [B] and [C] start
    below [D] (and [A], [B], [C] end before [D] starts).  On a new chart,
    or after an earlier call of [get_paths] for the same address that was
    pulled any number [k] of times, a call of [get_paths] for an address
    inside [D] that is pulled to its end stops after exactly two paths, the
    chains [A,B,D] and [A,C,D], in the order in which the host lists the
    predecessors of [D]. *)
Theorem diamond_paths b_first sA eA sB eB sC eC sD eD ea k n :
  sA < sB -> sA < sC -> sB < sD -> sC < sD ->
  eA <= sD -> eB <= sD -> eC <= sD -> sD <= ea < eD ->
  (3 <= n)%nat ->
  let fc := Samples.diamond b_first sA eA sB eB sC eC sD eD in
  let earlier := get_paths fc fresh_state ea k in
  let r := get_paths fc (state_of earlier) ea n in
  ended_of r = Some GpStop
  /\ map chain (paths_of r)
     = if b_first then [[sA; sB; sD]; [sA; sC; sD]]
       else [[sA; sC; sD]; [sA; sB; sD]].
Proof.
  intros HAB HAC HBD HCD HeA HeB HeC Hea Hn fc earlier r.
  pose proof (diamond_find_block b_first sA eA sB eB sC eC sD eD ea
                HeA HeB HeC Hea) as Hfind.
  destruct b_first.
  - destruct (diamond_partial fc (Samples.dA sA eA) (Samples.dB sB eB)
                (Samples.dC sC eC) (Samples.dD true sD eD)
                eq_refl eq_refl eq_refl eq_refl eq_refl
                HAB HAC HBD HCD ea Hfind k) as [j Hj].
    destruct (diamond_exhaust fc (Samples.dA sA eA) (Samples.dB sB eB)
                (Samples.dC sC eC) (Samples.dD true sD eD)
                eq_refl eq_refl eq_refl eq_refl eq_refl
                HAB HAC HBD HCD ea Hfind j _ n Hj Hn) as [Hp He].
    subst r earlier. rewrite He, Hp. done.
  - destruct (diamond_partial fc (Samples.dA sA eA) (Samples.dC sC eC)
                (Samples.dB sB eB) (Samples.dD false sD eD)
                eq_refl eq_refl eq_refl eq_refl eq_refl
                HAC HAB HCD HBD ea Hfind k) as [j Hj].
    destruct (diamond_exhaust fc (Samples.dA sA eA) (Samples.dC sC eC)
                (Samples.dB sB eB) (Samples.dD false sD eD)
                eq_refl eq_refl eq_refl eq_refl eq_refl
                HAC HAB HCD HBD ea Hfind j _ n Hj Hn) as [Hp He].
    subst r earlier. rewrite He, Hp. done.
Qed.

Lemma diamond_paths_witness :
  ended_of (get_paths Samples.diamond0
              (state_of (get_paths Samples.diamond0 fresh_state 0x1034 1))
              0x1034 3) = Some GpStop
  /\ map chain (paths_of (get_paths Samples.diamond0
              (state_of (get_paths Samples.diamond0 fresh_state 0x1034 1))
              0x1034 3))
     = [[0x1000; 0x1010; 0x1030]; [0x1000; 0x1020; 0x1030]].
Proof.
  apply (diamond_paths true 0x1000 0x1010 0x1010 0x1020 0x1020 0x1030
           0x1030 0x1040 0x1034 1 3); lia.
Defined.

(** C1 fails as stated: in the diamond whose join block [D] is placed
    before [B] and [C], both predecessors of [D] start above [D], neither
    is followed, and [get_paths] for an address in [D] stops without
    yielding any path. *)
Lemma diamond_paths_counterexample :
  find_block Samples.diamond_join_first 0x1014
  = Some (Samples.dD true 0x1010 0x1020)
  /\ preds Samples.diamond_join_first (Samples.dD true 0x1010 0x1020)
     = [Samples.dB 0x1020 0x1030; Samples.dC 0x1030 0x1040]
  /\ paths_of (get_paths Samples.diamond_join_first fresh_state 0x1014 3) = []
  /\ ended_of (get_paths Samples.diamond_join_first fresh_state 0x1014 3)
     = Some GpStop.
Proof. vm_compute. repeat split. Qed.

(** ** Instances *)

Lemma get_paths_prefix_compatible_witness :
  let x := new_PathBlock (Samples.dD true 0x1030 0x1040)
             (Some (new_PathBlock (Samples.dB 0x1010 0x1020)
                (Some (new_PathBlock (Samples.dA 0x1000 0x1010) None)))) in
  let first :=
    get_paths Samples.diamond0
      (state_after Samples.diamond0 [Call 0x1038; Next 0]) 0x1034 1 in
  let second := get_paths Samples.diamond0 (state_of first) 0x1034 2 in
  (paths_of first !! 0%nat = Some x
   /\ paths_of second !! 0%nat = Some (default x (head (paths_of second))))
  /\ x = default x (head (paths_of second)).
Proof.
  intros x first second.
  assert (paths_of first !! 0%nat = Some x) as H1 by (vm_compute; reflexivity).
  assert (paths_of second !! 0%nat = Some (default x (head (paths_of second))))
    as H2 by (vm_compute; reflexivity).
  split; [by split|].
  exact (get_paths_prefix_compatible Samples.diamond0 [Call 0x1038; Next 0]
           0x1034 1 2 0 x _ H1 H2).
Defined.

(** C4 fails as stated: two [get_paths] generators for the same address
    draw from one shared block generator, so when they are pulled in turns
    they split its paths between them.  On the fan, with the pulls in the
    order call 0, call 1, call 1, call 0: call 0 yields [A, B, D] and then
    [A, E, D]; call 1 yields [A, B, D] (from the cache) and then
    [A, C, D]: their second paths differ. *)
Lemma get_paths_prefix_compatible_counterexample :
  (run Samples.fan (fresh_state, [])
     [Call 0x1044; Call 0x1044; Next 0; Next 1; Next 1; Next 0]).2
  = [(0x1044, GpYield (Samples.fan_via Samples.fanB));
     (0x1044, GpYield (Samples.fan_via Samples.fanB));
     (0x1044, GpYield (Samples.fan_via Samples.fanC));
     (0x1044, GpYield (Samples.fan_via Samples.fanE))]
  /\ chain (Samples.fan_via Samples.fanE) = [0x1000; 0x1030; 0x1040]
  /\ chain (Samples.fan_via Samples.fanC) = [0x1000; 0x1020; 0x1040]
  /\ Samples.fan_via Samples.fanE <> Samples.fan_via Samples.fanC.
Proof.
  split; [vm_compute; reflexivity|]. split; [reflexivity|].
  split; [reflexivity|]. intros H. discriminate H.
Qed.

Lemma cpu_context_reuses_work_witness :
  let σ := mkEmu (list Z) [] [] in
  exists r1 p1 σ1 r2 p2 σ2 r p' σ' two one,
    cpu_context (list Z) [] Samples.trace Samples.heads 0xFFFFFFFF
      Samples.path_line (Some 0x1010) σ = inr (Some r1, p1, σ1)
    /\ cpu_context (list Z) [] Samples.trace Samples.heads 0xFFFFFFFF
         p1 (Some 0x1018) σ1 = inr (Some r2, p2, σ2)
    /\ cpu_context (list Z) [] Samples.trace Samples.heads 0xFFFFFFFF
         Samples.path_line (Some 0x1018) σ = inr (Some r, p', σ')
    /\ applied _ σ2
       = applied _ σ1 ++ Heads Samples.heads
                           (next_head Samples.heads 0xFFFFFFFF 0x1010)
                           (next_head Samples.heads 0xFFFFFFFF 0x1018)
    /\ applied _ σ2 = applied _ σ ++ two
    /\ applied _ σ' = applied _ σ ++ one
    /\ length two = length one.
Proof.
  intros σ.
  apply (cpu_context_reuses_work [] Samples.trace Samples.heads 0xFFFFFFFF
           Samples.path_line 0x1010 0x1018 σ).
  - simpl. tauto.
  - simpl. lia.
  - simpl. lia.
  - lia.
  - exact I.
Defined.

(** C6 fails as stated: the claim admits every fill point other than the
    requested end.  Take the path [A, B] through [line] after a request for
    [0x1014], which leaves [B] filled to [0x1018].  A request for [0x1010]
    (end [0x1014], below the fill point) starts [B] over and applies
    [0x1010]; the request for [0x1018] (end [0x101c]) that follows applies
    [0x1014] and [0x1018]: three emulator calls.  The single request for
    [0x1018] on the same path block applies [0x1018] alone. *)
Lemma cpu_context_reuses_work_counterexample :
  let σ := mkEmu (list Z) [] [] in
  exists r0 p0 σ0 r1 p1 σ1 r2 p2 σ2 r p' σ',
    cpu_context (list Z) [] Samples.trace Samples.heads 0xFFFFFFFF
      Samples.path_line (Some 0x1014) σ = inr (r0, p0, σ0)
    /\ _context_ea p0 = Some 0x1018
    /\ wf_path (length (objects _ σ0)) p0
    /\ next_head Samples.heads 0xFFFFFFFF 0x1010 = 0x1014
    /\ next_head Samples.heads 0xFFFFFFFF 0x1018 = 0x101c
    /\ cpu_context (list Z) [] Samples.trace Samples.heads 0xFFFFFFFF
         p0 (Some 0x1010) σ0 = inr (r1, p1, σ1)
    /\ cpu_context (list Z) [] Samples.trace Samples.heads 0xFFFFFFFF
         p1 (Some 0x1018) σ1 = inr (r2, p2, σ2)
    /\ cpu_context (list Z) [] Samples.trace Samples.heads 0xFFFFFFFF
         p0 (Some 0x1018) σ0 = inr (r, p', σ')
    /\ applied _ σ2 = applied _ σ0 ++ [0x1010; 0x1014; 0x1018]
    /\ applied _ σ' = applied _ σ0 ++ [0x1018].
Proof.
  intros σ. do 12 eexists.
  split; [vm_compute; reflexivity|]. split; [reflexivity|].
  split; [simpl; lia|]. split; [reflexivity|]. split; [reflexivity|].
  split; [vm_compute; reflexivity|]. split; [vm_compute; reflexivity|].
  split; [vm_compute; reflexivity|]. split; reflexivity.
Qed.


(** * Further properties *)

(** ** [find_block] *)

(** X1: [find_block] returns a block of the chart that contains the
    address, the first such block in chart order; it returns [None] exactly
    when no block of the chart contains the address. *)
Theorem find_block_spec fc ea :
  match find_block fc ea with
  | Some b =>
      exists i, blocks fc !! i = Some b /\ contains b ea = true
                /\ forall j c, (j < i)%nat -> blocks fc !! j = Some c ->
                               contains c ea = false
  | None => forall c, c ∈ blocks fc -> contains c ea = false
  end.
Proof.
  unfold find_block. induction (blocks fc) as [|b l IH]; simpl.
  - intros c Hc. by inversion Hc.
  - destruct (contains b ea) eqn:E.
    + exists 0%nat. split; [done|]. split; [done|]. intros j c Hj. lia.
    + destruct (find (fun b0 => contains b0 ea) l) as [b'|].
      * destruct IH as (i & Hi & Hc & Hfirst). exists (S i).
        split; [done|]. split; [done|]. intros [|j] c Hj Hl; simpl in Hl.
        -- by simplify_eq.
        -- apply (Hfirst j); [lia|done].
      * intros c Hc. apply elem_of_cons in Hc as [->|Hc]; [done|by apply IH].
Qed.

(** ** Reverse traversal: what is yielded *)

Lemma rev_run_nil dfs fc n : rev_run dfs fc n [] = ([], []).
Proof. by destruct n. Qed.

(** Work list entries below a bound only bring in blocks below it. *)
Lemma rev_run_bounded dfs fc M n : forall nv,
  (forall c, c ∈ nv -> c ∈ blocks fc /\ start_ea c < M) ->
  forall c, c ∈ (rev_run dfs fc n nv).1 -> c ∈ blocks fc /\ start_ea c < M.
Proof.
  induction n as [|n IH]; intros nv Hnv c Hc; simpl in Hc.
  - by inversion Hc.
  - destruct nv as [|cur rest]; simpl in Hc; [by inversion Hc|].
    set (nv' := if dfs then _ else _) in Hc.
    assert (forall c, c ∈ nv' -> c ∈ blocks fc /\ start_ea c < M) as Hnv'.
    { intros d Hd.
      assert (d ∈ followed_preds fc cur \/ d ∈ rest) as [Hd'|Hd'].
      { subst nv'. destruct dfs; apply elem_of_app in Hd; tauto. }
      - apply followed_preds_spec in Hd' as [Hp Hlt].
        split; [by eapply preds_in_chart|].
        destruct (Hnv cur) as [_ Hcur]; [left|]. lia.
      - apply Hnv. by right. }
    specialize (IH nv' Hnv').
    destruct (rev_run dfs fc n nv') as [out nv_end]. simpl in *.
    apply elem_of_cons in Hc as [->|Hc]; [apply Hnv; left|by apply IH].
Qed.

Lemma rev_run_seed dfs fc b n :
  exists out nv,
    rev_run dfs fc (S n) [b] = (b :: out, nv)
    /\ forall c, c ∈ out -> c ∈ blocks fc /\ start_ea c < start_ea b.
Proof.
  simpl. set (nv' := if dfs then _ else _).
  assert (forall c, c ∈ nv' -> c ∈ blocks fc /\ start_ea c < start_ea b) as Hnv'.
  { intros d Hd.
    assert (d ∈ followed_preds fc b) as Hd'.
    { subst nv'. destruct dfs; [by rewrite app_nil_r in Hd|done]. }
    apply followed_preds_spec in Hd' as [Hp Hlt].
    split; [by eapply preds_in_chart|done]. }
  pose proof (rev_run_bounded dfs fc (start_ea b) n nv' Hnv') as H.
  destruct (rev_run dfs fc n nv') as [out nv]. by exists out, nv.
Qed.

(** X2: a reverse traversal (depth-first or breadth-first) started at an
    address inside block [b] yields [b] first, and every block it yields
    afterwards is a block of the chart that starts strictly below [b]; so
    it never comes back to [b] and never yields a block placed after it. *)
Theorem reverse_yields_below_seed fc start b n :
  rev_seed fc start = inr [b] ->
  exists od nd ob nb,
    _dfs_reverse fc start (S n) = inr (b :: od, nd)
    /\ _bfs_reverse fc start (S n) = inr (b :: ob, nb)
    /\ forall c, c ∈ od ++ ob -> c ∈ blocks fc /\ start_ea c < start_ea b.
Proof.
  intros Hseed. unfold _dfs_reverse, _bfs_reverse. rewrite Hseed.
  destruct (rev_run_seed true fc b n) as (od & nd & -> & Hd).
  destruct (rev_run_seed false fc b n) as (ob & nb & -> & Hb).
  exists od, nd, ob, nb. split; [done|]. split; [done|].
  intros c Hc. apply elem_of_app in Hc as [Hc|Hc]; auto.
Qed.

Lemma reverse_yields_below_seed_witness :
  exists od nd ob nb,
    _dfs_reverse Samples.diamond0 (Some 0x1034) 3
    = inr (Samples.dD true 0x1030 0x1040 :: od, nd)
    /\ _bfs_reverse Samples.diamond0 (Some 0x1034) 3
       = inr (Samples.dD true 0x1030 0x1040 :: ob, nb)
    /\ forall c, c ∈ od ++ ob ->
         c ∈ blocks Samples.diamond0 /\ start_ea c < 0x1030.
Proof.
  apply (reverse_yields_below_seed Samples.diamond0 (Some 0x1034)
           (Samples.dD true 0x1030 0x1040) 2).
  reflexivity.
Defined.

(** X3: called without a start address, either reverse traversal yields at
    most one block, a block of least start address, and then stops: it is
    seeded with the last element of the descending sort, and no
    predecessor starts below that block. *)
Theorem reverse_without_start_single fc n :
  exists out,
    _dfs_reverse fc None (S n) = inr (out, [])
    /\ _bfs_reverse fc None (S n) = inr (out, [])
    /\ (length out <= 1)%nat
    /\ forall b, b ∈ out ->
         b ∈ blocks fc /\ forall y, y ∈ blocks fc -> start_ea b <= start_ea y.
Proof.
  unfold _dfs_reverse, _bfs_reverse.
  destruct (rev_seed fc None) as [e|nv] eqn:Hseed; [done|].
  assert (nv = last_slice (sorted_desc (blocks fc))) as Hnv.
  { unfold rev_seed in Hseed. simpl in Hseed. congruence. }
  unfold last_slice in Hnv.
  destruct (last (sorted_desc (blocks fc))) as [b|] eqn:Hlast; subst nv.
  - destruct (rev_seed_least fc b Hseed) as [Hb Hleast].
    assert (followed_preds fc b = []) as Hnone.
    { destruct (followed_preds fc b) as [|p l] eqn:E; [done|].
      assert (p ∈ followed_preds fc b) as Hp by (rewrite E; left).
      apply followed_preds_spec in Hp as [Hp Hlt].
      apply preds_in_chart, Hleast in Hp. lia. }
    exists [b]. simpl. rewrite Hnone. simpl. rewrite !rev_run_nil.
    split; [done|]. split; [done|]. split; [simpl; lia|].
    intros c Hc. apply list_elem_of_singleton in Hc as ->. done.
  - exists []. simpl. split; [done|]. split; [done|]. split; [simpl; lia|].
    intros c Hc. by inversion Hc.
Qed.

(** ** Forward traversal: the loop ends *)

Lemma succs_in_chart fc b c : c ∈ succs fc b -> c ∈ blocks fc.
Proof.
  unfold succs, getitem. intros H.
  apply list_elem_of_omap in H as (i & _ & Hi).
  by apply list_elem_of_lookup_2 in Hi.
Qed.

Lemma length_insert_asc x l : length (insert_asc x l) = S (length l).
Proof.
  induction l as [|y l IH]; simpl; [done|].
  destruct (start_ea x <=? start_ea y); simpl; lia.
Qed.

Lemma length_sorted_asc l : length (sorted_asc l) = length l.
Proof.
  induction l as [|x l IH]; simpl; [done|].
  by rewrite length_insert_asc, IH.
Qed.

Lemma length_omap_le {A B} (f : A -> option B) l :
  (length (omap f l) <= length l)%nat.
Proof.
  induction l as [|x l IH]; csimpl; [lia|]. destruct (f x); csimpl; lia.
Qed.

Lemma succs_length fc b :
  b ∈ blocks fc -> (length (succs fc b) <= max_succs fc)%nat.
Proof.
  intros Hb. unfold succs. etrans; [apply length_omap_le|].
  unfold max_succs. induction (blocks fc) as [|c l IH]; [by inversion Hb|].
  simpl. apply elem_of_cons in Hb as [->|Hb]; [lia|].
  specialize (IH Hb). lia.
Qed.

Lemma fwd_step_None dfs fc start s :
  fwd_step dfs fc start s = None <-> fwd_non_visited s = [].
Proof.
  unfold fwd_step. destruct (fwd_non_visited s); [done|].
  case_bool_decide; done.
Qed.

(** Every iteration lowers the measure and keeps the work list inside the
    chart. *)
Lemma fwd_step_measure dfs fc start s o s' :
  Forall (fun b => b ∈ blocks fc) (fwd_non_visited s) ->
  fwd_step dfs fc start s = Some (o, s') ->
  Forall (fun b => b ∈ blocks fc) (fwd_non_visited s')
  /\ (fwd_measure fc s' < fwd_measure fc s)%nat.
Proof.
  unfold fwd_step, fwd_measure.
  destruct (fwd_non_visited s) as [|cur rest]; [done|].
  intros Hwl. apply Forall_cons in Hwl as [Hcur Hrest].
  case_bool_decide as Hin; intros [= <- <-]; simpl.
  - split; [exact Hrest|lia].
  - assert (Forall (fun b => b ∈ blocks fc) (sorted_asc (succs fc cur))) as Hch.
    { apply Forall_forall. intros c Hc. rewrite elem_of_sorted_asc in Hc.
      exact (succs_in_chart fc cur c Hc). }
    split; [destruct dfs; apply Forall_app; done|].
    assert (start_ea cur ∈ starts fc) as Hst.
    { unfold starts. apply elem_of_list_to_set. by apply list_elem_of_fmap_2. }
    assert (size (starts fc ∖ fwd_visited s)
            = S (size (starts fc ∖ ({[start_ea cur]} ∪ fwd_visited s)))) as ->.
    { assert (starts fc ∖ fwd_visited s
              = {[start_ea cur]} ∪ starts fc ∖ ({[start_ea cur]} ∪ fwd_visited s))
        as ->.
      { apply set_eq. intros x.
        destruct (decide (x = start_ea cur)); set_solver. }
      rewrite size_union by set_solver. by rewrite size_singleton. }
    pose proof (succs_length fc cur Hcur) as Hlen.
    rewrite <- length_sorted_asc in Hlen.
    assert (length (if dfs then sorted_asc (succs fc cur) ++ rest
                    else rest ++ sorted_asc (succs fc cur))
            = (length (sorted_asc (succs fc cur)) + length rest)%nat) as ->.
    { destruct dfs; rewrite length_app; lia. }
    rewrite Nat.mul_succ_r. lia.
Qed.

Lemma fwd_iter_terminates dfs fc start n : forall s,
  Forall (fun b => b ∈ blocks fc) (fwd_non_visited s) ->
  (fwd_measure fc s <= n)%nat ->
  fwd_non_visited (fwd_iter dfs fc start n s) = [].
Proof.
  induction n as [|n IH]; intros s Hwl Hn; simpl.
  - unfold fwd_measure in Hn. destruct (fwd_non_visited s); [done|].
    simpl in Hn. lia.
  - destruct (fwd_step dfs fc start s) as [[o s']|] eqn:E.
    + destruct (fwd_step_measure _ _ _ _ _ _ Hwl E) as [Hwl' Hlt].
      apply IH; [done|lia].
    + exact (proj1 (fwd_step_None _ _ _ _) E).
Qed.

(** Once the loop has been left, more iterations yield nothing more. *)
Lemma fwd_run_stable dfs fc start n : forall s m,
  fwd_non_visited (fwd_iter dfs fc start n s) = [] -> (n <= m)%nat ->
  fwd_run dfs fc start m s = fwd_run dfs fc start n s.
Proof.
  induction n as [|n IH]; intros s m Hend Hm; simpl in *.
  - apply (proj2 (fwd_step_None dfs fc start s)) in Hend.
    destruct m; simpl; [done|]. by rewrite Hend.
  - destruct m as [|m]; [lia|]. simpl.
    destruct (fwd_step dfs fc start s) as [[[b|] s']|] eqn:E; [| |done].
    + f_equal. apply IH; [done|lia].
    + apply IH; [done|lia].
Qed.

Lemma fwd_init_measure fc start s0 :
  fwd_init fc start = inr s0 ->
  Forall (fun b => b ∈ blocks fc) (fwd_non_visited s0)
  /\ (fwd_measure fc s0 <= 1 + (max_succs fc + 2) * size (starts fc))%nat.
Proof.
  unfold fwd_init, getitem.
  destruct (blocks fc !! 0%nat) as [b0|] eqn:E; [|done].
  intros [= <-]. simpl. split.
  - constructor; [|done]. by eapply list_elem_of_lookup_2.
  - unfold fwd_measure. simpl.
    assert (size (starts fc ∖ ∅) <= size (starts fc))%nat
      by (apply subseteq_size; set_solver).
    nia.
Qed.

(** X4: on every chart and for every start address, the loop of [_dfs] and
    of [_bfs] is left after at most [fwd_bound] iterations (one plus the
    number of start addresses times the greatest number of successors plus
    two): the work list is empty then, and running the generator further
    yields nothing more. *)
Theorem forward_traversal_finite fc start m :
  (fwd_bound fc <= m)%nat ->
  _dfs fc start m = _dfs fc start (fwd_bound fc)
  /\ _bfs fc start m = _bfs fc start (fwd_bound fc)
  /\ match fwd_init fc start with
     | inl _ => True
     | inr s0 =>
         fwd_non_visited (fwd_iter true fc start m s0) = []
         /\ fwd_non_visited (fwd_iter false fc start m s0) = []
     end.
Proof.
  intros Hm. unfold _dfs, _bfs.
  destruct (fwd_init fc start) as [e|s0] eqn:E; [done|].
  destruct (fwd_init_measure fc start s0 E) as [Hwl Hle].
  split; [|split; [|split]].
  - f_equal. apply fwd_run_stable; [|done]. by apply fwd_iter_terminates.
  - f_equal. apply fwd_run_stable; [|done]. by apply fwd_iter_terminates.
  - apply fwd_iter_terminates; [done|unfold fwd_bound in Hm; lia].
  - apply fwd_iter_terminates; [done|unfold fwd_bound in Hm; lia].
Qed.

Lemma forward_traversal_finite_witness :
  _dfs Samples.loop (Some 0x1014) 40
  = _dfs Samples.loop (Some 0x1014) (fwd_bound Samples.loop)
  /\ _bfs Samples.loop (Some 0x1014) 40
     = _bfs Samples.loop (Some 0x1014) (fwd_bound Samples.loop)
  /\ fwd_non_visited
       (fwd_iter true Samples.loop (Some 0x1014) 40
          (mkFwd [Samples.loopA] ∅ false)) = []
  /\ fwd_non_visited
       (fwd_iter false Samples.loop (Some 0x1014) 40
          (mkFwd [Samples.loopA] ∅ false)) = [].
Proof.
  apply (forward_traversal_finite Samples.loop (Some 0x1014) 40).
  vm_compute. lia.
Defined.

(** ** Forward traversal with a start address *)

Lemma fwd_run_found dfs fc start n : forall nv v,
  fwd_run dfs fc start n (mkFwd nv v true)
  = fwd_run dfs fc None n (mkFwd nv v true).
Proof.
  induction n as [|n IH]; intros nv v; [done|]. simpl. unfold fwd_step. simpl.
  destruct nv as [|cur rest]; [done|].
  case_bool_decide; [apply IH|]. f_equal. apply IH.
Qed.

Lemma fwd_run_from_first dfs fc ea n : forall nv v,
  fwd_run dfs fc (Some ea) n (mkFwd nv v false)
  = from_first ea (fwd_run dfs fc None n (mkFwd nv v true)).
Proof.
  induction n as [|n IH]; intros nv v; [done|]. simpl. unfold fwd_step. simpl.
  destruct nv as [|cur rest]; [done|].
  case_bool_decide; [apply IH|]. simpl.
  destruct (contains cur ea); [|apply IH].
  f_equal. apply fwd_run_found.
Qed.

(** X5: a forward traversal that is given a start address yields what the
    traversal without a start address yields, from the first block that
    contains the address on (nothing when no yielded block contains it):
    the blocks before it are traversed and marked visited, but not
    yielded. *)
Theorem forward_start_suffix fc ea n :
  match _dfs fc None n, _dfs fc (Some ea) n with
  | inr all, inr out => out = from_first ea all
  | inl e, inl e' => e = e'
  | _, _ => False
  end
  /\ match _bfs fc None n, _bfs fc (Some ea) n with
     | inr all, inr out => out = from_first ea all
     | inl e, inl e' => e = e'
     | _, _ => False
     end.
Proof.
  unfold _dfs, _bfs, fwd_init.
  destruct (getitem fc 0) as [b0|]; [|done].
  split; apply fwd_run_from_first.
Qed.

(** ** Forward traversal: exactly the reachable blocks *)

Lemma reach_in_chart fc b : reach fc b -> b ∈ blocks fc.
Proof.
  intros [b0 H|a c _ H].
  - unfold getitem in H. by eapply list_elem_of_lookup_2.
  - by eapply succs_in_chart.
Qed.

Lemma distinct_starts_eq fc a b :
  distinct_starts fc -> a ∈ blocks fc -> b ∈ blocks fc ->
  start_ea a = start_ea b -> a = b.
Proof.
  unfold distinct_starts. induction (blocks fc) as [|x l IH]; intros Hnd Ha Hb Heq.
  - by inversion Ha.
  - rewrite fmap_cons in Hnd. apply NoDup_cons in Hnd as [Hx Hnd].
    apply elem_of_cons in Ha as [->|Ha]; apply elem_of_cons in Hb as [->|Hb].
    + done.
    + exfalso. apply Hx. rewrite Heq. by apply list_elem_of_fmap_2.
    + exfalso. apply Hx. rewrite <- Heq. by apply list_elem_of_fmap_2.
    + by apply IH.
Qed.

Lemma fwd_step_inv dfs fc P s o s' :
  fwd_inv fc P s -> fwd_block_found s = true ->
  fwd_step dfs fc None s = Some (o, s') ->
  fwd_inv fc (P ++ option_list o) s' /\ fwd_block_found s' = true.
Proof.
  intros (Hv & HP & Hnv & Hsucc & Hentry) Hfound. unfold fwd_step.
  destruct (fwd_non_visited s) as [|cur rest] eqn:Enq; [done|].
  apply Forall_cons in Hnv as [Hcur Hrest].
  case_bool_decide as Hin; intros [= <- <-]; simpl.
  - rewrite app_nil_r. split; [|done]. split; [done|]. split; [done|].
    split; [done|]. simpl. split.
    + intros p c Hp Hc. destruct (Hsucc p c Hp Hc) as [H|H]; [by left|].
      apply elem_of_cons in H as [->|H]; [by left|by right].
    + intros b0 Hb0. destruct (Hentry b0 Hb0) as [H|H]; [by left|].
      apply elem_of_cons in H as [->|H]; [by left|by right].
  - rewrite Hfound. simpl. split; [|done].
    assert (forall c, c ∈ rest \/ c ∈ sorted_asc (succs fc cur) ->
              c ∈ (if dfs then sorted_asc (succs fc cur) ++ rest
                   else rest ++ sorted_asc (succs fc cur))) as Hnew.
    { intros c Hc. destruct dfs; apply elem_of_app; tauto. }
    split; [|split; [|split; [|split]]]; simpl.
    + rewrite Hv, fmap_app, list_to_set_app_L. simpl. set_solver.
    + apply Forall_app. split; [done|]. by constructor.
    + assert (Forall (reach fc) (sorted_asc (succs fc cur))) as Hch.
      { apply Forall_forall. intros c Hc. rewrite elem_of_sorted_asc in Hc.
        by eapply reach_succ. }
      destruct dfs; apply Forall_app; done.
    + intros p c Hp Hc. apply elem_of_app in Hp as [Hp|Hp].
      * destruct (Hsucc p c Hp Hc) as [H|H]; [left; set_solver|].
        apply elem_of_cons in H as [->|H]; [left; set_solver|].
        right. apply Hnew. by left.
      * apply list_elem_of_singleton in Hp as ->.
        right. apply Hnew. right. by rewrite elem_of_sorted_asc.
    + intros b0 Hb0. destruct (Hentry b0 Hb0) as [H|H]; [left; set_solver|].
      apply elem_of_cons in H as [->|H]; [left; set_solver|].
      right. apply Hnew. by left.
Qed.

Lemma fwd_run_inv dfs fc n : forall P s,
  fwd_inv fc P s -> fwd_block_found s = true ->
  fwd_inv fc (P ++ fwd_run dfs fc None n s) (fwd_iter dfs fc None n s).
Proof.
  induction n as [|n IH]; intros P s Hinv Hfound; simpl.
  - by rewrite app_nil_r.
  - destruct (fwd_step dfs fc None s) as [[o s']|] eqn:E.
    + destruct (fwd_step_inv _ _ _ _ _ _ Hinv Hfound E) as [Hinv' Hfound'].
      specialize (IH _ _ Hinv' Hfound').
      destruct o as [b|]; simpl in *.
      * by rewrite <- app_assoc in IH.
      * by rewrite app_nil_r in IH.
    + by rewrite app_nil_r.
Qed.

(** When the loop has been left, the marked blocks are the reachable
    ones. *)
Lemma fwd_inv_end fc P s :
  distinct_starts fc -> fwd_inv fc P s -> fwd_non_visited s = [] ->
  forall b, b ∈ P <-> reach fc b.
Proof.
  intros Hd (Hv & HP & _ & Hsucc & Hentry) Hend b.
  assert (forall a, reach fc a -> start_ea a ∈ fwd_visited s -> a ∈ P) as Hback.
  { intros a Ha Hin. rewrite Hv in Hin.
    apply elem_of_list_to_set, list_elem_of_fmap in Hin as (p & Heq & Hp).
    assert (a = p) as ->; [|done].
    apply (distinct_starts_eq fc); [done|by apply reach_in_chart| |done].
    apply reach_in_chart. by eapply Forall_forall in HP. }
  split; [intros Hb; by eapply Forall_forall in HP|].
  intros Hr. apply Hback; [done|].
  induction Hr as [b0 Hb0|a c Ha IH Hc].
  - destruct (Hentry b0 Hb0) as [H|H]; [done|].
    rewrite Hend in H. by inversion H.
  - destruct (Hsucc a c (Hback a Ha IH) Hc) as [H|H]; [done|].
    rewrite Hend in H. by inversion H.
Qed.

Lemma fwd_all_reachable dfs fc n s0 :
  distinct_starts fc -> (fwd_bound fc <= n)%nat ->
  fwd_init fc None = inr s0 ->
  (forall b, b ∈ fwd_run dfs fc None n s0 <-> reach fc b)
  /\ NoDup (fwd_run dfs fc None n s0).
Proof.
  intros Hd Hn Hinit. split.
  - destruct (fwd_init_measure fc None s0 Hinit) as [Hwl Hle].
    assert (fwd_inv fc [] s0 /\ fwd_block_found s0 = true) as [Hinv Hf].
    { unfold fwd_init in Hinit.
      destruct (getitem fc 0) as [b0|] eqn:E; [|done].
      injection Hinit as <-. split; [|done].
      split; [done|]. split; [done|]. simpl.
      split; [constructor; [by apply reach_entry|done]|].
      split; [intros p c Hp; by inversion Hp|].
      intros b Hb. right. simplify_eq. left. }
    pose proof (fwd_run_inv dfs fc n [] s0 Hinv Hf) as Hend. simpl in Hend.
    apply (fwd_inv_end fc _ _ Hd Hend).
    apply fwd_iter_terminates; [done|]. unfold fwd_bound in Hn. lia.
  - eapply NoDup_fmap_1. apply fwd_run_nodup.
Qed.

(** X6: on a chart whose blocks have pairwise different start addresses,
    a forward traversal without a start address, run until its loop is
    left, yields exactly the blocks that can be reached from the entry
    block [self[0]] along successor edges, each of them once; so [_dfs]
    and [_bfs] yield the same blocks, in a different order at most.  On an
    empty chart both raise. *)
Theorem forward_yields_reachable fc n :
  distinct_starts fc -> (fwd_bound fc <= n)%nat ->
  match _dfs fc None n, _bfs fc None n with
  | inr d, inr b =>
      (forall x, x ∈ d <-> reach fc x) /\ NoDup d /\ NoDup b /\ d ≡ₚ b
  | inl _, inl _ => blocks fc = []
  | _, _ => False
  end.
Proof.
  intros Hd Hn. unfold _dfs, _bfs.
  destruct (fwd_init fc None) as [e|s0] eqn:E.
  - unfold fwd_init, getitem in E. by destruct (blocks fc).
  - destruct (fwd_all_reachable true fc n s0 Hd Hn E) as [H1 N1].
    destruct (fwd_all_reachable false fc n s0 Hd Hn E) as [H2 N2].
    split; [done|]. split; [done|]. split; [done|].
    apply NoDup_Permutation; [done|done|].
    intros x. by rewrite H1, H2.
Qed.

Lemma forward_yields_reachable_witness :
  match _dfs Samples.diamond0 None 20, _bfs Samples.diamond0 None 20 with
  | inr d, inr b =>
      (forall x, x ∈ d <-> reach Samples.diamond0 x)
      /\ NoDup d /\ NoDup b /\ d ≡ₚ b
  | inl _, inl _ => blocks Samples.diamond0 = []
  | _, _ => False
  end.
Proof.
  apply (forward_yields_reachable Samples.diamond0 20).
  - unfold distinct_starts. vm_compute.
    repeat (constructor; [set_solver|]). constructor.
  - vm_compute. lia.
Defined.

(** ** Iterating over instructions *)

Lemma fwd_run_in_chart dfs fc start n : forall s,
  Forall (fun b => b ∈ blocks fc) (fwd_non_visited s) ->
  forall b, b ∈ fwd_run dfs fc start n s -> b ∈ blocks fc.
Proof.
  induction n as [|n IH]; intros s Hwl b Hb; simpl in Hb; [by inversion Hb|].
  destruct (fwd_step dfs fc start s) as [[o s']|] eqn:E; [|by inversion Hb].
  destruct (fwd_step_measure _ _ _ _ _ _ Hwl E) as [Hwl' _].
  assert (forall c, o = Some c -> c ∈ blocks fc) as Ho.
  { intros c ->. unfold fwd_step in E.
    destruct (fwd_non_visited s) as [|cur rest]; [done|].
    apply Forall_cons in Hwl as [Hcur _].
    case_bool_decide; [done|]. by repeat case_match; simplify_eq. }
  destruct o as [c|]; [|by eapply IH].
  apply elem_of_cons in Hb as [->|Hb]; [by apply Ho|by eapply IH].
Qed.

Lemma from_first_head ea l b l' :
  from_first ea l = b :: l' -> contains b ea = true.
Proof.
  induction l as [|x l IH]; simpl; [done|].
  destruct (contains x ea) eqn:E; [|done]. by intros [= <- <-].
Qed.

Lemma find_block_contains fc ea b :
  find_block fc ea = Some b -> contains b ea = true.
Proof. unfold find_block. intros H. by apply find_some in H as [_ H]. Qed.

Lemma contains_spec b a :
  contains b a = true <-> start_ea b <= a < end_ea b.
Proof.
  unfold contains. rewrite andb_true_iff, Z.leb_le, Z.ltb_lt. done.
Qed.

Lemma elem_of_Heads heads s e h :
  h ∈ Heads heads s e <-> h ∈ heads /\ s <= h < e.
Proof. unfold Heads. rewrite list_elem_of_filter. tauto. Qed.

Lemma elem_of_rev {A} (x : A) l : x ∈ rev l <-> x ∈ l.
Proof. rewrite rev_alt. apply elem_of_reverse. Qed.

(** The blocks an iteration yields: all are blocks of the chart, and with
    a start address that counts as given the first one contains it. *)
Lemma iter_blocks_spec fc start reverse n bs :
  dfs_iter_blocks fc start reverse n = inr bs
  \/ bfs_iter_blocks fc start reverse n = inr bs ->
  (forall b, b ∈ bs -> b ∈ blocks fc)
  /\ (truthy start = true ->
      forall b, head bs = Some b -> contains b (default 0 start) = true)
  /\ (reverse = true ->
      forall b out c, bs = b :: out -> c ∈ out -> start_ea c < start_ea b).
Proof.
  unfold dfs_iter_blocks, bfs_iter_blocks, _dfs, _bfs, _dfs_reverse,
    _bfs_reverse.
  destruct reverse.
  - intros H.
    assert (exists dfs nv, rev_seed fc start = inr nv
                           /\ bs = (rev_run dfs fc n nv).1) as (dfs & nv & Hs & ->).
    { destruct (rev_seed fc start) as [e|nv]; [by destruct H|].
      destruct H as [H|H]; [exists true, nv|exists false, nv];
        (split; [done|]); by destruct (rev_run _ fc n nv); simplify_eq. }
    assert (forall c, c ∈ nv -> c ∈ blocks fc) as Hnv.
    { intros c Hc. unfold rev_seed in Hs.
      destruct (truthy start).
      - destruct (find_block fc (default 0 start)) as [b|] eqn:E; [|done].
        injection Hs as <-. apply list_elem_of_singleton in Hc as ->.
        by eapply find_block_in.
      - injection Hs as <-. unfold last_slice in Hc.
        destruct (last (sorted_desc (blocks fc))) as [b|] eqn:E;
          [|by inversion Hc].
        apply list_elem_of_singleton in Hc as ->.
        apply last_Some_elem_of in E. by rewrite elem_of_sorted_desc in E. }
    assert (exists m, forall c, c ∈ nv -> start_ea c < m) as [m Hm].
    { clear. induction nv as [|x l [m IH]]; [exists 0; intros c Hc; by inversion Hc|].
      exists (Z.max m (start_ea x + 1)). intros c Hc.
      apply elem_of_cons in Hc as [->|Hc]; [lia|]. specialize (IH c Hc). lia. }
    split; [|split].
    + intros b Hb.
      apply (rev_run_bounded dfs fc m n nv); [|done].
      intros c Hc. split; [by apply Hnv|by apply Hm].
    + intros Ht b Hb. unfold rev_seed in Hs. rewrite Ht in Hs.
      destruct (find_block fc (default 0 start)) as [b'|] eqn:E; [|done].
      injection Hs as <-. destruct n; [done|]. simpl in Hb.
      destruct (rev_run dfs fc n _). simpl in Hb. injection Hb as <-.
      by eapply find_block_contains.
    + intros _ b out c Hb Hc.
      assert (exists b', nv = [b'] \/ nv = []) as [b' [->| ->]].
      { unfold rev_seed in Hs. destruct (truthy start).
        - destruct (find_block fc (default 0 start)) as [b'|]; [|done].
          exists b'. left. congruence.
        - injection Hs as <-. unfold last_slice.
          destruct (last (sorted_desc (blocks fc))) as [b'|];
            [exists b'; by left|exists b; by right]. }
      * destruct n; [done|].
        destruct (rev_run_seed dfs fc b' n) as (out' & nv' & Hrun & Hout).
        rewrite Hrun in Hb. simpl in Hb. injection Hb as <- <-.
        by apply Hout in Hc as [_ Hc].
      * by rewrite rev_run_nil in Hb.
  - intros H.
    assert (exists dfs s0, fwd_init fc start = inr s0
                           /\ bs = fwd_run dfs fc start n s0) as (dfs & s0 & Hs & ->).
    { destruct (fwd_init fc start) as [e|s0]; [by destruct H|].
      destruct H as [H|H]; [exists true, s0|exists false, s0];
        by simplify_eq. }
    split; [|split; [|done]].
    + apply fwd_run_in_chart. by apply (fwd_init_measure fc start s0).
    + intros Ht b Hb. destruct start as [ea|]; [|done]. simpl.
      unfold fwd_init in Hs. destruct (getitem fc 0) as [b0|]; [|done].
      injection Hs as <-. rewrite fwd_run_from_first in Hb.
      destruct (from_first ea _) as [|b' l] eqn:E; [done|].
      injection Hb as <-. by eapply from_first_head.
Qed.

Lemma iter_heads_spec heads reverse start bs : forall first,
  (first = true -> truthy start = true ->
   forall b, head bs = Some b -> contains b (default 0 start) = true) ->
  forall h, h ∈ iter_heads heads reverse start first bs ->
    h ∈ heads /\ exists b, b ∈ bs /\ contains b h = true.
Proof.
  induction bs as [|cur bs IH]; intros first Hfirst h Hh; simpl in Hh;
    [by inversion Hh|].
  apply elem_of_app in Hh as [Hh|Hh].
  - assert (h ∈ heads /\ contains cur h = true) as [H1 H2];
      [|split; [done|exists cur; split; [left|done]]].
    unfold block_heads in Hh.
    destruct (truthy start && first) eqn:E.
    + apply andb_true_iff in E as [Ht ->].
      specialize (Hfirst eq_refl Ht cur eq_refl).
      apply contains_spec in Hfirst.
      destruct reverse; [rewrite elem_of_rev in Hh|];
        apply elem_of_Heads in Hh as [Hin Hr];
        (split; [done|]); apply contains_spec; lia.
    + destruct reverse; [rewrite elem_of_rev in Hh|];
        apply elem_of_Heads in Hh as [Hin Hr];
        (split; [done|]); by apply contains_spec.
  - destruct (IH false) with (h := h) as (H1 & b & Hb & Hc); [done|done|].
    split; [done|]. exists b. split; [by right|done].
Qed.

(** X7: every address yielded by [dfs_iter_heads] or [bfs_iter_heads],
    in either direction and with or without a start address, is an
    instruction head that lies inside one of the blocks the block
    iteration yields, and these are blocks of the chart; the heads
    iteration raises exactly when the block iteration does. *)
Theorem iter_heads_in_blocks heads fc start reverse n :
  match dfs_iter_blocks fc start reverse n,
        dfs_iter_heads heads fc start reverse n with
  | inr bs, inr hs =>
      forall h, h ∈ hs ->
        h ∈ heads
        /\ exists b, b ∈ bs /\ b ∈ blocks fc /\ contains b h = true
  | inl e, inl e' => e = e'
  | _, _ => False
  end
  /\ match bfs_iter_blocks fc start reverse n,
           bfs_iter_heads heads fc start reverse n with
     | inr bs, inr hs =>
         forall h, h ∈ hs ->
           h ∈ heads
           /\ exists b, b ∈ bs /\ b ∈ blocks fc /\ contains b h = true
     | inl e, inl e' => e = e'
     | _, _ => False
     end.
Proof.
  unfold dfs_iter_heads, bfs_iter_heads. split.
  - destruct (dfs_iter_blocks fc start reverse n) as [e|bs] eqn:E; [done|].
    destruct (iter_blocks_spec fc start reverse n bs (or_introl E))
      as (Hin & Hfirst & _).
    intros h Hh.
    destruct (iter_heads_spec heads reverse start bs true (fun _ => Hfirst) h Hh)
      as (H1 & b & Hb & Hc).
    split; [done|]. exists b. auto.
  - destruct (bfs_iter_blocks fc start reverse n) as [e|bs] eqn:E; [done|].
    destruct (iter_blocks_spec fc start reverse n bs (or_intror E))
      as (Hin & Hfirst & _).
    intros h Hh.
    destruct (iter_heads_spec heads reverse start bs true (fun _ => Hfirst) h Hh)
      as (H1 & b & Hb & Hc).
    split; [done|]. exists b. auto.
Qed.

(** X8: the two directions treat the start address differently.  On a
    chart whose blocks do not overlap, a reverse heads iteration from a
    (non-zero) address [ea] yields only addresses strictly below [ea]: the
    instruction at [ea] itself is left out.  A forward heads iteration from
    [ea] whose block iteration yields anything does yield [ea], when [ea]
    is an instruction head. *)
Theorem heads_at_start_address heads fc ea n :
  ea <> 0 -> no_overlap fc ->
  (forall hs,
     dfs_iter_heads heads fc (Some ea) true n = inr hs
     \/ bfs_iter_heads heads fc (Some ea) true n = inr hs ->
     forall h, h ∈ hs -> h < ea)
  /\ (forall b bs hs,
        ea ∈ heads ->
        (dfs_iter_blocks fc (Some ea) false n = inr (b :: bs)
         /\ dfs_iter_heads heads fc (Some ea) false n = inr hs)
        \/ (bfs_iter_blocks fc (Some ea) false n = inr (b :: bs)
            /\ bfs_iter_heads heads fc (Some ea) false n = inr hs) ->
        ea ∈ hs).
Proof.
  intros Hea Hno.
  assert (truthy (Some ea) = true) as Ht.
  { simpl. apply negb_true_iff. by apply Z.eqb_neq. }
  split.
  - intros hs Hhs.
    assert (exists bs,
      (dfs_iter_blocks fc (Some ea) true n = inr bs
       \/ bfs_iter_blocks fc (Some ea) true n = inr bs)
      /\ hs = iter_heads heads true (Some ea) true bs) as (bs & Hbs & ->).
    { unfold dfs_iter_heads, bfs_iter_heads in Hhs.
      destruct Hhs as [H|H].
      - destruct (dfs_iter_blocks fc (Some ea) true n) as [e|bs]; [done|].
        exists bs. split; [by left|congruence].
      - destruct (bfs_iter_blocks fc (Some ea) true n) as [e|bs]; [done|].
        exists bs. split; [by right|congruence]. }
    destruct (iter_blocks_spec fc (Some ea) true n bs Hbs)
      as (Hin & Hfirst & Hbelow).
    destruct bs as [|b out]; simpl; [intros h Hh; by inversion Hh|].
    specialize (Hfirst Ht b eq_refl). apply contains_spec in Hfirst.
    simpl in Hfirst. specialize (Hbelow eq_refl b out).
    intros h Hh. apply elem_of_app in Hh as [Hh|Hh].
    + unfold block_heads in Hh. simpl in Hh, Ht. rewrite Ht in Hh.
      simpl in Hh. rewrite elem_of_rev in Hh. apply elem_of_Heads in Hh. lia.
    + destruct (iter_heads_spec heads true (Some ea) out false) with (h := h)
        as (_ & c & Hc & Hch); [done|done|].
      apply contains_spec in Hch.
      assert (end_ea c <= start_ea b); [|lia].
      apply Hno; [apply Hin; by right|apply Hin; left|by eapply Hbelow].
  - intros b bs hs Hhead H.
    assert ((dfs_iter_blocks fc (Some ea) false n = inr (b :: bs)
             \/ bfs_iter_blocks fc (Some ea) false n = inr (b :: bs))
            /\ hs = iter_heads heads false (Some ea) true (b :: bs))
      as (Hbs & ->).
    { unfold dfs_iter_heads, bfs_iter_heads in H.
      destruct H as [[H1 H2]|[H1 H2]]; rewrite H1 in H2;
        (split; [auto|congruence]). }
    destruct (iter_blocks_spec fc (Some ea) false n _ Hbs) as (_ & Hfirst & _).
    specialize (Hfirst Ht b eq_refl). apply contains_spec in Hfirst.
    simpl in Hfirst. simpl. apply elem_of_app. left.
    unfold block_heads. simpl in *. rewrite Ht. simpl.
    apply elem_of_Heads. split; [done|lia].
Qed.

Lemma heads_at_start_address_witness :
  (forall hs,
     dfs_iter_heads Samples.heads Samples.line (Some 0x1014) true 5 = inr hs
     \/ bfs_iter_heads Samples.heads Samples.line (Some 0x1014) true 5 = inr hs ->
     forall h, h ∈ hs -> h < 0x1014)
  /\ (forall b bs hs,
        0x1014 ∈ Samples.heads ->
        (dfs_iter_blocks Samples.line (Some 0x1014) false 5 = inr (b :: bs)
         /\ dfs_iter_heads Samples.heads Samples.line (Some 0x1014) false 5
            = inr hs)
        \/ (bfs_iter_blocks Samples.line (Some 0x1014) false 5 = inr (b :: bs)
            /\ bfs_iter_heads Samples.heads Samples.line (Some 0x1014) false 5
               = inr hs) ->
        0x1014 ∈ hs).
Proof.
  apply (heads_at_start_address Samples.heads Samples.line 0x1014 5).
  - lia.
  - intros a b Ha Hb.
    apply elem_of_cons in Ha as [->|Ha];
      [|apply list_elem_of_singleton in Ha as ->];
      (apply elem_of_cons in Hb as [->|Hb];
        [|apply list_elem_of_singleton in Hb as ->]); simpl; lia.
Defined.

(** ** [paths_to_ea] *)

Lemma paths_to_ea_unfold fuel fc ea cur visited cur_path :
  _paths_to_ea (S fuel) fc ea cur visited cur_path
  = match traverse_with
            (fun block => _paths_to_ea fuel fc ea block
                            ({[start_ea cur]} ∪ visited) (cur_path ++ [cur]))
            ({[start_ea cur]} ∪ visited) (succs fc cur) with
    | Some below =>
        Some ((if contains cur ea then [cur_path ++ [cur]] else []) ++ below)
    | None => None
    end.
Proof.
  simpl. induction (succs fc cur) as [|b l IH]; [done|].
  simpl. case_bool_decide; [done|].
  destruct (_paths_to_ea fuel fc ea b _ _); [|done].
  match goal with
  | |- context [traverse_with ?r ?v l] => destruct (traverse_with r v l)
  end.
  - match type of IH with
    | match ?t with _ => _ end = _ => destruct t
    end; [|done]. simplify_eq. done.
  - match type of IH with
    | match ?t with _ => _ end = _ => destruct t
    end; [done|]. done.
Qed.

Lemma traverse_with_total rec visited next :
  (forall b, b ∈ next -> start_ea b ∉ visited -> is_Some (rec b)) ->
  is_Some (traverse_with rec visited next).
Proof.
  induction next as [|b l IH]; intros Hrec; simpl; [done|].
  assert (is_Some (traverse_with rec visited l)) as [later Hl].
  { apply IH. intros c Hc. apply Hrec. by right. }
  case_bool_decide as Hin; [done|].
  destruct (Hrec b) as [here Hh]; [left|done|]. by rewrite Hh, Hl.
Qed.

Lemma traverse_with_spec rec visited next res :
  traverse_with rec visited next = Some res ->
  (forall p, p ∈ res ->
     exists b here, b ∈ next /\ (start_ea b ∉ visited)
                    /\ rec b = Some here /\ p ∈ here)
  /\ (forall b, b ∈ next -> start_ea b ∉ visited ->
        exists here, rec b = Some here /\ forall p, p ∈ here -> p ∈ res).
Proof.
  revert res. induction next as [|b l IH]; intros res; simpl.
  - intros [= <-]. split; [intros p Hp; by inversion Hp|intros b Hb; by inversion Hb].
  - case_bool_decide as Hin.
    + intros Hl. destruct (IH res Hl) as [H1 H2]. split.
      * intros p Hp. destruct (H1 p Hp) as (c & here & Hc & ?).
        exists c, here. split; [by right|done].
      * intros c Hc Hv. apply elem_of_cons in Hc as [->|Hc]; [done|].
        by apply H2.
    + destruct (rec b) as [here|] eqn:Hh; [|done].
      destruct (traverse_with rec visited l) as [later|]; [|done].
      intros [= <-]. destruct (IH later eq_refl) as [H1 H2]. split.
      * intros p Hp. apply elem_of_app in Hp as [Hp|Hp].
        -- exists b, here. split; [left|done].
        -- destruct (H1 p Hp) as (c & here' & Hc & ?).
           exists c, here'. split; [by right|done].
      * intros c Hc Hv. apply elem_of_cons in Hc as [->|Hc].
        -- exists here. split; [done|]. intros p Hp. apply elem_of_app. by left.
        -- destruct (H2 c Hc Hv) as (here' & ? & Hsub).
           exists here'. split; [done|]. intros p Hp.
           apply elem_of_app. right. by apply Hsub.
Qed.

Lemma size_starts_le fc : (size (starts fc) <= length (blocks fc))%nat.
Proof.
  unfold starts. induction (blocks fc) as [|b l IH].
  - change (size (∅ : gset Z) <= 0)%nat. by rewrite size_empty.
  - rewrite fmap_cons. simpl. rewrite size_union_alt, size_singleton.
    assert (size (list_to_set (start_ea <$> l) ∖ {[start_ea b]} : gset Z)
            <= size (list_to_set (start_ea <$> l) : gset Z))%nat
      by (apply subseteq_size; set_solver).
    lia.
Qed.

(** The recursion is never deeper than the number of start addresses not
    yet on the path. *)
Lemma paths_to_ea_total fc ea fuel : forall cur visited cur_path,
  cur ∈ blocks fc -> start_ea cur ∉ visited ->
  (size (starts fc ∖ visited) <= fuel)%nat ->
  is_Some (_paths_to_ea fuel fc ea cur visited cur_path).
Proof.
  induction fuel as [|fuel IH]; intros cur visited cur_path Hcur Hnew Hfuel.
  - assert (start_ea cur ∈ starts fc ∖ visited) as Hin.
    { apply elem_of_difference. split; [|done].
      unfold starts. apply elem_of_list_to_set. by apply list_elem_of_fmap_2. }
    apply Nat.le_0_r, size_empty_iff in Hfuel. set_solver.
  - rewrite paths_to_ea_unfold.
    destruct (traverse_with_total
                (fun block => _paths_to_ea fuel fc ea block
                                ({[start_ea cur]} ∪ visited) (cur_path ++ [cur]))
                ({[start_ea cur]} ∪ visited) (succs fc cur)) as [below ->];
      [|done].
    intros b Hb Hv. apply IH; [by eapply succs_in_chart|done|].
    assert (start_ea cur ∈ starts fc) as Hst.
    { unfold starts. apply elem_of_list_to_set. by apply list_elem_of_fmap_2. }
    assert (starts fc ∖ visited
            = {[start_ea cur]} ∪ starts fc ∖ ({[start_ea cur]} ∪ visited)) as Heq.
    { apply set_eq. intros x. destruct (decide (x = start_ea cur)); set_solver. }
    rewrite Heq, size_union, size_singleton in Hfuel by set_solver. lia.
Qed.

Lemma paths_to_ea_paths fc ea fuel : forall cur visited cur_path res,
  _paths_to_ea fuel fc ea cur visited cur_path = Some res ->
  forall p, p ∈ res <->
    exists tail,
      p = cur_path ++ cur :: tail
      /\ linked fc (cur :: tail)
      /\ (exists b, last (cur :: tail) = Some b /\ contains b ea = true)
      /\ NoDup (start_ea <$> cur :: tail)
      /\ forall x, x ∈ tail -> start_ea x ∉ visited.
Proof.
  induction fuel as [|fuel IH]; intros cur visited cur_path res; [done|].
  rewrite paths_to_ea_unfold.
  destruct (traverse_with _ _ _) as [below|] eqn:Ht; [|done].
  intros [= <-] p.
  destruct (traverse_with_spec _ _ _ _ Ht) as [Hfrom Hto]. split.
  - intros Hp. apply elem_of_app in Hp as [Hp|Hp].
    + destruct (contains cur ea) eqn:Hc; [|by inversion Hp].
      apply list_elem_of_singleton in Hp as ->. exists [].
      split; [done|]. split; [done|]. split; [by exists cur|].
      split; [apply NoDup_singleton|]. intros x Hx. by inversion Hx.
    + destruct (Hfrom p Hp) as (b & here & Hb & Hv & Hrec & Hhere).
      apply (IH _ _ _ _ Hrec) in Hhere
        as (tail & -> & Hl & Hlast & Hnd & Hdis).
      exists (b :: tail). split; [by rewrite <- app_assoc|].
      split; [done|]. split; [done|]. split.
      * rewrite fmap_cons. apply NoDup_cons. split; [|done].
        intros Hin. apply list_elem_of_fmap in Hin as (x & Heq & Hx).
        apply elem_of_cons in Hx as [->|Hx]; [set_solver|].
        apply Hdis in Hx. set_solver.
      * intros x Hx. apply elem_of_cons in Hx as [->|Hx]; [set_solver|].
        apply Hdis in Hx. set_solver.
  - intros (tail & -> & Hl & Hlast & Hnd & Hdis). apply elem_of_app.
    destruct tail as [|b tail].
    + left. destruct Hlast as (b & [= <-] & ->). left.
    + right. destruct Hl as [Hb Hl].
      rewrite !fmap_cons in Hnd. apply NoDup_cons in Hnd as [Hcur Hnd].
      assert (start_ea b ∉ ({[start_ea cur]} ∪ visited : gset Z)) as Hv.
      { intros Hin. apply elem_of_union in Hin as [Hin|Hin].
        - apply elem_of_singleton in Hin. apply Hcur. rewrite <- Hin. left.
        - by apply (Hdis b); [left|]. }
      destruct (Hto b Hb Hv) as (here & Hrec & Hsub).
      apply Hsub. apply (IH _ _ _ _ Hrec).
      exists tail. split; [by rewrite <- app_assoc|].
      split; [done|]. split; [done|]. split; [done|].
      intros x Hx Hin. apply elem_of_union in Hin as [Hin|Hin].
      * apply elem_of_singleton in Hin. apply Hcur. rewrite <- Hin.
        right. by apply list_elem_of_fmap_2.
      * by apply (Hdis x); [right|].
Qed.

Lemma paths_to_ea_char fc ea b0 :
  getitem fc 0 = Some b0 ->
  exists paths,
    _paths_to_ea (S (length (blocks fc))) fc ea b0 ∅ [] = Some paths
    /\ forall p, p ∈ paths <-> simple_path_to fc b0 ea p.
Proof.
  intros Hb0.
  destruct (paths_to_ea_total fc ea (S (length (blocks fc))) b0 ∅ [])
    as [paths Hp].
  { unfold getitem in Hb0. by eapply list_elem_of_lookup_2. }
  { set_solver. }
  { pose proof (size_starts_le fc).
    assert (size (starts fc ∖ ∅) <= size (starts fc))%nat
      by (apply subseteq_size; set_solver).
    lia. }
  exists paths. split; [done|]. intros p.
  rewrite (paths_to_ea_paths _ _ _ _ _ _ _ Hp p). unfold simple_path_to.
  split.
  - intros (tail & -> & Hl & Hlast & Hnd & _). done.
  - intros (Hhead & Hl & Hlast & Hnd). destruct p as [|b tail]; [done|].
    injection Hhead as ->. exists tail. split; [done|].
    split; [done|]. split; [done|]. split; [done|]. set_solver.
Qed.

(** X9: for an address inside the function bounds, [paths_to_ea] yields
    exactly the simple paths from the entry block [self[0]] to a block that
    contains the address: lists of blocks that start with the entry block,
    follow successor edges, end in a block containing the address and
    repeat no start address.  The recursion ends on every chart, loops
    included.  Outside the function bounds it raises [ValueError], and on
    an empty chart [KeyError]. *)
Theorem paths_to_ea_simple_paths fc ea :
  match paths_to_ea fc ea with
  | inl e =>
      if bool_decide (f_start_ea fc <= ea < f_end_ea fc)
      then e = KeyError /\ blocks fc = []
      else e = ValueError
  | inr r =>
      f_start_ea fc <= ea < f_end_ea fc
      /\ exists b0 paths,
           getitem fc 0 = Some b0 /\ r = Some paths
           /\ forall p, p ∈ paths <-> simple_path_to fc b0 ea p
  end.
Proof.
  unfold paths_to_ea.
  destruct (Z.leb_spec (f_start_ea fc) ea) as [H1|H1]; simpl;
    [|by rewrite bool_decide_false by lia].
  destruct (Z.ltb_spec ea (f_end_ea fc)) as [H2|H2]; simpl;
    [|by rewrite bool_decide_false by lia].
  destruct (getitem fc 0) as [b0|] eqn:Hb0.
  - split; [lia|].
    destruct (paths_to_ea_char fc ea b0 Hb0) as (paths & Hp & Hchar).
    by exists b0, paths.
  - rewrite bool_decide_true by lia. split; [done|].
    unfold getitem in Hb0. by destruct (blocks fc).
Qed.

(** ** The path cache only grows *)

Lemma gp_draw_grows fc st b k :
  let st' := (gp_draw fc st b).1.1 in
  cache_get (_path_cache st) k `prefix_of` cache_get (_path_cache st') k
  /\ (is_Some (_gen_cache st !! k) -> is_Some (_gen_cache st' !! k)).
Proof.
  unfold gp_draw. destruct (_gen_cache st !! start_ea b) as [g|] eqn:E; [|done].
  destruct (gen_next fc (_path_cache st) g) as [g' r].
  assert (is_Some (_gen_cache st !! k) ->
          is_Some (<[start_ea b := g']> (_gen_cache st) !! k)) as Hg.
  { intros H. destruct (decide (start_ea b = k)) as [<-|Hne].
    - by rewrite lookup_insert_eq.
    - by rewrite lookup_insert_ne. }
  destruct r as [p| | |]; simpl; try done.
  split; [|done]. destruct (decide (start_ea (bb p) = k)) as [<-|Hne].
  - rewrite cache_get_append_eq. by apply prefix_app_r.
  - by rewrite cache_get_append_ne.
Qed.

Lemma gp_next_grows fc st g k :
  let st' := (gp_next fc st g).1.1 in
  cache_get (_path_cache st) k `prefix_of` cache_get (_path_cache st') k
  /\ (is_Some (_gen_cache st !! k) -> is_Some (_gen_cache st' !! k)).
Proof.
  assert (forall st b,
    let st' := (gp_enter_draw fc st b).1.1 in
    cache_get (_path_cache st) k `prefix_of` cache_get (_path_cache st') k
    /\ (is_Some (_gen_cache st !! k) -> is_Some (_gen_cache st' !! k)))
    as Henter.
  { clear. intros st b. unfold gp_enter_draw.
    destruct (_gen_cache st !! start_ea b) as [g|] eqn:E;
      [apply gp_draw_grows|].
    match goal with
    | |- context [gp_draw fc ?s b] =>
        destruct (gp_draw_grows fc s b k) as [H1 H2]
    end.
    split; [done|]. intros H. apply H2. simpl.
    destruct (decide (start_ea b = k)) as [<-|Hne].
    - by rewrite lookup_insert_eq.
    - by rewrite lookup_insert_ne. }
  assert (forall st b i,
    let st' := (gp_cached fc st b i).1.1 in
    cache_get (_path_cache st) k `prefix_of` cache_get (_path_cache st') k
    /\ (is_Some (_gen_cache st !! k) -> is_Some (_gen_cache st' !! k)))
    as Hcached.
  { intros st0 b i. unfold gp_cached.
    destruct (cache_get (_path_cache st0) (start_ea b) !! i); [done|].
    apply Henter. }
  destruct g as [ea|b i|b|]; simpl.
  - destruct (find_block fc ea) as [b|]; [|done].
    match goal with
    | |- context [gp_cached fc ?s b 0] =>
        destruct (Hcached s b 0%nat) as [H1 H2]
    end.
    simpl in H1, H2. by rewrite cache_get_touch in H1.
  - apply Hcached.
  - apply gp_draw_grows.
  - done.
Qed.

Lemma act_grows fc c a k :
  cache_get (_path_cache c.1) k
    `prefix_of` cache_get (_path_cache (act fc c a).1.1) k
  /\ (is_Some (_gen_cache c.1 !! k) ->
      is_Some (_gen_cache (act fc c a).1.1 !! k)).
Proof.
  destruct a as [ea|i]; simpl; [done|].
  destruct (c.2 !! i) as [[ea g]|]; [|done].
  pose proof (gp_next_grows fc c.1 g k) as H.
  by destruct (gp_next fc c.1 g) as [[st' g'] r].
Qed.

(** X10: whatever a client does (new [get_paths] calls, [next] on any of
    its generators, in any order), the list of paths cached for a block
    only grows at its end: the paths cached before stay, in the same
    order and at the same positions; and a stored block generator is
    never removed. *)
Theorem path_cache_only_grows fc (l : list action) c k :
  cache_get (_path_cache c.1) k
    `prefix_of` cache_get (_path_cache (run fc c l).1.1) k
  /\ (is_Some (_gen_cache c.1 !! k) ->
      is_Some (_gen_cache (run fc c l).1.1 !! k)).
Proof.
  revert c. induction l as [|a l IH]; intros c; simpl; [done|].
  pose proof (act_grows fc c a k) as [H1 H2].
  destruct (act fc c a) as [c' o]. simpl in *.
  specialize (IH c') as [H3 H4].
  destruct (run fc c' l) as [c'' out]. simpl in *.
  split; [by etrans|auto].
Qed.

(** ** The yielded chains are paths of the graph *)

Section ChainFacts.
Variable fc : FlowChart.
Variable cache : path_cache_t.
Hypothesis Hcache : cache_ok fc cache.
Hypothesis Hchain : cache_chain fc cache.

Lemma iter_cache_chain cur i v : chain_post fc (iter_cache cache cur i v).
Proof.
  unfold iter_cache.
  destruct (cache_get cache (start_ea cur) !! i) as [p|] eqn:E.
  - simpl. split; [|done]. eapply Hchain. by eapply list_elem_of_lookup_2.
  - unfold finish. by case_bool_decide.
Qed.

Lemma loop_parents_chain start v0 cur rest :
  (forall block v,
     block ∈ blocks fc -> start_ea block < start_ea cur ->
     start_ea block ∉ v ->
     post fc v block (start block v) /\ chain_post fc (start block v)) ->
  cur ∈ blocks fc -> start_ea cur ∉ v0 ->
  Forall (fun b => b ∈ preds fc cur) rest ->
  chain_post fc (loop_parents start cur rest ({[start_ea cur]} ∪ v0)).
Proof.
  intros Hstart Hcur Hnew. induction rest as [|block rest IH]; intros Hrest.
  - simpl. unfold finish. by case_bool_decide.
  - apply Forall_cons in Hrest as [Hblock Hrest]. simpl.
    case_bool_decide as Hin; simpl; [by apply IH|].
    destruct (Z.gtb_spec (start_ea block) (start_ea cur)) as [Hgt|Hle];
      [by apply IH|].
    assert (start_ea block < start_ea cur) as Hlt by set_solver by lia.
    destruct (Hstart block _ (preds_in_chart _ _ _ Hblock) Hlt Hin)
      as [Hpost Hch].
    destruct (start block ({[start_ea cur]} ∪ v0)) as [v' [p fr| |e|]];
      simpl in Hpost, Hch; try done.
    + destruct Hpost as ((Hk & _) & Hfr & _). destruct Hch as [Hp Hf].
      simpl. split.
      * split; [done|]. split; [exists block; by rewrite Hk|].
        split; [by rewrite Hk|done].
      * split; [done|]. split; [done|].
        split; [exists block; by rewrite Hfr|]. split; [by rewrite Hfr|done].
    + subst v'. by apply IH.
Qed.

Lemma start_build_chain fuel : forall b v0,
  (rank fc (start_ea b) < fuel)%nat ->
  b ∈ blocks fc -> start_ea b ∉ v0 ->
  chain_post fc (start_build fc cache fuel b v0).
Proof.
  induction fuel as [|fuel IH]; intros b v0 Hrank Hb Hnew; [lia|]. simpl.
  destruct (length (cache_get cache (start_ea b)) =? 0)%nat;
    [|by apply iter_cache_chain].
  destruct (length (preds fc b) =? 0)%nat eqn:Hp.
  - apply Nat.eqb_eq, length_zero_iff_nil in Hp. simpl. done.
  - apply loop_parents_chain; [|done|done|by apply Forall_forall].
    intros block v Hblock Hlt Hv.
    assert (rank fc (start_ea block) < fuel)%nat as Hr.
    { pose proof (rank_lt fc block _ Hblock Hlt). lia. }
    split; [by apply start_build_post|by apply IH].
Qed.

Lemma resume_chain fr : forall v0 v,
  stack_inv fc v0 v fr -> frame_chain fc fr ->
  chain_post fc (resume fc cache fr v).
Proof.
  induction fr as [cur|cur rest inner IH|cur i]; intros v0 v Hinv Hfr.
  - simpl. unfold finish. by case_bool_decide.
  - apply (stack_inv_inner fc cache Hcache) in Hinv as (Hcur & Hrest & Hinner).
    simpl. destruct Hfr as (Hin & Hpreds & Hlink & Hlt & Hfr).
    specialize (IH _ _ Hinner Hfr).
    pose proof (resume_post fc cache Hcache inner _ _ Hinner) as Hpost.
    destruct (resume fc cache inner v) as [v' [p fr'| |e|]];
      simpl in IH, Hpost; try done.
    + destruct Hpost as ((Hk & _) & Hfb & _). destruct IH as [Hp Hf].
      simpl. split.
      * split; [done|]. split; [by rewrite Hk|]. split; [by rewrite Hk|done].
      * split; [done|]. split; [done|]. split; [by rewrite Hfb|].
        split; [by rewrite Hfb|done].
    + subst v'. apply loop_parents_chain; [|done|done|done].
      intros block v1 Hblock Hlt1 Hv1.
      assert (rank fc (start_ea block) < depth_bound fc)%nat as Hr.
      { pose proof (rank_le fc (start_ea block)). unfold depth_bound. lia. }
      split.
      * by apply (start_build_post fc cache Hcache (depth_bound fc) block v1).
      * by apply (start_build_chain (depth_bound fc) block v1).
  - apply iter_cache_chain.
Qed.

Lemma gen_next_chain k g :
  gen_ok fc k g -> gen_chain fc g ->
  gen_chain fc (gen_next fc cache g).1
  /\ forall p, (gen_next fc cache g).2 = GYield p -> path_chain fc p.
Proof.
  unfold gen_next. destruct g as [b|v fr|]; [| |done].
  - intros [<- Hb] _.
    assert (rank fc (start_ea b) < depth_bound fc)%nat as Hrank.
    { pose proof (rank_le fc (start_ea b)). unfold depth_bound. lia. }
    pose proof (start_build_chain (depth_bound fc) b ∅ Hrank Hb
                  (not_elem_of_empty _)) as H.
    destruct (start_build fc cache (depth_bound fc) b ∅) as [v' [p fr| |e|]];
      simpl in *; try done.
    destruct H as [Hp Hf]. split; [done|]. by intros p0 [= <-].
  - intros [<- Hinv] Hfr. pose proof (resume_chain fr ∅ v Hinv Hfr) as H.
    destruct (resume fc cache fr v) as [v' [p fr'| |e|]]; simpl in *; try done.
    destruct H as [Hp Hf]. split; [done|]. by intros p0 [= <-].
Qed.
End ChainFacts.

Section GetPathsChain.
Variable fc : FlowChart.

Lemma cache_chain_append cache k p :
  cache_chain fc cache -> path_chain fc p ->
  cache_chain fc (cache_append cache k p).
Proof.
  intros Hc Hp k' q. destruct (decide (k = k')) as [<-|Hne].
  - rewrite cache_get_append_eq. intros Hq.
    apply elem_of_app in Hq as [Hq|Hq]; [by eapply Hc|].
    apply list_elem_of_singleton in Hq. by subst.
  - rewrite cache_get_append_ne by done. apply Hc.
Qed.

Lemma gp_draw_chain st b :
  state_ok fc st -> state_chain fc st ->
  state_chain fc (gp_draw fc st b).1.1
  /\ forall p, (gp_draw fc st b).2 = GpYield p -> path_chain fc p.
Proof.
  intros [Hc Hg] [Hcc Hgc]. unfold gp_draw.
  destruct (_gen_cache st !! start_ea b) as [g|] eqn:E; [|done].
  pose proof (gen_next_chain fc (_path_cache st) Hc Hcc (start_ea b) g
                (Hg _ _ E) (Hgc _ _ E)) as [Hg' Hr].
  destruct (gen_next fc (_path_cache st) g) as [g' r]. simpl in *.
  assert (forall k g0, <[start_ea b := g']> (_gen_cache st) !! k = Some g0 ->
            gen_chain fc g0) as Hgens.
  { intros k g0. destruct (decide (start_ea b = k)) as [<-|Hne].
    - rewrite lookup_insert_eq. by intros [= <-].
    - rewrite lookup_insert_ne by done. apply Hgc. }
  destruct r as [p| | |]; simpl; try done.
  split; [|by intros p0 [= <-]; apply Hr].
  split; [|done]. simpl. apply cache_chain_append; [done|by apply Hr].
Qed.

Lemma gp_enter_draw_chain st b :
  state_ok fc st -> state_chain fc st -> b ∈ blocks fc ->
  state_chain fc (gp_enter_draw fc st b).1.1
  /\ forall p, (gp_enter_draw fc st b).2 = GpYield p -> path_chain fc p.
Proof.
  intros Hst Hch Hb. unfold gp_enter_draw.
  destruct (_gen_cache st !! start_ea b) as [g|] eqn:E;
    [by apply gp_draw_chain|].
  apply gp_draw_chain.
  - destruct Hst as [Hc Hg]. split; [done|]. intros k g. simpl.
    destruct (decide (start_ea b = k)) as [<-|Hne].
    + rewrite lookup_insert_eq. by intros [= <-].
    + rewrite lookup_insert_ne by done. apply Hg.
  - destruct Hch as [Hc Hg]. split; [done|]. intros k g. simpl.
    destruct (decide (start_ea b = k)) as [<-|Hne].
    + rewrite lookup_insert_eq. by intros [= <-].
    + rewrite lookup_insert_ne by done. apply Hg.
Qed.

Lemma gp_next_chain st ea g :
  state_ok fc st -> state_chain fc st -> gp_for fc ea g ->
  state_chain fc (gp_next fc st g).1.1
  /\ forall p, (gp_next fc st g).2 = GpYield p -> path_chain fc p.
Proof.
  intros Hst Hch Hfor.
  assert (forall st b i, state_ok fc st -> state_chain fc st -> b ∈ blocks fc ->
            state_chain fc (gp_cached fc st b i).1.1
            /\ forall p, (gp_cached fc st b i).2 = GpYield p ->
                 path_chain fc p) as Hcached.
  { clear. intros st b i Hst Hch Hb. unfold gp_cached.
    destruct (cache_get (_path_cache st) (start_ea b) !! i) as [p|] eqn:E.
    - simpl. split; [done|]. intros p0 [= <-].
      eapply (proj1 Hch). by eapply list_elem_of_lookup_2.
    - by apply gp_enter_draw_chain. }
  destruct g as [ea'|b i|b|]; simpl in *.
  - subst ea'. destruct (find_block fc ea) as [b|] eqn:Hb; [|done].
    apply Hcached; [| |by eapply find_block_in].
    + destruct Hst as [Hc Hg]. split; [|done].
      intros k p. simpl. rewrite cache_get_touch. apply Hc.
    + destruct Hch as [Hc Hg]. split; [|done].
      intros k p. simpl. rewrite cache_get_touch. apply Hc.
  - apply Hcached; [done|done|by eapply find_block_in].
  - by apply gp_draw_chain.
  - done.
Qed.

Lemma run_chain l : forall c,
  config_ok fc c -> state_chain fc c.1 ->
  forall ea p, (ea, GpYield p) ∈ (run fc c l).2 -> path_chain fc p.
Proof.
  induction l as [|a l IH]; intros c Hc Hch ea p Hin; simpl in Hin.
  - by inversion Hin.
  - pose proof (act_ok fc c a Hc) as [Hc' _].
    assert (state_chain fc (act fc c a).1.1
            /\ forall ea p, (act fc c a).2 = Some (ea, GpYield p) ->
                 path_chain fc p) as [Hch' Ho].
    { destruct a as [ea0|i]; simpl; [done|].
      destruct (c.2 !! i) as [[ea0 g]|] eqn:E; [|done].
      destruct Hc as [Hst Hgs].
      eapply Forall_lookup_1 in Hgs; [|exact E]. simpl in Hgs.
      pose proof (gp_next_chain c.1 ea0 g Hst Hch Hgs) as [H1 H2].
      destruct (gp_next fc c.1 g) as [[st' g'] r]. simpl in *.
      split; [done|]. intros ea1 p1 [= <- ->]. by apply H2. }
    destruct (act fc c a) as [c' o]. simpl in *.
    specialize (IH c' Hc' Hch').
    destruct (run fc c' l) as [c'' out]. simpl in *.
    apply elem_of_app in Hin as [Hin|Hin]; [|by eapply IH].
    destruct o as [[ea0 r0]|]; simpl in Hin; [|by inversion Hin].
    apply list_elem_of_singleton in Hin as [= <- <-]. by eapply Ho.
Qed.
End GetPathsChain.

(** X11: whatever a client does with [get_paths] on a new chart, every
    path it is handed is a path of the graph read backwards: each block on
    it is a block of the chart, each [prev] link leads to a block that
    starts where one of the block's predecessors starts, at a strictly
    lower address than the block itself, and the chain ends at a block
    without predecessors.  So the start addresses along a chain strictly
    increase and no chain follows a back edge. *)
Theorem get_paths_yields_graph_paths fc (l : list action) ea p :
  (ea, GpYield p) ∈ (run fc (fresh_state, []) l).2 -> path_chain fc p.
Proof.
  apply run_chain.
  - split; [apply state_ok_fresh|done].
  - split.
    + intros k q. simpl. rewrite cache_get_empty. by inversion 1.
    + intros k g. simpl. by rewrite lookup_empty.
Qed.

Lemma get_paths_yields_graph_paths_witness :
  path_chain Samples.diamond0
    (new_PathBlock (Samples.dD true 0x1030 0x1040)
       (Some (new_PathBlock (Samples.dC 0x1020 0x1030)
          (Some (new_PathBlock (Samples.dA 0x1000 0x1010) None))))).
Proof.
  apply (get_paths_yields_graph_paths Samples.diamond0
           [Call 0x1038; Next 0; Call 0x1038; Next 1; Next 1; Next 0] 0x1038).
  vm_compute. do 2 apply list_elem_of_further. apply list_elem_of_here.
Defined.

(** ** A finished enumeration is replayed from the cache *)

Lemma gen_next_finished fc cache g :
  (forall p, (gen_next fc cache g).2 <> GYield p) ->
  (gen_next fc cache g).1 = GenFinished.
Proof.
  unfold gen_next. destruct g as [b|v fr|]; [| |done].
  - destruct (start_build fc cache (depth_bound fc) b ∅) as [v' [p fr| |e|]];
      simpl; try done. intros H. by destruct (H p).
  - destruct (resume fc cache fr v) as [v' [p fr'| |e|]];
      simpl; try done. intros H. by destruct (H p).
Qed.

Lemma gp_draw_gen fc st b g :
  _gen_cache st !! start_ea b = Some g ->
  is_Some (_gen_cache (gp_draw fc st b).1.1 !! start_ea b)
  /\ ((gp_draw fc st b).2 = GpStop ->
      _gen_cache (gp_draw fc st b).1.1 !! start_ea b = Some GenFinished).
Proof.
  intros E. unfold gp_draw. rewrite E.
  pose proof (gen_next_finished fc (_path_cache st) g) as Hfin.
  destruct (gen_next fc (_path_cache st) g) as [g' r]. simpl in Hfin.
  destruct r as [p| | |]; simpl; rewrite lookup_insert_eq;
    (split; [done|]); try done.
  intros _. by rewrite Hfin.
Qed.

Section Exhausted.
Variable fc : FlowChart.

(** A run of pulls that ends with the generator's regular end has yielded,
    with what was yielded before, the whole cached list, and leaves the
    block's generator finished. *)
Lemma gp_take_exhausted n : forall st g b ps st' g',
  state_ok fc st -> b ∈ blocks fc ->
  (exists i, g = GpCached b i)
  \/ (g = GpDrawing b /\ is_Some (_gen_cache st !! start_ea b)) ->
  gp_take fc n st g = (ps, Some GpStop, st', g') ->
  yielded_so_far st g ++ ps = cache_get (_path_cache st') (start_ea b)
  /\ _gen_cache st' !! start_ea b = Some GenFinished.
Proof.
  induction n as [|n IH]; intros st g b ps st' g' Hst Hb Hg Htake; [done|].
  assert (forall st0 g0 r0 gen,
    _gen_cache st !! start_ea b = Some gen \/ True ->
    (st0, g0, r0) = gp_draw fc st b ->
    is_Some (_gen_cache st !! start_ea b) ->
    match r0 with
    | GpYield p =>
        let '(ps', e, st'', g'') := gp_take fc n st0 g0 in
        (p :: ps', e, st'', g'')
    | _ => ([], Some r0, st0, g0)
    end = (ps, Some GpStop, st', g') ->
    cache_get (_path_cache st) (start_ea b) ++ ps
    = cache_get (_path_cache st') (start_ea b)
    /\ _gen_cache st' !! start_ea b = Some GenFinished) as Hdraw.
  { intros st0 g0 r0 gen _ Hd [gen0 Hgen] Hres.
    pose proof (gp_draw_ok fc st b Hst) as Hok.
    pose proof (gp_draw_gen fc st b gen0 Hgen) as [Hsome Hfin].
    rewrite <- Hd in Hok, Hsome, Hfin. simpl in Hsome, Hfin.
    destruct Hok as [Hst0 Hr0].
    destruct r0 as [p| | |]; try done.
    - destruct Hr0 as (Hp & -> & Hc0).
      destruct (gp_take fc n st0 (GpDrawing b)) as [[[ps' e] st''] g'']
        eqn:Hrec.
      injection Hres as <- -> <- <-.
      destruct (IH st0 (GpDrawing b) b ps' st'' g'' Hst0 Hb
                  (or_intror (conj eq_refl Hsome)) Hrec) as [H1 H2].
      simpl in H1. rewrite Hc0, <- app_assoc in H1. done.
    - destruct Hr0 as [-> Hc0]. injection Hres as <- <- <-.
      rewrite app_nil_r, Hc0. split; [done|]. by apply Hfin. }
  destruct Hg as [[i ->]|[-> Hgen]].
  - simpl in Htake. unfold gp_cached in Htake.
    destruct (cache_get (_path_cache st) (start_ea b) !! i) as [p|] eqn:E.
    + destruct (gp_take fc n st (GpCached b (S i))) as [[[ps' e] st''] g'']
        eqn:Hrec.
      injection Htake as <- -> <- <-.
      destruct (IH st (GpCached b (S i)) b ps' st'' g'' Hst Hb
                  (or_introl (ex_intro _ _ eq_refl)) Hrec) as [H1 H2].
      simpl in *. rewrite (take_S_r _ _ _ E), <- app_assoc in H1. done.
    + simpl. rewrite take_ge by (by apply lookup_ge_None).
      unfold gp_enter_draw in Htake.
      destruct (_gen_cache st !! start_ea b) as [gen|] eqn:Egen.
      * destruct (gp_draw fc st b) as [[st0 g0] r0] eqn:Hd.
        apply (Hdraw st0 g0 r0 gen); [by left|done|done|].
        by destruct r0.
      * set (st1 := mkState (_path_cache st)
                      (<[start_ea b := _build_path b]> (_gen_cache st))) in *.
        assert (state_ok fc st1) as Hst1.
        { destruct Hst as [Hc Hg]. split; [done|]. intros k g. simpl.
          destruct (decide (start_ea b = k)) as [<-|Hne].
          - rewrite lookup_insert_eq. by intros [= <-].
          - rewrite lookup_insert_ne by done. apply Hg. }
        assert (_gen_cache st1 !! start_ea b = Some (_build_path b)) as Hg1.
        { simpl. by rewrite lookup_insert_eq. }
        pose proof (gp_draw_ok fc st1 b Hst1) as Hok.
        pose proof (gp_draw_gen fc st1 b _ Hg1) as [Hsome Hfin].
        destruct (gp_draw fc st1 b) as [[st0 g0] r0] eqn:Hd.
        simpl in Hsome, Hfin. destruct Hok as [Hst0 Hr0].
        destruct r0 as [p| | |]; try done.
        -- destruct Hr0 as (Hp & -> & Hc0).
           destruct (gp_take fc n st0 (GpDrawing b)) as [[[ps' e] st''] g'']
             eqn:Hrec.
           injection Htake as <- -> <- <-.
           destruct (IH st0 (GpDrawing b) b ps' st'' g'' Hst0 Hb
                       (or_intror (conj eq_refl Hsome)) Hrec) as [H1 H2].
           simpl in H1. rewrite Hc0, <- app_assoc in H1. done.
        -- destruct Hr0 as [-> Hc0]. injection Htake as <- <- <-.
           rewrite app_nil_r, Hc0. split; [done|]. by apply Hfin.
  - simpl in Htake. simpl yielded_so_far.
    destruct Hgen as [gen Hgen].
    destruct (gp_draw fc st b) as [[st0 g0] r0] eqn:Hd.
    apply (Hdraw st0 g0 r0 gen); [by left|done|by exists gen|].
    by destruct r0.
Qed.

(** With the block's generator finished, a new call yields the cached
    list and stops. *)
Lemma gp_take_replay n : forall st b i,
  _gen_cache st !! start_ea b = Some GenFinished ->
  (length (cache_get (_path_cache st) (start_ea b)) - i < n)%nat ->
  exists st',
    gp_take fc n st (GpCached b i)
    = (drop i (cache_get (_path_cache st) (start_ea b)), Some GpStop, st',
       GpFinished).
Proof.
  induction n as [|n IH]; intros st b i Hgen Hn; [lia|].
  simpl. unfold gp_cached.
  destruct (cache_get (_path_cache st) (start_ea b) !! i) as [p|] eqn:E.
  - destruct (IH st b (S i) Hgen) as [st' ->].
    { apply lookup_lt_Some in E. lia. }
    exists st'. by rewrite (drop_S _ _ _ E).
  - unfold gp_enter_draw, gp_draw. rewrite Hgen. simpl. rewrite Hgen. simpl.
    eexists. rewrite drop_ge; [done|]. by apply lookup_ge_None.
Qed.
End Exhausted.

(** X12: after any client activity on a new chart, if a call
    [get_paths(ea)] is pulled until it ends, then a later call
    [get_paths(ea)], pulled at least once more than there are paths,
    yields the same paths in the same order and ends as well: the blocks's
    finished generator is kept, and the paths come from the cache. *)
Theorem get_paths_exhausted_replay fc (l : list action) ea n m :
  let first := get_paths fc (state_after fc l) ea n in
  let second := get_paths fc (state_of first) ea m in
  ended_of first = Some GpStop ->
  (length (paths_of first) < m)%nat ->
  paths_of second = paths_of first /\ ended_of second = Some GpStop.
Proof.
  intros first second Hend Hm. subst second.
  destruct n as [|n]; [done|].
  destruct (find_block fc ea) as [b|] eqn:Hb.
  - pose proof (state_after_ok fc l) as Hst.
    set (st0 := mkState (cache_touch (_path_cache (state_after fc l)) (start_ea b))
                  (_gen_cache (state_after fc l))).
    assert (first = gp_take fc (S n) st0 (GpCached b 0)) as Hfirst.
    { unfold first, get_paths. simpl. by rewrite Hb. }
    assert (state_ok fc st0) as Hst0.
    { destruct Hst as [Hc Hg]. split; [|done].
      intros k p. simpl. rewrite cache_get_touch. apply Hc. }
    destruct first as [[[ps e] st1] g1] eqn:Efirst.
    unfold ended_of, paths_of, state_of in *. simpl in *. subst e.
    destruct (gp_take_exhausted fc (S n) st0 (GpCached b 0) b ps st1 g1 Hst0
                (find_block_in fc _ _ Hb) (or_introl (ex_intro _ _ eq_refl))
                (eq_sym Hfirst)) as [Hps Hgen].
    simpl in Hps. destruct m as [|m]; [lia|].
    assert (get_paths fc st1 ea (S m)
            = gp_take fc (S m)
                (mkState (cache_touch (_path_cache st1) (start_ea b))
                   (_gen_cache st1)) (GpCached b 0)) as ->.
    { unfold get_paths. simpl. by rewrite Hb. }
    match goal with
    | |- context [gp_take fc (S m) ?s _] =>
        destruct (gp_take_replay fc (S m) s b 0%nat) as [st2 ->]
    end.
    + done.
    + simpl. rewrite cache_get_touch, <- Hps. lia.
    + simpl. by rewrite cache_get_touch, Hps.
  - unfold first in Hend.
    rewrite (get_paths_no_block fc _ ea n Hb) in Hend. done.
Qed.

Lemma get_paths_exhausted_replay_witness :
  let first := get_paths Samples.diamond0
                 (state_after Samples.diamond0 [Call 0x1038; Next 0]) 0x1038 5 in
  let second := get_paths Samples.diamond0 (state_of first) 0x1038 3 in
  paths_of second = paths_of first /\ ended_of second = Some GpStop.
Proof.
  apply (get_paths_exhausted_replay Samples.diamond0 [Call 0x1038; Next 0]
           0x1038 5 3).
  - reflexivity.
  - vm_compute. lia.
Defined.

(** ** Blocks at the edge of the graph *)

(** A path handed out for [ea] ends at the block that contains [ea]. *)
Lemma yielded_path_block fc (l : list action) ea b p :
  distinct_starts fc -> find_block fc ea = Some b ->
  (ea, GpYield p) ∈ (run fc (fresh_state, []) l).2 ->
  bb p = b /\ path_chain fc p.
Proof.
  intros Hd Hb Hin.
  assert (config_ok fc (fresh_state, [])) as Hc.
  { split; [apply state_ok_fresh|done]. }
  assert (state_chain fc fresh_state) as Hch.
  { split.
    - intros k q. simpl. rewrite cache_get_empty. by inversion 1.
    - intros k g. simpl. by rewrite lookup_empty. }
  pose proof (proj2 (run_ok fc l _ Hc) ea _ Hin) as (b' & Hb' & Hk & _).
  pose proof (run_chain fc l _ Hc Hch ea p Hin) as Hp.
  split; [|done]. rewrite Hb in Hb'. injection Hb' as <-.
  apply (distinct_starts_eq fc); [done| |by eapply find_block_in|done].
  destruct p; simpl in *. tauto.
Qed.

(** X13: on a chart whose blocks have pairwise different start addresses,
    a block that has predecessors, all of them starting at or above the
    block itself (a block that can only be entered by a jump back), gets
    no path at all: whatever a client does, no [get_paths] generator for
    an address in that block ever yields. *)
Theorem get_paths_back_edges_only fc (l : list action) ea b p :
  distinct_starts fc -> find_block fc ea = Some b ->
  preds fc b <> [] ->
  (forall q, q ∈ preds fc b -> start_ea b <= start_ea q) ->
  (ea, GpYield p) ∉ (run fc (fresh_state, []) l).2.
Proof.
  intros Hd Hb Hne Hall Hin.
  destruct (yielded_path_block fc l ea b p Hd Hb Hin) as [<- Hp].
  destruct p as [pb [q|] c e]; simpl in Hp.
  - destruct Hp as (_ & (b' & Hb' & Heq) & Hlt & _).
    apply Hall in Hb'. simpl in *. lia.
  - destruct Hp as [_ Hp]. done.
Qed.

Lemma get_paths_back_edges_only_witness :
  distinct_starts Samples.diamond_join_first
  /\ (0x1014, GpYield (new_PathBlock (Samples.dD true 0x1010 0x1020) None))
     ∉ (run Samples.diamond_join_first (fresh_state, [])
          [Call 0x1014; Next 0; Next 0]).2.
Proof.
  assert (distinct_starts Samples.diamond_join_first) as Hd.
  { unfold distinct_starts. vm_compute.
    repeat (constructor; [set_solver|]). constructor. }
  split; [exact Hd|].
  apply (get_paths_back_edges_only Samples.diamond_join_first
           [Call 0x1014; Next 0; Next 0] 0x1014 (Samples.dD true 0x1010 0x1020)).
  - exact Hd.
  - reflexivity.
  - vm_compute. discriminate.
  - vm_compute. intros q Hq.
    apply elem_of_cons in Hq as [->|Hq];
      [|apply list_elem_of_singleton in Hq as ->]; simpl; discriminate.
Defined.

(** On a new chart, the enumeration for a block without predecessors. *)
Lemma get_paths_entry_new fc ea b :
  find_block fc ea = Some b -> preds fc b = [] ->
  exists st g,
    get_paths fc fresh_state ea 2
    = ([new_PathBlock b None], Some GpStop, st, g).
Proof.
  intros Hb Hnone. unfold get_paths. cbn [gp_take].
  rewrite (gp_next_created fc fresh_state ea b Hb).
  set (st0 := mkState _ _).
  assert (cache_get (_path_cache st0) (start_ea b) = []) as Hc0.
  { subst st0. simpl. by rewrite cache_get_touch, cache_get_empty. }
  rewrite gp_cached_miss by (by rewrite Hc0).
  rewrite gp_enter_draw_new by (subst st0; simpl; apply lookup_empty).
  set (st1 := mkState _ _).
  assert (gen_next fc (_path_cache st1) (GenCreated b)
          = (GenSuspended ({[start_ea b]} ∪ ∅) (FrEntry b),
             GYield (new_PathBlock b None))) as Hn1.
  { unfold gen_next, depth_bound. simpl. change (_path_cache st0) with
      (cache_touch (∅ : path_cache_t) (start_ea b)).
    rewrite cache_get_touch, cache_get_empty, Hnone. done. }
  rewrite (gp_draw_yield fc st1 b (GenCreated b) _ _
             (lookup_insert_eq _ _ _) Hn1).
  set (st2 := mkState _ _). cbn [gp_next].
  assert (gen_next fc (_path_cache st2)
            (GenSuspended ({[start_ea b]} ∪ ∅) (FrEntry b))
          = (GenFinished, GStop)) as Hn2.
  { unfold gen_next. simpl. unfold finish.
    by rewrite bool_decide_true by set_solver. }
  rewrite (gp_draw_stop fc st2 b _ _ (lookup_insert_eq _ _ _) Hn2).
  by eexists _, _.
Qed.

(** X14: on a chart whose blocks have pairwise different start addresses,
    for an address in a block without predecessors every path a client is
    ever handed is the one-block chain of that block; on a new chart the
    first [next] yields it and the second ends the generator. *)
Theorem get_paths_block_without_preds fc ea b :
  distinct_starts fc -> find_block fc ea = Some b -> preds fc b = [] ->
  (forall (l : list action) p,
     (ea, GpYield p) ∈ (run fc (fresh_state, []) l).2 ->
     bb p = b /\ prev p = None)
  /\ paths_of (get_paths fc fresh_state ea 2) = [new_PathBlock b None]
  /\ ended_of (get_paths fc fresh_state ea 2) = Some GpStop.
Proof.
  intros Hd Hb Hnone. split.
  - intros l p Hin.
    destruct (yielded_path_block fc l ea b p Hd Hb Hin) as [<- Hp].
    split; [done|]. destruct p as [pb [q|] c e]; simpl in *; [|done].
    destruct Hp as (_ & (b' & Hb' & _) & _). rewrite Hnone in Hb'.
    by inversion Hb'.
  - destruct (get_paths_entry_new fc ea b Hb Hnone) as (st & g & ->). done.
Qed.

Lemma get_paths_block_without_preds_witness :
  (forall (l : list action) p,
     (0x1004, GpYield p) ∈ (run Samples.diamond0 (fresh_state, []) l).2 ->
     bb p = Samples.dA 0x1000 0x1010 /\ prev p = None)
  /\ paths_of (get_paths Samples.diamond0 fresh_state 0x1004 2)
     = [new_PathBlock (Samples.dA 0x1000 0x1010) None]
  /\ ended_of (get_paths Samples.diamond0 fresh_state 0x1004 2) = Some GpStop.
Proof.
  apply (get_paths_block_without_preds Samples.diamond0 0x1004
           (Samples.dA 0x1000 0x1010)).
  - unfold distinct_starts. vm_compute.
    repeat (constructor; [set_solver|]). constructor.
  - reflexivity.
  - reflexivity.
Defined.

(** ** What [cpu_context] computes *)

Lemma path_blocks_snoc p : path_blocks p = ancestors p ++ [bb p].
Proof. destruct p as [b [q|] c e]; done. Qed.

Section ReplayFacts.
Context {context : Type} (new_context : context)
        (execute : context -> Z -> context)
        (heads : list Z) (BADADDR : Z).
Hypothesis Hasc : ascending heads.

Local Abbreviation nh := (next_head heads BADADDR).
Local Abbreviation Hds := (Heads heads).
Local Abbreviation drf := (deref context new_context).
Local Abbreviation fil := (fill context new_context execute).
Local Abbreviation cpu :=
  (cpu_context context new_context execute heads BADADDR).
Local Abbreviation emu := (emu_state context).
Local Abbreviation objs := (objects context).
Local Abbreviation eof := (end_of heads BADADDR).
Local Abbreviation base0 := (base context new_context execute heads BADADDR).
Local Abbreviation rpl := (replay context new_context execute).
Local Abbreviation expd := (expected context new_context execute heads).
Local Abbreviation coh := (coherent context new_context execute heads).
Local Abbreviation bounds := (path_bounds BADADDR).
Local Abbreviation rpls :=
  (replays context new_context execute heads BADADDR).

Lemma Heads_none s e :
  Forall (fun x => e <= x) heads -> Hds s e = [].
Proof.
  unfold Heads. clear Hasc. induction heads as [|h l IH]; [done|].
  intros H. apply Forall_cons in H as [Hh Hl].
  rewrite filter_cons. case_decide; [lia|by apply IH].
Qed.

(** On an ascending list the heads of two adjoining ranges are the heads
    of the whole range. *)
Lemma Heads_split s m e :
  s <= m <= e -> Hds s m ++ Hds m e = Hds s e.
Proof.
  intros Hsme. unfold Heads. revert Hasc.
  induction heads as [|h l IH]; [done|].
  intros [Hh Hl]. specialize (IH Hl).
  rewrite !filter_cons. repeat case_decide; try lia; simpl.
  - by rewrite IH.
  - rewrite <- IH.
    assert (filter (fun x => s <= x < m) l = []) as ->; [|done].
    clear -Hh H0. induction l as [|x l IHl]; [done|].
    apply Forall_cons in Hh as [Hx Hl].
    rewrite filter_cons. case_decide; [lia|by apply IHl].
  - done.
Qed.

Lemma fill_value c ips (σ : emu) :
  (c < length (objs σ))%nat ->
  exists σ', fil (Some c) ips σ = inr σ'
    /\ length (objs σ') = length (objs σ)
    /\ drf σ' c = foldl execute (drf σ c) ips
    /\ forall c', c' <> c -> drf σ' c' = drf σ c'.
Proof.
  revert σ. induction ips as [|ip ips IH]; intros σ Hc; simpl.
  - by exists σ.
  - destruct (IH (processor_execute context new_context execute c ip σ))
      as (σ' & -> & Hl & Hv & Hd).
    { simpl. by rewrite length_insert. }
    exists σ'. split; [done|]. rewrite Hl, Hv. simpl.
    rewrite length_insert. split; [done|]. split.
    + f_equal. unfold deref at 1. simpl.
      by rewrite list_lookup_insert_eq.
    + intros c' Hc'. rewrite Hd by done. unfold deref. simpl.
      by rewrite list_lookup_insert_ne.
Qed.

Lemma refs_bound (σ : emu) p c :
  coh σ p -> c ∈ refs p -> (c < length (objs σ))%nat.
Proof.
  induction p as [b pc e|b q pc e IH] using PathBlock_induction;
    simpl; intros [Hown Hprev] Hc.
  - rewrite app_nil_r in Hc. destruct pc as [c0|], e as [e0|]; try done.
    + apply list_elem_of_singleton in Hc as ->. tauto.
    + by inversion Hc.
  - apply elem_of_app in Hc as [Hc|Hc]; [|by apply IH].
    destruct pc as [c0|], e as [e0|]; try done.
    + apply list_elem_of_singleton in Hc as ->. tauto.
    + by inversion Hc.
Qed.

(** Coherence only depends on the objects the path holds. *)
Lemma coherent_ext (σ σ' : emu) p :
  (length (objs σ) <= length (objs σ'))%nat ->
  (forall c, c ∈ refs p -> drf σ' c = drf σ c) ->
  coh σ p -> coh σ' p.
Proof.
  intros Hlen.
  induction p as [b pc e|b q pc e IH] using PathBlock_induction;
    simpl; intros Hsame [Hown Hprev].
  - split; [|done]. destruct pc as [c0|], e as [e0|]; try done.
    destruct Hown as (H1 & H2 & H3). split; [lia|]. split; [done|].
    rewrite Hsame; [done|]. left.
  - split.
    + destruct pc as [c0|], e as [e0|]; try done.
      destruct Hown as (H1 & H2 & H3). split; [lia|]. split; [done|].
      rewrite Hsame; [done|]. left.
    + apply IH; [|done]. intros c Hc. apply Hsame.
      apply elem_of_app. by right.
Qed.

Lemma coherent_alloc (σ : emu) v p :
  coh σ p -> coh (alloc context v σ).2 p.
Proof.
  intros H. eapply coherent_ext; [| |exact H].
  - simpl. rewrite length_app. lia.
  - intros c Hc. apply deref_alloc_old. by eapply refs_bound.
Qed.

(** The end address of a request is not below the start of the block. *)
Lemma end_of_bound p ea :
  bounds p -> valid_ea p ea -> start_ea (bb p) <= eof p ea.
Proof.
  unfold path_bounds. rewrite path_blocks_snoc, Forall_app, Forall_singleton.
  intros [_ [H1 H2]] Hv. destruct ea as [a|]; simpl in *; [|done].
  destruct (next_head_above heads BADADDR a) as [->|H]; lia.
Qed.

Lemma all_heads_snoc l b :
  all_heads heads (l ++ [b])
  = all_heads heads l ++ Hds (start_ea b) (end_ea b).
Proof.
  unfold all_heads. rewrite fmap_app, concat_app. simpl.
  by rewrite app_nil_r.
Qed.

Lemma bounds_prev b q c e :
  bounds (mkPath b (Some q) c e) -> bounds q.
Proof.
  unfold path_bounds. simpl. rewrite Forall_app. tauto.
Qed.

(** The context a block starts from holds the result of all instructions
    before the block. *)
Lemma base_replay p σ :
  (forall q, prev p = Some q -> forall σ,
     bounds q -> coh σ q -> NoDup (refs q) -> rpls q None σ) ->
  bounds p -> coh σ p -> NoDup (refs p) ->
  exists c prev' σ1,
    base0 p σ = inr (Some c, prev', σ1)
    /\ (c < length (objs σ1))%nat
    /\ drf σ1 c = rpl (all_heads heads (ancestors p))
    /\ match prev' with
       | Some q' => path_blocks q'
       | None => []
       end = ancestors p
    /\ match prev' with
       | Some q' => coh σ1 q' /\ NoDup (refs q') /\ (c ∉ refs q')
       | None => True
       end.
Proof.
  intros IH Hb Hc Hnd. destruct p as [b [q|] pc pe]; unfold base; simpl in *.
  - destruct (IH q eq_refl σ) as (r & q' & σ1 & Hrun & Hv & Hbl & Hq' & Hnd' & Hr & Hfresh).
    { by eapply bounds_prev. }
    { tauto. }
    { apply NoDup_app in Hnd. tauto. }
    rewrite Hrun. exists r, (Some q'), σ1. split; [done|]. split; [done|].
    split; [|done].
    rewrite Hv. unfold expected. simpl.
    by rewrite <- all_heads_snoc, <- path_blocks_snoc.
  - exists (length (objs σ)), None, (alloc context new_context σ).2.
    split; [done|]. split; [simpl; rewrite length_app; simpl; lia|].
    split; [|done]. by rewrite deref_alloc_new.
Qed.

Lemma replay_step p ea σ :
  (forall q, prev p = Some q -> forall σ,
     bounds q -> coh σ q -> NoDup (refs q) -> rpls q None σ) ->
  bounds p -> coh σ p -> NoDup (refs p) -> valid_ea p ea ->
  rpls p ea σ.
Proof.
  intros IH Hb Hc Hnd Hv.
  pose proof (end_of_bound p ea Hb Hv) as Hse.
  (* the two ways that start from the base context *)
  assert ((_context p = None /\ _context_ea p = None)
          \/ (exists c e0, _context p = Some c /\ _context_ea p = Some e0
                          /\ eof p ea < e0) ->
          rpls p ea σ) as Hre.
  { intros Hst.
    destruct (base_replay p σ IH Hb Hc Hnd)
      as (c & pv' & σ1 & Hbase & Hlt & Hval & Hanc & Hpv').
    destruct (fill_value c (Hds (start_ea (bb p)) (eof p ea)) σ1 Hlt)
      as (σ2 & Hf & Hlen & Hv2 & Hother).
    exists (length (objs σ2)),
           (mkPath (bb p) pv' (Some c) (Some (eof p ea))),
           (alloc context (drf σ2 c) σ2).2.
    assert (coh σ2 (mkPath (bb p) pv' (Some c) (Some (eof p ea)))) as Hc2.
    { simpl. split.
      - split; [lia|]. split; [done|].
        rewrite Hv2, Hval. unfold expected, replay, ancestors. simpl.
        by rewrite Hanc, foldl_app.
      - destruct pv' as [q'|]; [|done]. destruct Hpv' as (Hq' & _ & Hfresh).
        eapply coherent_ext; [| |exact Hq']; [lia|].
        intros c' Hc'. apply Hother. intros ->. done. }
    split.
    { rewrite (cpu_reinit new_context execute heads BADADDR p ea σ Hv Hst).
      rewrite Hbase, Hf. done. }
    split.
    { rewrite deref_alloc_new, Hv2, Hval. unfold expected, replay.
      by rewrite foldl_app. }
    split.
    { rewrite !path_blocks_snoc. unfold ancestors at 1. simpl.
      by rewrite Hanc. }
    split; [by apply coherent_alloc|].
    assert (NoDup (refs (mkPath (bb p) pv' (Some c) (Some (eof p ea))))) as Hnd2.
    { simpl. apply NoDup_cons. destruct pv' as [q'|]; [|split; [by inversion 1|constructor]].
      tauto. }
    split; [done|]. split; [simpl; rewrite length_app; simpl; lia|].
    intros Hin. apply (refs_bound σ2) in Hin; [lia|done]. }
  destruct p as [b pv [c|] [e0|]]; simpl in Hc; destruct Hc as [Hown Hprev];
    try done.
  - destruct Hown as (Hlt & Hs0 & Hval).
    set (p := mkPath b pv (Some c) (Some e0)) in *.
    destruct (Z.lt_trichotomy e0 (eof p ea)) as [Hlt0|[Heq|Hgt]].
    + (* filled further *)
      destruct (fill_value c (Hds e0 (eof p ea)) σ Hlt)
        as (σ2 & Hf & Hlen & Hv2 & Hother).
      exists (length (objs σ2)),
             (mkPath b pv (Some c) (Some (eof p ea))),
             (alloc context (drf σ2 c) σ2).2.
      assert (drf σ2 c = expd p (eof p ea)) as Hnew.
      { rewrite Hv2, Hval. unfold expected, replay.
        rewrite <- foldl_app, <- app_assoc. simpl.
        by rewrite Heads_split by lia. }
      assert (coh σ2 (mkPath b pv (Some c) (Some (eof p ea)))) as Hc2.
      { simpl. split; [split; [lia|]; split; [lia|done]|].
        destruct pv as [q|]; [|done].
        eapply coherent_ext; [| |exact Hprev]; [lia|].
        intros c' Hc'. apply Hother. intros ->.
        simpl in Hnd. apply NoDup_cons in Hnd. tauto. }
      split.
      { rewrite (cpu_extend new_context execute heads BADADDR p ea σ c e0 Hv
                   eq_refl eq_refl Hlt0).
        rewrite Hf. done. }
      split; [by rewrite deref_alloc_new|].
      split; [done|]. split; [by apply coherent_alloc|].
      split; [done|]. split; [simpl; rewrite length_app; simpl; lia|].
      intros Hin. apply (refs_bound σ2) in Hin; [lia|done].
    + (* filled to the requested address already *)
      exists (length (objs σ)), p, (alloc context (drf σ c) σ).2.
      assert (coh σ p) as Hcp by (simpl; tauto).
      split.
      { rewrite (cpu_hit new_context execute heads BADADDR p ea σ Hv)
          by (simpl; by f_equal). done. }
      split; [by rewrite deref_alloc_new, Hval, Heq|].
      split; [done|]. split; [by apply coherent_alloc|].
      split; [done|]. split; [simpl; rewrite length_app; simpl; lia|].
      intros Hin. apply (refs_bound σ) in Hin; [lia|done].
    + apply Hre. right. by exists c, e0.
  - apply Hre. by left.
Qed.

Lemma cpu_replays p : forall ea σ,
  bounds p -> coh σ p -> NoDup (refs p) -> valid_ea p ea -> rpls p ea σ.
Proof.
  induction p as [b c e|b q c e IH] using PathBlock_induction;
    intros ea σ Hb Hc Hnd Hv; apply replay_step; try done.
  intros q0 Hq σ' Hb' Hc' Hnd'. simpl in Hq. simplify_eq. by apply IH.
Qed.

(** X15: with the instruction heads in ascending order, on a path whose
    blocks end at or after their start and whose cached contexts are
    coherent (as on every path [get_paths] hands out, which holds no
    context yet), a request for an acceptable address returns a new
    context object whose value is that of a new context on which every
    instruction of the blocks before this one on the path, and then the
    instructions of this block up to and including the requested one,
    have been executed in address order.  The path is left coherent and
    over the same blocks, so the same holds for every later request,
    whatever the order of the addresses asked for. *)
Theorem cpu_context_replays_path p ea σ :
  bounds p -> coh σ p -> NoDup (refs p) -> valid_ea p ea ->
  exists r p' σ',
    cpu p ea σ = inr (Some r, p', σ')
    /\ drf σ' r
       = rpl (all_heads heads (ancestors p)
              ++ Hds (start_ea (bb p)) (eof p ea))
    /\ path_blocks p' = path_blocks p
    /\ bounds p' /\ coh σ' p' /\ NoDup (refs p').
Proof.
  intros Hb Hc Hnd Hv.
  destruct (cpu_replays p ea σ Hb Hc Hnd Hv)
    as (r & p' & σ' & Hrun & Hval & Hbl & Hc' & Hnd' & _).
  exists r, p', σ'. split; [done|]. split; [done|]. split; [done|].
  split; [|done]. unfold path_bounds. by rewrite Hbl.
Qed.
End ReplayFacts.

Lemma cpu_context_replays_path_witness :
  let σ := mkEmu (list Z) [] [] in
  exists r p' σ',
    cpu_context (list Z) [] Samples.trace Samples.heads 0xFFFFFFFF
      Samples.path_line (Some 0x1014) σ = inr (Some r, p', σ')
    /\ deref (list Z) [] σ' r
       = replay (list Z) [] Samples.trace
           (all_heads Samples.heads (ancestors Samples.path_line)
            ++ Heads Samples.heads (start_ea (bb Samples.path_line))
                 (end_of Samples.heads 0xFFFFFFFF Samples.path_line
                    (Some 0x1014)))
    /\ path_blocks p' = path_blocks Samples.path_line
    /\ path_bounds 0xFFFFFFFF p'
    /\ coherent (list Z) [] Samples.trace Samples.heads σ' p'
    /\ NoDup (refs p').
Proof.
  intros σ.
  apply (cpu_context_replays_path [] Samples.trace Samples.heads 0xFFFFFFFF).
  - simpl. repeat (split; [repeat (constructor; [lia|]); constructor|]). done.
  - unfold path_bounds. simpl. repeat (constructor; [simpl; lia|]). constructor.
  - simpl. tauto.
  - simpl. constructor.
  - simpl. lia.
Defined.

(** ** What [get_paths] enumerates on a new chart *)

Lemma via_parents_ext rec1 rec2 cur rest :
  (forall block, block ∈ rest -> start_ea block < start_ea cur ->
     rec1 block = rec2 block) ->
  via_parents rec1 cur rest = via_parents rec2 cur rest.
Proof.
  induction rest as [|block rest IH]; intros H; simpl; [done|].
  rewrite IH by (intros; apply H; [by right|done]).
  case_bool_decide; [|done]. rewrite H; [done|left|done].
Qed.

Lemma all_paths_S fc n b :
  all_paths fc (S n) b
  = if (length (preds fc b) =? 0)%nat then [new_PathBlock b None]
    else via_parents (all_paths fc n) b (preds fc b).
Proof. done. Qed.

Lemma all_paths_stable fc n : forall m b,
  b ∈ blocks fc ->
  (rank fc (start_ea b) < n)%nat -> (rank fc (start_ea b) < m)%nat ->
  all_paths fc n b = all_paths fc m b.
Proof.
  induction n as [|n IH]; intros [|m] b Hb Hn Hm; try lia.
  rewrite !all_paths_S. destruct (length (preds fc b) =? 0)%nat; [done|].
  apply via_parents_ext. intros p Hp Hlt.
  apply preds_in_chart in Hp.
  pose proof (rank_lt fc p _ Hp Hlt). apply IH; [done|lia|lia].
Qed.

Section Enumeration.
Variable fc : FlowChart.
Variable cache : path_cache_t.

Lemma loop_parents_enum start rec v0 cur rest :
  (forall s, s ∈ v0 -> start_ea cur < s) ->
  (forall block, block ∈ rest -> start_ea block < start_ea cur ->
     enumerates fc ({[start_ea cur]} ∪ v0) block (rec block)
       (start block ({[start_ea cur]} ∪ v0))
     /\ rec block = all_paths fc (depth_bound fc) block) ->
  Forall (fun b => b ∈ blocks fc) rest ->
  enumerates fc v0 cur (via_parents rec cur rest)
    (loop_parents start cur rest ({[start_ea cur]} ∪ v0)).
Proof.
  intros Habove.
  assert (start_ea cur ∉ v0) as Hnew.
  { intros Hin. apply Habove in Hin. lia. }
  induction rest as [|block rest IH]; intros Hstart Hrest; simpl.
  - by apply finish_post.
  - apply Forall_cons in Hrest as [Hblock Hrest].
    assert (enumerates fc v0 cur (via_parents rec cur rest)
              (loop_parents start cur rest ({[start_ea cur]} ∪ v0))) as IH'.
    { apply IH; [|done]. intros b Hb. apply Hstart. by right. }
    case_bool_decide as Hlt.
    + assert (start_ea block ∉ ({[start_ea cur]} ∪ v0 : gset Z)) as Hin.
      { intros Hin. apply elem_of_union in Hin as [Hin|Hin].
        - apply elem_of_singleton in Hin. lia.
        - apply Habove in Hin. lia. }
      rewrite bool_decide_false by done. simpl.
      rewrite gtb_false by lia.
      destruct (Hstart block) as [Hen Hrec]; [left|done|].
      destruct (rec block) as [|p ps] eqn:Erec; simpl in *.
      * rewrite Hen. exact IH'.
      * destruct Hen as (fr & -> & Hrem & Hlow & Hfb).
        exists (FrParent cur rest fr). split.
        { f_equal. simpl. set_solver. }
        split.
        { simpl. rewrite Hrem. f_equal. apply via_parents_ext.
          intros b Hb Hb'. by destruct (Hstart b) as [_ ->]; [right| |]. }
        split; [|done]. simpl. done.
    + assert (bool_decide (start_ea block ∈ ({[start_ea cur]} ∪ v0 : gset Z))
              || (start_ea block >? start_ea cur) = true) as ->; [|exact IH'].
      destruct (decide (start_ea block = start_ea cur)) as [->|Hne].
      * rewrite bool_decide_true by set_solver. done.
      * apply orb_true_iff. right. rewrite Z.gtb_ltb. apply Z.ltb_lt. lia.
Qed.

Lemma start_build_enum fuel : forall b v0,
  (rank fc (start_ea b) < fuel)%nat -> b ∈ blocks fc ->
  (forall s, s ∈ v0 -> start_ea b < s) ->
  (forall key, key <= start_ea b -> cache_get cache key = []) ->
  enumerates fc v0 b (all_paths fc fuel b) (start_build fc cache fuel b v0).
Proof.
  induction fuel as [|fuel IH]; intros b v0 Hrank Hb Habove Hempty; [lia|].
  rewrite all_paths_S. simpl. rewrite Hempty by lia. simpl.
  destruct (length (preds fc b) =? 0)%nat eqn:Hp.
  - simpl. exists (FrEntry b). split; [f_equal; simpl; set_solver|]. done.
  - apply loop_parents_enum; [done| |].
    + intros block Hblock Hlt. apply preds_in_chart in Hblock.
      pose proof (rank_lt fc block _ Hblock Hlt) as Hr. split.
      * apply IH; [lia|done| |].
        -- intros s Hs. apply elem_of_union in Hs as [Hs|Hs].
           ++ apply elem_of_singleton in Hs. lia.
           ++ apply Habove in Hs. lia.
        -- intros key Hkey. apply Hempty. lia.
      * apply all_paths_stable; [done|lia|].
        pose proof (rank_le fc (start_ea block)). unfold depth_bound. lia.
    + apply Forall_forall. intros p. apply preds_in_chart.
Qed.

Lemma frame_low_above v0 fr :
  frame_low fc v0 fr -> forall s, s ∈ v0 -> start_ea (frame_block fr) < s.
Proof. destruct fr; simpl; [done|tauto|done]. Qed.

Lemma resume_enum fr : forall v0,
  frame_low fc v0 fr ->
  (forall key, key < start_ea (frame_block fr) -> cache_get cache key = []) ->
  enumerates fc v0 (frame_block fr) (remaining fc fr)
    (resume fc cache fr (v0 ∪ list_to_set (frame_starts fr))).
Proof.
  induction fr as [cur|cur rest inner IH|cur i]; intros v0 Hlow Hempty;
    [| |done].
  - simpl in *.
    replace (v0 ∪ ({[start_ea cur]} ∪ ∅)) with ({[start_ea cur]} ∪ v0)
      by set_solver.
    apply finish_post. intros Hin. apply Hlow in Hin. lia.
  - destruct Hlow as (Habove & Hrest & Hinner). simpl.
    pose proof (frame_low_above _ _ Hinner (start_ea cur)) as Hlt.
    specialize (Hlt ltac:(set_solver)).
    specialize (IH _ Hinner).
    replace (v0 ∪ ({[start_ea cur]} ∪ list_to_set (frame_starts inner)))
      with (({[start_ea cur]} ∪ v0) ∪ list_to_set (frame_starts inner))
      by set_solver.
    assert (enumerates fc v0 cur
              (via_parents (all_paths fc (depth_bound fc)) cur rest)
              (loop_parents (start_build fc cache (depth_bound fc)) cur rest
                 ({[start_ea cur]} ∪ v0))) as Hloop.
    { apply loop_parents_enum; [done| |done].
      intros block Hblock Hlt'. split; [|done].
      apply Forall_forall with (x := block) in Hrest; [|done].
      apply (start_build_enum (depth_bound fc) block).
      - pose proof (rank_le fc (start_ea block)). unfold depth_bound. lia.
      - done.
      - intros s Hs. apply elem_of_union in Hs as [Hs|Hs].
        + apply elem_of_singleton in Hs. lia.
        + apply Habove in Hs. lia.
      - intros key Hkey. apply Hempty. simpl. lia. }
    destruct (remaining fc inner) as [|p ps] eqn:Erem; simpl.
    + rewrite IH by (intros key Hkey; apply Hempty; simpl; lia).
      exact Hloop.
    + destruct IH as (fr' & -> & Hrem & Hlow' & Hfb).
      { intros key Hkey. apply Hempty. simpl. lia. }
      exists (FrParent cur rest fr'). split.
      { f_equal. simpl. set_solver. }
      split; [simpl; by rewrite Hrem|]. split; [|done]. simpl. done.
Qed.
End Enumeration.

Lemma via_parents_elem rec cur rest p :
  p ∈ via_parents rec cur rest
  <-> exists block q,
        block ∈ rest /\ start_ea block < start_ea cur
        /\ q ∈ rec block /\ p = wrap cur q.
Proof.
  induction rest as [|block rest IH]; simpl.
  - split; [by inversion 1|]. intros (b & q & Hb & _). by inversion Hb.
  - assert ((exists b q, b ∈ rest /\ start_ea b < start_ea cur
                         /\ q ∈ rec b /\ p = wrap cur q)
            \/ (start_ea block < start_ea cur
                /\ exists q, q ∈ rec block /\ p = wrap cur q)
            <-> exists b q, b ∈ block :: rest /\ start_ea b < start_ea cur
                            /\ q ∈ rec b /\ p = wrap cur q) as <-.
    { split.
      - intros [(b & q & Hb & H)|(Hlt & q & H)].
        + exists b, q. split; [by right|done].
        + exists block, q. split; [left|done].
      - intros (b & q & Hb & Hlt & H).
        apply elem_of_cons in Hb as [->|Hb].
        + right. split; [done|]. by exists q.
        + left. by exists b, q. }
    case_bool_decide as Hlt.
    + rewrite elem_of_app, IH, list_elem_of_fmap. split.
      * intros [(q & -> & Hq)|H]; [right|by left]. split; [done|]. by exists q.
      * intros [H|(_ & q & Hq & ->)]; [by right|left]. by exists q.
    + rewrite IH. split; [by left|]. intros [H|[H _]]; done.
Qed.

(** The enumeration holds the descending chains to the block, and only
    them. *)
Lemma all_paths_sound fc n : forall b p,
  p ∈ all_paths fc n b -> bb p = b /\ descending_chain fc p.
Proof.
  induction n as [|n IH]; intros b p; [by inversion 1|].
  rewrite all_paths_S.
  destruct (length (preds fc b) =? 0)%nat eqn:Hp.
  - intros Hin. apply list_elem_of_singleton in Hin as ->.
    apply Nat.eqb_eq, length_zero_iff_nil in Hp. done.
  - intros Hin. apply via_parents_elem in Hin
      as (block & q & Hblock & Hlt & Hq & ->).
    apply IH in Hq as [<- Hq]. done.
Qed.

Lemma all_paths_complete fc n : forall b p,
  b ∈ blocks fc -> (rank fc (start_ea b) < n)%nat ->
  bb p = b -> descending_chain fc p -> p ∈ all_paths fc n b.
Proof.
  induction n as [|n IH]; intros b p Hb Hrank Hbb Hp; [lia|].
  rewrite all_paths_S. destruct p as [pb [q|] c e]; simpl in *; subst pb.
  - destruct Hp as (-> & -> & Hq & Hlt & Hdq).
    destruct (length (preds fc b) =? 0)%nat eqn:Hlen.
    { apply Nat.eqb_eq, length_zero_iff_nil in Hlen. rewrite Hlen in Hq.
      by inversion Hq. }
    apply via_parents_elem. exists (bb q), q.
    split; [done|]. split; [done|]. split; [|done].
    pose proof (preds_in_chart _ _ _ Hq) as Hin.
    pose proof (rank_lt fc (bb q) _ Hin Hlt).
    apply IH; [done|lia|done|done].
  - destruct Hp as (-> & -> & Hnone). rewrite Hnone. simpl. left.
Qed.

Section Drawing.
Variable fc : FlowChart.
Variable b : BasicBlock.
Hypothesis Hb : b ∈ blocks fc.

Lemma remaining_bb fr : forall p,
  frame_block fr = b -> p ∈ remaining fc fr -> bb p = b.
Proof.
  destruct fr as [cur|cur rest inner|cur i]; simpl; intros p <- Hp;
    [by inversion Hp| |by inversion Hp].
  apply elem_of_app in Hp as [Hp|Hp].
  - by apply list_elem_of_fmap in Hp as (q & -> & _).
  - by apply via_parents_elem in Hp as (block & q & _ & _ & _ & ->).
Qed.

(** One draw from the block's generator. *)
Lemma gp_draw_drawing st got rem :
  drawing fc b got rem st ->
  match rem with
  | [] =>
      exists st', gp_draw fc st b = (st', GpFinished, GpStop)
                  /\ drawing fc b got [] st'
  | p :: rem' =>
      exists st', gp_draw fc st b = (st', GpDrawing b, GpYield p)
                  /\ drawing fc b (got ++ [p]) rem' st'
  end.
Proof.
  intros (Hgot & Hothers & Hgen).
  assert (forall g r,
    _gen_cache st !! start_ea b = Some g ->
    gen_next fc (_path_cache st) g
    = match r with
      | (v', Yield p fr') => (GenSuspended v' fr', GYield p)
      | (_, Return) => (GenFinished, GStop)
      | (_, Raise e) => (GenFinished, GRaise e)
      | (_, Diverge) => (GenFinished, GDiverge)
      end ->
    enumerates fc ∅ b rem r ->
    match rem with
    | [] =>
        exists st', gp_draw fc st b = (st', GpFinished, GpStop)
                    /\ drawing fc b got [] st'
    | p :: rem' =>
        exists st', gp_draw fc st b = (st', GpDrawing b, GpYield p)
                    /\ drawing fc b (got ++ [p]) rem' st'
    end) as Hstep.
  { intros g r Hg Hnext Hen. unfold gp_draw. rewrite Hg, Hnext.
    destruct rem as [|p rem']; simpl in Hen.
    - subst r. eexists. split; [done|]. split; [done|]. split; [done|].
      right. right. simpl. by rewrite lookup_insert_eq.
    - destruct Hen as (fr & -> & Hrem & Hlow & Hfb).
      assert (bb p = b) as Hbb.
      { destruct Hgen as [(_ & _ & Hall)|[(fr0 & Hg0 & Hrem0 & _ & Hfb0)|[_ Hnil]]];
          [| |done].
        - apply (all_paths_sound fc (depth_bound fc)). rewrite <- Hall. left.
        - apply (remaining_bb fr0); [done|]. rewrite Hrem0. left. }
      eexists. split; [done|]. rewrite Hbb. split; [|split].
      + simpl. by rewrite cache_get_append_eq, Hgot.
      + intros key Hkey. simpl. rewrite cache_get_append_ne by done.
        by apply Hothers.
      + right. left. exists fr. simpl. rewrite lookup_insert_eq.
        by rewrite (left_id_L ∅ (∪)). }
  destruct Hgen as [(Hg & -> & ->)|[(fr & Hg & <- & Hlow & Hfb)|[Hg ->]]].
  - apply (Hstep (GenCreated b)
             (start_build fc (_path_cache st) (depth_bound fc) b ∅) Hg);
      [done|].
    apply start_build_enum.
    + pose proof (rank_le fc (start_ea b)). unfold depth_bound. lia.
    + done.
    + set_solver.
    + intros key Hkey. destruct (decide (key = start_ea b)) as [->|Hne];
        [done|by apply Hothers].
  - apply (Hstep (GenSuspended (list_to_set (frame_starts fr)) fr)
             (resume fc (_path_cache st) fr (list_to_set (frame_starts fr)))
             Hg); [done|].
    rewrite <- Hfb.
    rewrite <- (left_id_L ∅ (∪) (list_to_set (frame_starts fr) : gset Z)).
    apply resume_enum; [done|].
    intros key Hkey. apply Hothers. rewrite Hfb in Hkey. lia.
  - unfold gp_draw. rewrite Hg. simpl. eexists. split; [done|].
    split; [done|]. split; [done|]. right. right. simpl.
    by rewrite lookup_insert_eq.
Qed.

Lemma gp_take_drawing n : forall st got rem,
  drawing fc b got rem st ->
  paths_of (gp_take fc n st (GpDrawing b)) = take n rem
  /\ ended_of (gp_take fc n st (GpDrawing b))
     = if (length rem <? n)%nat then Some GpStop else None.
Proof.
  induction n as [|n IH]; intros st got rem Hd; [done|].
  pose proof (gp_draw_drawing st got rem Hd) as Hstep.
  cbn [gp_take gp_next]. destruct rem as [|p rem'].
  - destruct Hstep as (st' & -> & _). done.
  - destruct Hstep as (st' & -> & Hd').
    destruct (IH st' _ _ Hd') as [H1 H2].
    destruct (gp_take fc n st' (GpDrawing b)) as [[[ps e] st''] g''].
    unfold paths_of, ended_of in *. simpl in *. by rewrite H1, H2.
Qed.
End Drawing.

Lemma get_paths_new_take fc ea b n :
  find_block fc ea = Some b ->
  paths_of (get_paths fc fresh_state ea n)
  = take n (all_paths fc (depth_bound fc) b)
  /\ ended_of (get_paths fc fresh_state ea n)
     = (if (length (all_paths fc (depth_bound fc) b) <? n)%nat
        then Some GpStop else None).
Proof.
  intros Hb. pose proof (find_block_in fc _ _ Hb) as Hin.
  destruct n as [|n]; [done|].
  set (st1 := mkState (cache_touch (∅ : path_cache_t) (start_ea b))
                (<[start_ea b := GenCreated b]> (∅ : gmap Z generator))).
  assert (get_paths fc fresh_state ea (S n)
          = gp_take fc (S n) st1 (GpDrawing b)) as ->.
  { unfold get_paths. cbn [gp_take].
    rewrite (gp_next_created fc fresh_state ea b Hb).
    rewrite gp_cached_miss
      by (simpl; by rewrite cache_get_touch, cache_get_empty).
    rewrite gp_enter_draw_new by (simpl; apply lookup_empty). done. }
  assert (drawing fc b [] (all_paths fc (depth_bound fc) b) st1) as Hd.
  { split; [|split].
    - simpl. by rewrite cache_get_touch, cache_get_empty.
    - intros key _. simpl. by rewrite cache_get_touch, cache_get_empty.
    - left. simpl. by rewrite lookup_insert_eq. }
  exact (gp_take_drawing fc b Hin (S n) st1 _ _ Hd).
Qed.

(** X17: on a new chart, [get_paths(ea)] pulled [n] times yields the first
    [n] of the paths [all_paths] lists for the block that contains [ea]
    and ends exactly when it is pulled once more than there are paths.
    These are the chains that lead from the block, over predecessors at
    strictly lower addresses, to a block without predecessors, and only
    them, depth first in the order in which the host reports the
    predecessors. *)
Theorem get_paths_enumerates fc ea b n :
  find_block fc ea = Some b ->
  paths_of (get_paths fc fresh_state ea n)
  = take n (all_paths fc (depth_bound fc) b)
  /\ ended_of (get_paths fc fresh_state ea n)
     = (if (length (all_paths fc (depth_bound fc) b) <? n)%nat
        then Some GpStop else None)
  /\ forall p, p ∈ all_paths fc (depth_bound fc) b
               <-> bb p = b /\ descending_chain fc p.
Proof.
  intros Hb. pose proof (find_block_in fc _ _ Hb) as Hin.
  destruct (get_paths_new_take fc ea b n Hb) as [H1 H2].
  split; [done|]. split; [done|].
  intros p. split; [apply all_paths_sound|].
  intros [Hbb Hp]. apply all_paths_complete; [done| |done|done].
  pose proof (rank_le fc (start_ea b)). unfold depth_bound. lia.
Qed.

Lemma get_paths_enumerates_witness :
  paths_of (get_paths Samples.diamond0 fresh_state 0x1038 1)
  = take 1 (all_paths Samples.diamond0 (depth_bound Samples.diamond0)
              (Samples.dD true 0x1030 0x1040))
  /\ ended_of (get_paths Samples.diamond0 fresh_state 0x1038 1)
     = (if (length (all_paths Samples.diamond0 (depth_bound Samples.diamond0)
                      (Samples.dD true 0x1030 0x1040)) <? 1)%nat
        then Some GpStop else None)
  /\ forall p,
       p ∈ all_paths Samples.diamond0 (depth_bound Samples.diamond0)
             (Samples.dD true 0x1030 0x1040)
       <-> bb p = Samples.dD true 0x1030 0x1040
           /\ descending_chain Samples.diamond0 p.
Proof.
  apply (get_paths_enumerates Samples.diamond0 0x1038
           (Samples.dD true 0x1030 0x1040) 1).
  reflexivity.
Defined.

(** ** What the reverse traversals yield *)

Lemma rev_tree_stable fc n : forall m b,
  (rank fc (start_ea b) < n)%nat -> (rank fc (start_ea b) < m)%nat ->
  rev_tree fc n b = rev_tree fc m b.
Proof.
  induction n as [|n IH]; intros [|m] b Hn Hm; try lia.
  simpl. f_equal. apply Forall_bind_ext, Forall_forall. intros p Hp.
  apply followed_preds_spec in Hp as [Hp Hlt].
  apply preds_in_chart in Hp.
  pose proof (rank_lt fc p _ Hp Hlt). apply IH; lia.
Qed.

Lemma rev_all_cons fc cur rest :
  rev_all fc (cur :: rest)
  = cur :: rev_all fc (followed_preds fc cur) ++ rev_all fc rest.
Proof.
  unfold rev_all. rewrite bind_cons.
  change (rev_tree fc (S (length (blocks fc))) cur)
    with (cur :: (followed_preds fc cur ≫= rev_tree fc (length (blocks fc)))).
  rewrite <- app_comm_cons. do 2 f_equal.
  apply Forall_bind_ext, Forall_forall. intros p Hp.
  apply followed_preds_spec in Hp as [Hp Hlt].
  apply preds_in_chart in Hp.
  pose proof (rank_lt fc p _ Hp Hlt).
  pose proof (rank_le fc (start_ea cur)).
  apply rev_tree_stable; lia.
Qed.

Lemma rev_all_app fc l1 l2 :
  rev_all fc (l1 ++ l2) = rev_all fc l1 ++ rev_all fc l2.
Proof. apply bind_app. Qed.

Lemma rev_run_perm dfs fc n : forall nv,
  (total_weight fc nv <= n)%nat ->
  (rev_run dfs fc n nv).1 ≡ₚ rev_all fc nv
  /\ (dfs = true -> (rev_run dfs fc n nv).1 = rev_all fc nv).
Proof.
  induction n as [|n IH]; intros nv Hw.
  - destruct nv as [|cur rest]; [done|].
    rewrite total_weight_cons in Hw. lia.
  - destruct nv as [|cur rest]; [done|]. rewrite rev_all_cons.
    cbn [rev_run rev_step]. rewrite total_weight_cons in Hw.
    set (nv' := if dfs then _ else _).
    assert (total_weight fc nv' <= n)%nat as Hn.
    { subst nv'. destruct dfs; rewrite total_weight_app; lia. }
    destruct (IH nv' Hn) as [Hperm Heq].
    destruct (rev_run dfs fc n nv') as [out nv_end]. cbn [fst] in *.
    split.
    + rewrite Hperm. subst nv'. constructor.
      destruct dfs; rewrite rev_all_app; [done|].
      apply Permutation_app_comm.
    + intros ->. rewrite Heq by done. subst nv'. by rewrite rev_all_app.
Qed.

(** X18: a reverse traversal run until its loop is left yields, for the
    seed block and in turn for every block yielded, the predecessors that
    start strictly below it.  [_dfs_reverse] yields this tree of followed
    predecessors in pre-order; [_bfs_reverse] yields the same blocks the
    same number of times, in another order at most. *)
Theorem reverse_traversals_agree fc start nv n :
  rev_seed fc start = inr nv -> (total_weight fc nv <= n)%nat ->
  _dfs_reverse fc start n = inr (rev_all fc nv, [])
  /\ exists out,
       _bfs_reverse fc start n = inr (out, []) /\ out ≡ₚ rev_all fc nv.
Proof.
  intros Hseed Hn. unfold _dfs_reverse, _bfs_reverse. rewrite Hseed.
  pose proof (rev_run_terminates true fc n nv Hn) as Hd.
  pose proof (rev_run_terminates false fc n nv Hn) as Hb.
  destruct (rev_run_perm true fc n nv Hn) as [_ Heq].
  destruct (rev_run_perm false fc n nv Hn) as [Hperm _].
  destruct (rev_run true fc n nv) as [od nd].
  destruct (rev_run false fc n nv) as [ob nb]. simpl in *. subst nd nb.
  split; [by rewrite Heq|]. by exists ob.
Qed.

Lemma reverse_traversals_agree_witness :
  _dfs_reverse Samples.diamond0 (Some 0x1030) 8
  = inr (rev_all Samples.diamond0 [Samples.dD true 0x1030 0x1040], [])
  /\ exists out,
       _bfs_reverse Samples.diamond0 (Some 0x1030) 8 = inr (out, [])
       /\ out ≡ₚ rev_all Samples.diamond0 [Samples.dD true 0x1030 0x1040].
Proof.
  apply (reverse_traversals_agree Samples.diamond0 (Some 0x1030)
           [Samples.dD true 0x1030 0x1040] 8).
  - reflexivity.
  - vm_compute. lia.
Defined.

(** ** The instructions of the reachable blocks *)

Lemma iter_heads_all heads reverse start bs : forall first,
  truthy start && first = false ->
  forall h, h ∈ iter_heads heads reverse start first bs
            <-> h ∈ heads /\ exists b, b ∈ bs /\ contains b h = true.
Proof.
  induction bs as [|cur bs IH]; intros first Hf h; simpl.
  - split; [by inversion 1|]. intros [_ (b & Hb & _)]. by inversion Hb.
  - rewrite elem_of_app, (IH false) by (by rewrite andb_false_r).
    assert (h ∈ block_heads heads reverse start first cur
            <-> h ∈ heads /\ contains cur h = true) as ->.
    { unfold block_heads. rewrite Hf.
      destruct reverse; [rewrite elem_of_rev|];
        by rewrite elem_of_Heads, contains_spec. }
    split.
    + intros [[Hh Hc]|[Hh (b & Hb & Hc)]]; (split; [done|]).
      * exists cur. split; [left|done].
      * exists b. split; [by right|done].
    + intros [Hh (b & Hb & Hc)]. apply elem_of_cons in Hb as [->|Hb].
      * by left.
      * right. split; [done|]. by exists b.
Qed.

(** X19: on a chart whose blocks have pairwise different start addresses,
    a forward heads iteration without a start address, run to its end,
    yields exactly the instruction heads that lie inside a block reachable
    from the entry block, whether depth-first or breadth-first. *)
Theorem iter_heads_reachable heads fc n :
  distinct_starts fc -> (fwd_bound fc <= n)%nat ->
  match dfs_iter_heads heads fc None false n,
        bfs_iter_heads heads fc None false n with
  | inr hd, inr hb =>
      forall h,
        (h ∈ hd <-> h ∈ heads /\ exists b, reach fc b /\ contains b h = true)
        /\ (h ∈ hb <-> h ∈ hd)
  | inl _, inl _ => blocks fc = []
  | _, _ => False
  end.
Proof.
  intros Hd Hn.
  unfold dfs_iter_heads, bfs_iter_heads, dfs_iter_blocks, bfs_iter_blocks,
    _dfs, _bfs.
  destruct (fwd_init fc None) as [e|s0] eqn:E.
  - unfold fwd_init, getitem in E. by destruct (blocks fc).
  - destruct (fwd_all_reachable true fc n s0 Hd Hn E) as [H1 _].
    destruct (fwd_all_reachable false fc n s0 Hd Hn E) as [H2 _].
    intros h. rewrite !iter_heads_all by done.
    assert (forall bs : list BasicBlock, (forall x, x ∈ bs <-> reach fc x) ->
              (exists b, b ∈ bs /\ contains b h = true)
              <-> exists b, reach fc b /\ contains b h = true) as Hex.
    { intros bs Hbs. split; intros (b & Hb & Hc); exists b;
        (split; [by apply Hbs|done]). }
    rewrite (Hex _ H1), (Hex _ H2). done.
Qed.

Lemma iter_heads_reachable_witness :
  match dfs_iter_heads Samples.heads Samples.line None false 10,
        bfs_iter_heads Samples.heads Samples.line None false 10 with
  | inr hd, inr hb =>
      forall h,
        (h ∈ hd <-> h ∈ Samples.heads
                    /\ exists b, reach Samples.line b /\ contains b h = true)
        /\ (h ∈ hb <-> h ∈ hd)
  | inl _, inl _ => blocks Samples.line = []
  | _, _ => False
  end.
Proof.
  apply (iter_heads_reachable Samples.heads Samples.line 10).
  - unfold distinct_starts. vm_compute.
    repeat (constructor; [set_solver|]). constructor.
  - vm_compute. lia.
Defined.

(** ** [get_paths] and [paths_to_ea] on a chart laid out in address order *)

Lemma path_blocks_last p : last (path_blocks p) = Some (bb p).
Proof. rewrite path_blocks_snoc. apply last_snoc. Qed.

Lemma linked_snoc fc l x :
  linked fc (l ++ [x])
  <-> linked fc l /\ forall y, last l = Some y -> x ∈ succs fc y.
Proof.
  induction l as [|a l IH]; [simpl; split; [done|tauto]|].
  destruct l as [|c l].
  - simpl. split.
    + intros [H _]. split; [done|]. by intros y [= <-].
    + intros [_ H]. split; [by apply H|done].
  - change (linked fc ((a :: c :: l) ++ [x]))
      with (c ∈ succs fc a /\ linked fc ((c :: l) ++ [x])).
    change (linked fc (a :: c :: l))
      with (c ∈ succs fc a /\ linked fc (c :: l)).
    change (last (a :: c :: l)) with (last (c :: l)).
    rewrite IH. tauto.
Qed.

Lemma linked_in_chart fc l : forall a,
  a ∈ blocks fc -> linked fc (a :: l) ->
  Forall (fun b => b ∈ blocks fc) (a :: l).
Proof.
  induction l as [|c l IH]; intros a Ha Hl.
  - by constructor.
  - destruct Hl as [Hc Hl]. constructor; [done|].
    apply IH; [by eapply succs_in_chart|done].
Qed.

Section AddressOrder.
Variables (fc : FlowChart) (b0 : BasicBlock).
Hypothesis Hagree : edges_agree fc.
Hypothesis Hascend : edges_ascend fc.
Hypothesis Hb0 : getitem fc 0 = Some b0.
Hypothesis Honly : only_entry fc b0.

(** A descending chain, read from its root, is a simple path from the
    entry block. *)
Lemma descending_simple p :
  descending_chain fc p -> bb p ∈ blocks fc ->
  head (path_blocks p) = Some b0
  /\ linked fc (path_blocks p)
  /\ NoDup (start_ea <$> path_blocks p)
  /\ forall x, x ∈ path_blocks p -> start_ea x <= start_ea (bb p).
Proof.
  induction p as [b c e|b q c e IH] using PathBlock_induction;
    simpl; intros (_ & _ & Hp) Hb.
  - apply (Honly b Hb) in Hp as ->.
    split; [done|]. split; [done|]. split; [apply NoDup_singleton|].
    intros x Hx. apply list_elem_of_singleton in Hx as ->. lia.
  - destruct Hp as (Hq & Hlt & Hdq).
    pose proof (preds_in_chart _ _ _ Hq) as Hqin.
    destruct (IH Hdq Hqin) as (Hhead & Hl & Hnd & Hle).
    split; [|split; [|split]].
    + destruct (path_blocks q); [done|]. done.
    + apply linked_snoc. split; [done|]. intros y Hy.
      rewrite path_blocks_last in Hy. injection Hy as <-.
      by apply Hagree.
    + rewrite fmap_app. apply NoDup_app. split; [done|]. split.
      * intros s Hs Hs'. apply list_elem_of_singleton in Hs' as ->.
        apply list_elem_of_fmap in Hs as (x & Heq & Hx).
        apply Hle in Hx. lia.
      * apply NoDup_singleton.
    + intros x Hx. apply elem_of_app in Hx as [Hx|Hx].
      * apply Hle in Hx. lia.
      * apply list_elem_of_singleton in Hx as ->. lia.
Qed.

(** A path from the entry block along successor edges is the list of
    blocks of a descending chain. *)
Lemma simple_descending l :
  l <> [] -> head l = Some b0 -> linked fc l ->
  exists p, path_blocks p = l /\ descending_chain fc p.
Proof.
  assert (b0 ∈ blocks fc) as Hin0.
  { unfold getitem in Hb0. by eapply list_elem_of_lookup_2. }
  induction l as [|x l IH] using rev_ind; [done|].
  intros _ Hhead Hl. apply linked_snoc in Hl as [Hl Hlast].
  destruct l as [|a l].
  - simpl in Hhead. injection Hhead as ->.
    exists (new_PathBlock b0 None). split; [done|]. simpl.
    split; [done|]. split; [done|]. by apply Honly.
  - simpl in Hhead. injection Hhead as ->.
    destruct IH as (p & Hp & Hd); [done|done|done|].
    assert (Forall (fun b => b ∈ blocks fc) ((b0 :: l) ++ [x])) as Hall.
    { apply (linked_in_chart fc (l ++ [x]) b0 Hin0).
      change (linked fc ((b0 :: l) ++ [x])). apply linked_snoc. done. }
    apply Forall_app in Hall as [Hall Hx]. rewrite Forall_singleton in Hx.
    assert (bb p ∈ blocks fc) as Hpin.
    { eapply Forall_forall in Hall; [exact Hall|].
      apply last_Some_elem_of. by rewrite <- Hp, path_blocks_last. }
    assert (x ∈ succs fc (bb p)) as Hsucc.
    { apply Hlast. by rewrite <- Hp, path_blocks_last. }
    apply (proj1 (Hagree (bb p) x Hpin Hx)) in Hsucc.
    exists (new_PathBlock x (Some p)). split; [simpl; by rewrite Hp|].
    simpl. split; [done|]. split; [done|]. split; [done|].
    split; [by apply Hascend|done].
Qed.
End AddressOrder.

(** X20: on a chart on which the host reports every edge at both ends,
    every edge leads to a higher address, and the entry block [self[0]] is
    the one block without predecessors, [get_paths] and [paths_to_ea]
    describe the same paths: for an address inside the function bounds
    that one block [b] contains, the block lists [paths_to_ea] yields are
    the block sequences, read from the root, of the chains [get_paths]
    enumerates for [b] on a new chart. *)
Theorem get_paths_agrees_with_paths_to_ea fc ea b0 b :
  edges_agree fc -> edges_ascend fc ->
  getitem fc 0 = Some b0 -> only_entry fc b0 ->
  find_block fc ea = Some b ->
  (forall c, c ∈ blocks fc -> contains c ea = true -> c = b) ->
  f_start_ea fc <= ea < f_end_ea fc ->
  exists paths,
    paths_to_ea fc ea = inr (Some paths)
    /\ forall l, l ∈ paths
                 <-> exists p, p ∈ all_paths fc (depth_bound fc) b
                               /\ path_blocks p = l.
Proof.
  intros Hagree Hascend Hb0 Honly Hb Huniq Hea.
  destruct (paths_to_ea_char fc ea b0 Hb0) as (paths & Hp & Hchar).
  exists paths. split.
  { unfold paths_to_ea.
    assert ((f_start_ea fc <=? ea) && (ea <? f_end_ea fc) = true) as ->.
    { apply andb_true_iff. split; [apply Z.leb_le|apply Z.ltb_lt]; lia. }
    cbn [negb]. by rewrite Hb0, Hp. }
  pose proof (find_block_in fc _ _ Hb) as Hbin.
  intros l. rewrite Hchar. split.
  - intros (Hhead & Hl & (c & Hlast & Hc) & Hnd).
    destruct (simple_descending fc b0 Hagree Hascend Hb0 Honly l)
      as (p & Hpl & Hd); [by destruct l|done|done|].
    exists p. split; [|done].
    assert (bb p = c) as Hbb.
    { rewrite <- Hpl, path_blocks_last in Hlast. by injection Hlast. }
    assert (c ∈ blocks fc) as Hcin.
    { assert (b0 ∈ blocks fc) as Hin0.
      { unfold getitem in Hb0. by eapply list_elem_of_lookup_2. }
      destruct l as [|a l]; [done|]. simpl in Hhead. injection Hhead as ->.
      pose proof (linked_in_chart fc l b0 Hin0 Hl) as Hall.
      eapply Forall_forall in Hall; [exact Hall|].
      by apply last_Some_elem_of. }
    apply all_paths_complete; [done| | |done].
    + pose proof (rank_le fc (start_ea b)). unfold depth_bound. lia.
    + rewrite Hbb. by apply Huniq.
  - intros (p & Hp' & <-). apply all_paths_sound in Hp' as [Hbb Hd].
    destruct (descending_simple fc b0 Hagree Honly p Hd)
      as (Hhead & Hl & Hnd & _); [by rewrite Hbb|].
    split; [done|]. split; [done|]. split; [|done].
    exists b. split; [by rewrite path_blocks_last, Hbb|].
    by eapply find_block_contains.
Qed.

Lemma get_paths_agrees_with_paths_to_ea_witness :
  exists paths,
    paths_to_ea Samples.diamond0 0x1038 = inr (Some paths)
    /\ forall l, l ∈ paths
                 <-> exists p,
                       p ∈ all_paths Samples.diamond0
                             (depth_bound Samples.diamond0)
                             (Samples.dD true 0x1030 0x1040)
                       /\ path_blocks p = l.
Proof.
  assert (forall c, c ∈ blocks Samples.diamond0 ->
            c = Samples.dA 0x1000 0x1010 \/ c = Samples.dB 0x1010 0x1020
            \/ c = Samples.dC 0x1020 0x1030
            \/ c = Samples.dD true 0x1030 0x1040) as Hcases.
  { intros c Hc. simpl in Hc. set_unfold. tauto. }
  apply (get_paths_agrees_with_paths_to_ea Samples.diamond0 0x1038
           (Samples.dA 0x1000 0x1010) (Samples.dD true 0x1030 0x1040)).
  - intros a c Ha Hc.
    destruct (Hcases a Ha) as [->|[->|[->| ->]]];
      destruct (Hcases c Hc) as [->|[->|[->| ->]]];
      unfold succs, preds, getitem; simpl;
      unfold Samples.dA, Samples.dB, Samples.dC, Samples.dD; set_unfold;
      split; intros; intuition congruence.
  - intros a c Hc Ha.
    destruct (Hcases c Hc) as [->|[->|[->| ->]]];
      unfold preds, getitem in Ha; simpl in Ha; set_unfold;
      intuition (subst; simpl; lia).
  - reflexivity.
  - intros c Hc.
    destruct (Hcases c Hc) as [->|[->|[->| ->]]];
      unfold preds, getitem; simpl;
      unfold Samples.dA, Samples.dB, Samples.dC, Samples.dD;
      split; intros; congruence.
  - reflexivity.
  - intros c Hc Hin.
    destruct (Hcases c Hc) as [->|[->|[->| ->]]]; vm_compute in Hin;
      congruence.
  - simpl. lia.
Defined.

(** ** Contexts for the paths [get_paths] yields *)

Lemma descending_blocks fc p :
  descending_chain fc p -> bb p ∈ blocks fc ->
  Forall (fun b => b ∈ blocks fc) (path_blocks p).
Proof.
  induction p as [b c e|b q c e IH] using PathBlock_induction;
    simpl; intros (_ & _ & Hp) Hb.
  - by apply Forall_singleton.
  - destruct Hp as (Hq & _ & Hdq). apply Forall_app. split.
    + apply IH; [done|]. by eapply preds_in_chart.
    + by apply Forall_singleton.
Qed.

Lemma descending_refs fc p : descending_chain fc p -> refs p = [].
Proof.
  induction p as [b c e|b q c e IH] using PathBlock_induction;
    simpl; intros (-> & _ & Hp); [done|].
  destruct Hp as (_ & _ & Hdq). by rewrite IH.
Qed.

Section PathContexts.
Context {context : Type} (new_context : context)
        (execute : context -> Z -> context)
        (heads : list Z) (BADADDR : Z).

Local Abbreviation cpu :=
  (cpu_context context new_context execute heads BADADDR).
Local Abbreviation coh := (coherent context new_context execute heads).

Lemma descending_coherent fc p σ : descending_chain fc p -> coh σ p.
Proof.
  induction p as [b c e|b q c e IH] using PathBlock_induction;
    simpl; intros (-> & -> & Hp); [done|].
  destruct Hp as (_ & _ & Hdq). split; [done|]. by apply IH.
Qed.

(** X21: how the two halves of the module compose.  With the instruction
    heads in ascending order and every block of the chart ending at or
    after its start, below [BADADDR]: for every path [get_paths(ea)]
    yields on a new chart, [cpu_context(ea)] on that path returns a context
    whose value is that of a new context on which all instructions of the
    blocks on the path before the block of [ea], and then the instructions
    of that block up to and including the one at [ea], have been executed
    in order. *)
Theorem get_paths_cpu_context fc ea b n p σ :
  ascending heads ->
  (forall c, c ∈ blocks fc -> start_ea c <= end_ea c /\ start_ea c <= BADADDR) ->
  find_block fc ea = Some b ->
  p ∈ paths_of (get_paths fc fresh_state ea n) ->
  exists r p' σ',
    cpu p (Some ea) σ = inr (Some r, p', σ')
    /\ deref context new_context σ' r
       = replay context new_context execute
           (all_heads heads (ancestors p)
            ++ Heads heads (start_ea b) (next_head heads BADADDR ea))
    /\ path_blocks p' = path_blocks p.
Proof.
  intros Hasc Hbounds Hb Hp.
  pose proof (find_block_in fc _ _ Hb) as Hin.
  assert (p ∈ all_paths fc (depth_bound fc) b) as Hall.
  { rewrite (proj1 (get_paths_new_take fc ea b n Hb)) in Hp.
    by apply (subseteq_take n). }
  apply all_paths_sound in Hall as [Hbb Hdesc].
  destruct (cpu_replays new_context execute heads BADADDR Hasc p (Some ea) σ)
    as (r & p' & σ' & Hrun & Hval & Hbl & _).
  - eapply Forall_impl; [apply (descending_blocks fc p Hdesc)|].
    + by rewrite Hbb.
    + intros c Hc. by apply Hbounds.
  - by apply (descending_coherent fc).
  - rewrite (descending_refs fc p Hdesc). constructor.
  - simpl. rewrite Hbb. apply contains_spec.
    by eapply find_block_contains.
  - exists r, p', σ'. split; [done|]. split; [|done].
    rewrite Hval. unfold expected. simpl. by rewrite Hbb.
Qed.
End PathContexts.

Lemma get_paths_cpu_context_witness :
  let p := new_PathBlock Samples.lineB (Some (new_PathBlock Samples.lineA None)) in
  let σ := mkEmu (list Z) [] [] in
  exists r p' σ',
    cpu_context (list Z) [] Samples.trace Samples.heads 0xFFFFFFFF
      p (Some 0x1014) σ = inr (Some r, p', σ')
    /\ deref (list Z) [] σ' r
       = replay (list Z) [] Samples.trace
           (all_heads Samples.heads (ancestors p)
            ++ Heads Samples.heads (start_ea Samples.lineB)
                 (next_head Samples.heads 0xFFFFFFFF 0x1014))
    /\ path_blocks p' = path_blocks p.
Proof.
  intros p σ.
  apply (get_paths_cpu_context [] Samples.trace Samples.heads 0xFFFFFFFF
           Samples.line 0x1014 Samples.lineB 1 p σ).
  - simpl. repeat (split; [repeat (constructor; [lia|]); constructor|]). done.
  - intros c Hc. simpl in Hc. set_unfold.
    destruct Hc as [->|[->|[]]]; simpl; lia.
  - reflexivity.
  - vm_compute. left.
Defined.

(** ** No path twice *)

Lemma via_parents_NoDup rec cur rest :
  NoDup rest ->
  (forall block, block ∈ rest -> NoDup (rec block)) ->
  (forall block q, q ∈ rec block -> bb q = block) ->
  NoDup (via_parents rec cur rest).
Proof.
  intros Hnd Hrec Hbb. induction rest as [|block rest IH]; simpl;
    [constructor|].
  apply NoDup_cons in Hnd as [Hnew Hnd].
  assert (NoDup (via_parents rec cur rest)) as IH'.
  { apply IH; [done|]. intros c Hc. apply Hrec. by right. }
  case_bool_decide; [|done].
  apply NoDup_app. split; [|split; [|done]].
  - apply NoDup_fmap_2; [|apply Hrec; left].
    intros q1 q2 Heq. by injection Heq.
  - intros p Hp Hp'.
    apply list_elem_of_fmap in Hp as (q & -> & Hq).
    apply via_parents_elem in Hp' as (block' & q' & Hb' & _ & Hq' & Heq).
    injection Heq as ->. apply Hbb in Hq, Hq'. congruence.
Qed.

Lemma all_paths_NoDup fc n : forall b,
  (forall c, c ∈ blocks fc -> NoDup (preds fc c)) ->
  b ∈ blocks fc -> NoDup (all_paths fc n b).
Proof.
  induction n as [|n IH]; intros b Hpreds Hb; [constructor|].
  rewrite all_paths_S. destruct (length (preds fc b) =? 0)%nat.
  - apply NoDup_singleton.
  - apply via_parents_NoDup; [by apply Hpreds| |].
    + intros block Hblock. apply IH; [done|by eapply preds_in_chart].
    + intros block q Hq. by apply all_paths_sound in Hq as [? _].
Qed.

(** X22: when the host reports no predecessor of a block twice,
    [get_paths] on a new chart yields no path twice. *)
Theorem get_paths_no_repeats fc ea n :
  (forall c, c ∈ blocks fc -> NoDup (preds fc c)) ->
  NoDup (paths_of (get_paths fc fresh_state ea n)).
Proof.
  intros Hpreds. destruct (find_block fc ea) as [b|] eqn:Hb.
  - rewrite (proj1 (get_paths_new_take fc ea b n Hb)).
    eapply sublist_NoDup; [|apply sublist_take].
    apply all_paths_NoDup; [done|by eapply find_block_in].
  - rewrite get_paths_no_paths by done. constructor.
Qed.

Lemma get_paths_no_repeats_witness :
  NoDup (paths_of (get_paths Samples.diamond0 fresh_state 0x1038 5)).
Proof.
  apply (get_paths_no_repeats Samples.diamond0 0x1038 5).
  intros c Hc. simpl in Hc. set_unfold.
  destruct Hc as [->|[->|[->|[->|[]]]]]; unfold preds, getitem; simpl;
    unfold Samples.dA, Samples.dB, Samples.dC, Samples.dD;
    repeat (constructor; [set_unfold; intuition congruence|]); constructor.
Defined.
